(** * SoftWhisper: segmentation, concurrent transcription and rendering

    A shallow embedding of the transcription core of [SoftWhisper-CPU.py]
    (class [SoftWhisper]): [parse_time], [format_timestamp], the two
    segment planners inside [transcribe_file], the completion loop of
    [transcribe_file], [transcribe_segment], and the two subtitle
    renderers [generate_srt_text_with_speakers] and [write_srt_file].

    Conventions.
    - A Python [str] is a list of Unicode code points ([pystr]).
    - A Python [float] holding a time in seconds is a rational ([Q]):
      every finite float is one.  Where the result of an operation decides
      what the program does and rounding can change it (the cap test of the
      merging loop, the millisecond digits of a timestamp), the operation
      is the exact one followed by rounding to the nearest binary64 number
      ([round_double]); elsewhere the operations are exact on the values
      the program can have, and are modelled without rounding.
    - Exceptions are values of [exn]; a function that may raise returns
      [exn + A].
    - Effects (progress queue, console queue, widget updates, temporary
      files) are events appended to an explicit trace or an explicit
      file-system state.
    - The collaborators (diarization pipeline, Whisper model, pydub,
      the stop flag set by the user interface, the order in which futures
      complete) are inputs of the model: every theorem quantifies over
      what they do.
    - The worker threads are modelled twice: [Transcriber] is one call of
      [transcribe_segment] as a state-passing function, [Pool] is the
      interleaving of the calls of all tasks, with [threading.Lock]
      granting the model lock to one task at a time. *)

From Stdlib Require Import String Ascii.
From Stdlib Require Import ZArith NArith QArith Qround Qpower List.
From Stdlib Require Import Bool Lia Lqa Permutation Sorted.
From Stdlib Require DecimalN.
Import ListNotations.

Set Implicit Arguments.
Close Scope Q_scope.
Open Scope list_scope.

(* ================================================================== *)
(** * Python values *)
(* ================================================================== *)

Module Py.

(** A [str]: a sequence of code points. *)
Definition pystr := list N.

(** The code points of an ASCII literal. *)
Definition cp (s : string) : pystr :=
  List.map N_of_ascii (list_ascii_of_string s).

(** [a == b] on strings. *)
Fixpoint pystr_eqb (a b : pystr) : bool :=
  match a, b with
  | [], [] => true
  | x :: a', y :: b' => (x =? y)%N && pystr_eqb a' b'
  | _, _ => false
  end.

(** Code points used by the program. *)
Definition LF : N := 10.
Definition COLON : N := 58.

(** [str.isspace] on one code point (the Unicode White_Space and
    bidirectional B/S/WS characters Python strips). *)
Definition isspace (c : N) : bool :=
  ((9 <=? c) && (c <=? 13) || (28 <=? c) && (c <=? 32)
   || (c =? 133) || (c =? 160) || (c =? 5760)
   || (8192 <=? c) && (c <=? 8202)
   || (c =? 8232) || (c =? 8233) || (c =? 8239) || (c =? 8287)
   || (c =? 12288))%N.

Fixpoint lstrip (s : pystr) : pystr :=
  match s with
  | c :: s' => if isspace c then lstrip s' else s
  | [] => []
  end.

Definition rstrip (s : pystr) : pystr := rev (lstrip (rev s)).

(** [s.strip()] *)
Definition strip (s : pystr) : pystr := rstrip (lstrip s).

(** [sep.join(parts)] *)
Fixpoint join (sep : pystr) (parts : list pystr) : pystr :=
  match parts with
  | [] => []
  | [p] => p
  | p :: rest => p ++ sep ++ join sep rest
  end.

(** Decimal digits of a [Decimal.uint], most significant first. *)
Fixpoint uint_digits (u : Decimal.uint) : pystr :=
  match u with
  | Decimal.Nil => []
  | Decimal.D0 u => 48%N :: uint_digits u
  | Decimal.D1 u => 49%N :: uint_digits u
  | Decimal.D2 u => 50%N :: uint_digits u
  | Decimal.D3 u => 51%N :: uint_digits u
  | Decimal.D4 u => 52%N :: uint_digits u
  | Decimal.D5 u => 53%N :: uint_digits u
  | Decimal.D6 u => 54%N :: uint_digits u
  | Decimal.D7 u => 55%N :: uint_digits u
  | Decimal.D8 u => 56%N :: uint_digits u
  | Decimal.D9 u => 57%N :: uint_digits u
  end.

(** [str(abs(z))] *)
Definition digits_of (z : Z) : pystr := uint_digits (N.to_uint (Z.abs_N z)).

(** [f"{z}"] for an [int]. *)
Definition str_of_int (z : Z) : pystr :=
  if (z <? 0)%Z then 45%N :: digits_of z else digits_of z.

(** [f"{z:0w}"] for an [int]: sign-aware zero padding to width [w]. *)
Definition format_0w (w : nat) (z : Z) : pystr :=
  let d := digits_of z in
  if (z <? 0)%Z
  then 45%N :: repeat 48%N (w - 1 - length d) ++ d
  else repeat 48%N (w - length d) ++ d.

(** [int(x)] for a float: truncation toward zero. *)
Definition int_of_float (x : Q) : Z := Z.quot (Qnum x) (Zpos (Qden x)).

(** [x // m] and [x % m] for floats, [m] nonzero: floor division and the
    remainder that takes the sign of the divisor. *)
Definition floordiv (x m : Q) : Q := inject_Z (Qfloor (x / m)%Q).
Definition fmod (x m : Q) : Q := (x - m * inject_Z (Qfloor (x / m)))%Q.

(** ** Rounding

    A Python [float] is an IEEE 754 binary64 number: a rational
    [m * 2^e] with [|m| < 2^53] and [e >= -1074].  An arithmetic
    operation on floats returns the exact result rounded to the nearest
    such number, ties to the even significand.  Overflow to infinity is
    not modelled (it needs magnitudes of [10^308]). *)

Definition pow2 (e : Z) : Q := (2 ^ e)%Q.

(** For [0 < x]: the exponent [l] with [2^l <= x < 2^(l+1)]. *)
Definition ilog2 (x : Q) : Z :=
  let l0 := (Z.log2 (Qnum x) - Z.log2 (Zpos (Qden x)))%Z in
  if Qle_bool (pow2 l0) x then l0 else (l0 - 1)%Z.

(** The nearest integer, ties to the even one. *)
Definition round_half_even (x : Q) : Z :=
  let f := Qfloor x in
  match (x - inject_Z f ?= 1 # 2)%Q with
  | Lt => f
  | Gt => (f + 1)%Z
  | Eq => if Z.even f then f else (f + 1)%Z
  end.

(** The float nearest to [x], for [0 < x]: 53 significant bits, and no
    exponent below that of the subnormal numbers. *)
Definition round_pos (x : Q) : Q :=
  let e := Z.max (ilog2 x - 52) (-1074) in
  (inject_Z (round_half_even (x / pow2 e)) * pow2 e)%Q.

(** The float nearest to [x]. *)
Definition round_double (x : Q) : Q :=
  match (x ?= 0)%Q with
  | Eq => 0%Q
  | Gt => round_pos x
  | Lt => (- round_pos (- x))%Q
  end.

(** [x - y] and [x * y] on floats. *)
Definition fsub (x y : Q) : Q := round_double (x - y).
Definition fmul (x y : Q) : Q := round_double (x * y).

(** [x] is the value of a float. *)
Definition is_double (x : Q) : Prop :=
  exists m e : Z,
    (Z.abs m < 2 ^ 53)%Z /\ (-1074 <= e)%Z /\ (x == inject_Z m * pow2 e)%Q.

(** The exceptions the modelled code raises. *)
Inductive exn : Type :=
| ValueError (msg : pystr)
| Exception (msg : pystr)
| ZeroDivisionError.

(** [str(e)] *)
Definition str_of_exn (e : exn) : pystr :=
  match e with
  | ValueError m => m
  | Exception m => m
  | ZeroDivisionError => cp "float floor division by zero"
  end.

End Py.
Import Py.

(* ================================================================== *)
(** * Time utilities: [parse_time] and [format_timestamp] *)
(* ================================================================== *)

(** The fragment of [re] syntax that [parse_time]'s pattern uses. *)
Inductive regex : Type :=
| Bol                              (* ^ *)
| Eol                              (* $ *)
| Digit                            (* \d *)
| Range (lo hi : N)                (* [lo-hi] *)
| Chr (c : N)                      (* a literal character *)
| Opt (r : regex)                  (* r? , greedy *)
| Rep (r : regex) (lo hi : nat)    (* r{lo,hi} , greedy *)
| Cat (r1 r2 : regex)              (* r1 r2 *)
| Group (r : regex).               (* ( r ) , capturing *)

Section Regex.

(** [decimal c] is [unicodedata.decimal(chr(c))] when [c] is a decimal
    digit (category Nd) and [None] otherwise: [\d] matches exactly those
    characters, and [int] reads them with that value.  The table belongs to
    the Python runtime, so it is a parameter here. *)
Variable decimal : N -> option Z.

(** A continuation receives the position, the remaining input and the
    groups captured so far. *)
Definition cont := nat -> pystr -> list pystr -> option (list pystr).

(** Backtracking matcher: [rmatch r pos s caps k] tries [r] on the
    remaining input [s] (which starts at offset [pos]), preferring the
    greedy alternative, and hands over to [k]. *)
Fixpoint rmatch (r : regex) (pos : nat) (s : pystr) (caps : list pystr)
         (k : cont) {struct r} : option (list pystr) :=
  match r with
  | Bol => if Nat.eqb pos 0 then k pos s caps else None
  | Eol =>
      match s with
      | [] => k pos s caps
      | [c] => if (c =? LF)%N then k pos s caps else None
      | _ => None
      end
  | Digit =>
      match s with
      | c :: s' =>
          match decimal c with
          | Some _ => k (S pos) s' caps
          | None => None
          end
      | [] => None
      end
  | Range lo hi =>
      match s with
      | c :: s' =>
          if ((lo <=? c) && (c <=? hi))%N then k (S pos) s' caps else None
      | [] => None
      end
  | Chr c0 =>
      match s with
      | c :: s' => if (c =? c0)%N then k (S pos) s' caps else None
      | [] => None
      end
  | Opt r1 =>
      match rmatch r1 pos s caps k with
      | Some res => Some res
      | None => k pos s caps
      end
  | Rep r1 lo hi =>
      (fix rep (must may : nat) (pos : nat) (s : pystr) (caps : list pystr)
           (k : cont) {struct must} : option (list pystr) :=
         match must with
         | S must' =>
             rmatch r1 pos s caps (fun p s' c' => rep must' may p s' c' k)
         | O =>
             (fix more (may : nat) (pos : nat) (s : pystr)
                  (caps : list pystr) (k : cont) {struct may}
                : option (list pystr) :=
                match may with
                | O => k pos s caps
                | S may' =>
                    match rmatch r1 pos s caps
                            (fun p s' c' => more may' p s' c' k) with
                    | Some res => Some res
                    | None => k pos s caps
                    end
                end) may pos s caps k
         end) lo (hi - lo) pos s caps k
  | Cat r1 r2 =>
      rmatch r1 pos s caps (fun p s' c' => rmatch r2 p s' c' k)
  | Group r1 =>
      rmatch r1 pos s caps
        (fun p s' c' => k p s' (c' ++ [firstn (p - pos) s]))
  end.

(** [re.match(pattern, s)]: anchored at the start; the result is
    [match.groups()]. *)
Definition re_match (r : regex) (s : pystr) : option (list pystr) :=
  rmatch r 0 s [] (fun _ _ caps => Some caps).

(** [int(s)] on a run of decimal digits.  (Signs, surrounding blanks and
    underscores, which [int] also reads, never occur in a captured group
    and are rejected here.) *)
Fixpoint int_digits (acc : Z) (s : pystr) : option Z :=
  match s with
  | [] => Some acc
  | c :: s' =>
      match decimal c with
      | Some v => int_digits (10 * acc + v)%Z s'
      | None => None
      end
  end.

Definition py_int (s : pystr) : exn + Z :=
  match s with
  | [] => inl (ValueError (cp "invalid literal for int()"))
  | _ =>
      match int_digits 0 s with
      | Some z => inr z
      | None => inl (ValueError (cp "invalid literal for int()"))
      end
  end.

(** [(\d{1,2})] *)
Definition hours_group : regex := Group (Rep Digit 1 2).

(** [([0-5]?\d)] *)
Definition sixty_group : regex := Group (Cat (Opt (Range 48 53)) Digit).

(** [r'^(\d{1,2}):([0-5]?\d):([0-5]?\d)$'] *)
Definition time_pattern : regex :=
  Cat Bol
 (Cat hours_group
 (Cat (Chr COLON)
 (Cat sixty_group
 (Cat (Chr COLON)
 (Cat sixty_group
      Eol))))).

(** [SoftWhisper.parse_time] *)
Definition parse_time (time_str : pystr) : exn + Z :=
  match re_match time_pattern time_str with
  | None => inl (ValueError (cp "Time must be in [hh:mm:ss] format."))
  | Some [h; m; s] =>
      match py_int h, py_int m, py_int s with
      | inr hours, inr minutes, inr seconds =>
          inr (hours * 3600 + minutes * 60 + seconds)%Z
      | inl e, _, _ => inl e
      | _, inl e, _ => inl e
      | _, _, inl e => inl e
      end
  | Some _ => inl (ValueError (cp "not enough values to unpack"))
  end.

End Regex.

(** The digit table restricted to ASCII ['0'..'9']. *)
Definition ascii_decimal (c : N) : option Z :=
  if ((48 <=? c) && (c <=? 57))%N then Some (Z.of_N c - 48)%Z else None.

(** [SoftWhisper.format_timestamp] *)
Definition format_timestamp (seconds : Q) : pystr :=
  let hours := int_of_float (floordiv seconds 3600%Q) in
  let minutes := int_of_float (floordiv (fmod seconds 3600%Q) 60%Q) in
  let secs := int_of_float (fmod seconds 60%Q) in
  let millis :=
    int_of_float
      (fmul (fsub seconds (inject_Z (int_of_float seconds))) 1000) in
  format_0w 2 hours ++ [COLON] ++ format_0w 2 minutes ++ [COLON]
    ++ format_0w 2 secs ++ [44%N] ++ format_0w 3 millis.

(* ================================================================== *)
(** * Data model *)
(* ================================================================== *)

(** A planned segment: the dict [{"speaker", "start", "end"}]; the times
    are offsets into the trimmed audio. *)
Record Segment : Type := mkSegment {
  speaker : pystr;
  seg_start : Q;
  seg_end : Q
}.

(** A transcribed segment: the dict [{"speaker", "start", "end", "text"}]
    appended to [all_segments]; the times are absolute. *)
Record TSegment : Type := mkTSegment {
  t_speaker : pystr;
  t_start : Q;
  t_end : Q;
  t_text : pystr
}.

(** One track of [diarization.itertracks(yield_label=True)]. *)
Record Turn : Type := mkTurn {
  turn_label : pystr;
  turn_start : Q;
  turn_end : Q
}.

(** [MAX_CHUNK_DURATION = 60] *)
Definition MAX_CHUNK_DURATION : Q := 60%Q.

(* ================================================================== *)
(** * Segment planner (inside [transcribe_file]) *)
(* ================================================================== *)

(** [speaker_map]: a dict from raw labels to display labels, in insertion
    order. *)
Definition speaker_map := list (pystr * pystr).

Fixpoint map_get (m : speaker_map) (k : pystr) : option pystr :=
  match m with
  | [] => None
  | (k', v) :: m' => if pystr_eqb k' k then Some v else map_get m' k
  end.

(** State of the loop over [itertracks]. *)
Record label_state : Type := mkLabelState {
  ls_map : speaker_map;
  ls_count : Z;
  ls_segments : list Segment
}.

(** Body of [for turn, _, speaker in diarization.itertracks(...)]. *)
Definition label_step (st : label_state) (t : Turn) : label_state :=
  let '(m, count) :=
    match map_get (ls_map st) (turn_label t) with
    | None =>
        (ls_map st ++ [(turn_label t, cp "Speaker " ++ str_of_int (ls_count st))],
         (ls_count st + 1)%Z)
    | Some _ => (ls_map st, ls_count st)
    end in
  let label :=
    match map_get m (turn_label t) with
    | Some l => l
    | None => []
    end in
  mkLabelState m count
    (ls_segments st ++ [mkSegment label (turn_start t) (turn_end t)]).

(** "Parse diarization results". *)
Definition label_turns (turns : list Turn) : list Segment :=
  ls_segments (fold_left label_step turns (mkLabelState [] 1 [])).

(** Body of [for segment in speaker_segments[1:]]: the state is
    [(combined_segments, current_chunk)]. *)
Definition combine_step (mcd : Q) (st : list Segment * Segment)
           (segment : Segment) : list Segment * Segment :=
  let '(combined_segments, current_chunk) := st in
  let potential_end := seg_end segment in
  let potential_duration := fsub potential_end (seg_start current_chunk) in
  if Qle_bool potential_duration mcd
  then (combined_segments,
        mkSegment (speaker current_chunk) (seg_start current_chunk)
                  potential_end)
  else (combined_segments ++ [current_chunk],
        mkSegment (speaker segment) (seg_start segment) (seg_end segment)).

(** "Combine smaller adjacent segments to form larger chunks". *)
Definition combine_segments (mcd : Q) (speaker_segments : list Segment)
  : exn + list Segment :=
  match speaker_segments with
  | [] =>
      inl (ValueError (cp "No speaker segments found during diarization."))
  | first :: rest =>
      let '(combined_segments, current_chunk) :=
        fold_left (combine_step mcd) rest
          ([], mkSegment (speaker first) (seg_start first) (seg_end first)) in
      inr (combined_segments ++ [current_chunk])
  end.

(** [range(n)] *)
Definition range (n : Z) : list Z := List.map Z.of_nat (seq 0 (Z.to_nat n)).

(** The [i]-th full chunk: the dict appended in the body of
    [for i in range(num_full_chunks)]. *)
Definition window (mcd : Q) (i : Z) : Segment :=
  mkSegment (cp "Speaker 1") (inject_Z i * mcd)%Q (inject_Z (i + 1) * mcd)%Q.

(** "divide the audio into chunks of MAX_CHUNK_DURATION". *)
Definition fixed_grid (mcd trimmed_duration : Q) : exn + list Segment :=
  if Qeq_bool mcd 0 then inl ZeroDivisionError
  else
    let num_full_chunks := int_of_float (floordiv trimmed_duration mcd) in
    let remainder := fmod trimmed_duration mcd in
    let full := List.map (window mcd) (range num_full_chunks) in
    let last :=
      if Qle_bool remainder 0 then []
      else [mkSegment (cp "Speaker 1") (inject_Z num_full_chunks * mcd)%Q
                      trimmed_duration] in
    inr (full ++ last).

(** Proof-oriented presentation of the merging loop: the open chunk
    [cur] is threaded through the remaining turns. *)
Fixpoint merge_from (mcd : Q) (cur : Segment) (rest : list Segment)
  : list Segment :=
  match rest with
  | [] => [cur]
  | t :: rest' =>
      if Qle_bool (fsub (seg_end t) (seg_start cur)) mcd
      then merge_from mcd
             (mkSegment (speaker cur) (seg_start cur) (seg_end t)) rest'
      else cur :: merge_from mcd
                    (mkSegment (speaker t) (seg_start t) (seg_end t)) rest'
  end.

(** The same loop with a ghost component: every chunk carries the list
    of turns that were merged into it. *)
Fixpoint merge_members (mcd : Q) (cur : Segment) (members : list Segment)
         (rest : list Segment) : list (Segment * list Segment) :=
  match rest with
  | [] => [(cur, members)]
  | t :: rest' =>
      if Qle_bool (fsub (seg_end t) (seg_start cur)) mcd
      then merge_members mcd
             (mkSegment (speaker cur) (seg_start cur) (seg_end t))
             (members ++ [t]) rest'
      else (cur, members)
             :: merge_members mcd
                  (mkSegment (speaker t) (seg_start t) (seg_end t)) [t] rest'
  end.

(** [combine_segments] with the ghost member lists. *)
Definition combine_members (mcd : Q) (speaker_segments : list Segment)
  : list (Segment * list Segment) :=
  match speaker_segments with
  | [] => []
  | first :: rest =>
      merge_members mcd
        (mkSegment (speaker first) (seg_start first) (seg_end first))
        [first] rest
  end.

(** The invariant of the open chunk: it has members, a chunk with a
    single member is that member, and a chunk with several members passed
    the cap test: its duration, as the program computes it, is within the
    cap. *)
Definition chunk_ok (mcd : Q) (c : Segment) (members : list Segment)
  : Prop :=
  members <> []
  /\ (forall t, members = [t] -> c = t)
  /\ ((2 <= length members)%nat ->
      (fsub (seg_end c) (seg_start c) <= mcd)%Q).

(** ** Interval predicates used to state the planner's properties *)

(** [t] lies in the half-open interval of [s]. *)
Definition inside (t : Q) (s : Segment) : Prop :=
  (seg_start s <= t /\ t < seg_end s)%Q.

(** [linked R e segs b]: starting from the end [e] of the previous
    interval, every segment is a nonempty interval whose start is
    [R]-related to the end before it, and the last end is [b]. *)
Fixpoint linked (R : Q -> Q -> Prop) (e : Q) (segs : list Segment) (b : Q)
  : Prop :=
  match segs with
  | [] => (e == b)%Q
  | s :: rest =>
      R e (seg_start s) /\ (seg_start s < seg_end s)%Q
      /\ linked R (seg_end s) rest b
  end.

(** [chain R a segs b]: a nonempty list of nonempty intervals, the first
    starting at [a], the last ending at [b], each end [R]-related to the
    next start.  With [R := Qeq] the segments tile [[a, b)]; with
    [R := Qle] they are ordered and disjoint, gaps allowed. *)
Definition chain (R : Q -> Q -> Prop) (a : Q) (segs : list Segment) (b : Q)
  : Prop :=
  match segs with
  | [] => False
  | s :: rest =>
      (a == seg_start s)%Q /\ (seg_start s < seg_end s)%Q
      /\ linked R (seg_end s) rest b
  end.

(** The segments cover [[a, b)] exactly once, in order. *)
Definition tiles (a b : Q) (segs : list Segment) : Prop := chain Qeq a segs b.

(** Every point of [[a, b)] lies in exactly one segment of the list. *)
Definition covers_once (a b : Q) (segs : list Segment) : Prop :=
  forall t : Q, (a <= t < b)%Q ->
    exists i s, nth_error segs i = Some s /\ inside t s /\
      forall j s', nth_error segs j = Some s' -> inside t s' -> j = i.

(** Starts are non-decreasing along the list. *)
Definition start_ordered (segs : list Segment) : Prop :=
  StronglySorted (fun s1 s2 => (seg_start s1 <= seg_start s2)%Q) segs.

(** Ends are non-decreasing along the list. *)
Definition end_ordered (segs : list Segment) : Prop :=
  StronglySorted (fun s1 s2 => (seg_end s1 <= seg_end s2)%Q) segs.

(** The interval of [t] is contained in the interval of [c]. *)
Definition within (t c : Segment) : Prop :=
  (seg_start c <= seg_start t /\ seg_end t <= seg_end c)%Q.

(* ================================================================== *)
(** * Transcript renderer *)
(* ================================================================== *)

(** [enumerate(segments, start=1)] *)
Definition enumerate1 (A : Type) (l : list A) : list (Z * A) :=
  combine (List.map Z.of_nat (seq 1 (length l))) l.

(** The entry built by [generate_srt_text_with_speakers]:
    [f"{i}\n{start_time} --> {end_time}\n{speaker}: {text}\n"]. *)
Definition srt_entry (i : Z) (segment : TSegment) : pystr :=
  let start_time := format_timestamp (t_start segment) in
  let end_time := format_timestamp (t_end segment) in
  let speaker := t_speaker segment in
  let text := strip (t_text segment) in
  str_of_int i ++ [LF] ++ start_time ++ cp " --> " ++ end_time ++ [LF]
    ++ speaker ++ cp ": " ++ text ++ [LF].

(** [SoftWhisper.generate_srt_text_with_speakers]: the text shown in the
    transcription box. *)
Definition generate_srt_text_with_speakers (segments : list TSegment)
  : pystr :=
  let srt_entries :=
    List.map (fun p : Z * TSegment => srt_entry (fst p) (snd p))
             (enumerate1 segments) in
  join [LF] srt_entries.

(** The string one iteration of [write_srt_file] writes:
    [f"{i}\n{start_time} --> {end_time}\n{speaker}: {text}\n\n"]. *)
Definition srt_written (i : Z) (segment : TSegment) : pystr :=
  let start_time := format_timestamp (t_start segment) in
  let end_time := format_timestamp (t_end segment) in
  let speaker := t_speaker segment in
  let text := strip (t_text segment) in
  str_of_int i ++ [LF] ++ start_time ++ cp " --> " ++ end_time ++ [LF]
    ++ speaker ++ cp ": " ++ text ++ [LF; LF].

(** [SoftWhisper.write_srt_file]: the content of the file after all
    writes went through (the file is opened with mode ['w']). *)
Definition write_srt_file (segments : list TSegment) : pystr :=
  fold_left (fun (file : pystr) (p : Z * TSegment) =>
               file ++ srt_written (fst p) (snd p))
            (enumerate1 segments) [].

(** The four-line entry as the specification words it, for the [i]-th
    segment: index, timestamps, ["{speaker}: {text}"], blank line. *)
Definition spec_cue (i : Z) (segment : TSegment) : pystr :=
  str_of_int i ++ [LF]
    ++ format_timestamp (t_start segment) ++ cp " --> "
    ++ format_timestamp (t_end segment) ++ [LF]
    ++ t_speaker segment ++ cp ": " ++ strip (t_text segment) ++ [LF]
    ++ [LF].

(** The subtitle document as the specification words it: the
    concatenation of the entries, numbered from 1. *)
Definition spec_srt_document (segments : list TSegment) : pystr :=
  concat (List.map (fun p : Z * TSegment => spec_cue (fst p) (snd p))
                   (enumerate1 segments)).

(* ================================================================== *)
(** * Segment transcriber: [transcribe_segment] *)
(* ================================================================== *)

Module Transcriber.

(** Lines put on the console queue by [transcribe_segment]. *)
Inductive console_msg : Type :=
| ErrExtracting (e : exn)
| Exported (s : Segment) (path : nat)
| ErrExporting (e : exn)
| Transcribed (s : Segment) (text : pystr)
| ErrTranscribing (e : exn)
| Deleted (path : nat).

(** The part of the world the function touches: the temporary files that
    exist (by name) and the console queue.  Nothing else creates or
    removes temporary files during the call. *)
Record world : Type := mkWorld {
  files : list nat;
  console : list console_msg
}.

(** What the collaborators do during one call. *)
Record env : Type := mkEnv {
  stop_is_set : bool;                 (* transcription_stop_event.is_set() *)
  slice_raises : option exn;          (* self.trimmed_audio[a:b] *)
  tempfile_raises : option exn;       (* tempfile.NamedTemporaryFile(...) *)
  export_raises : option exn;         (* segment_audio.export(...) *)
  model_result : exn + option pystr;  (* model.transcribe(...): raises, or a
                                         dict and its value at "text" *)
  remove_raises : option exn          (* os.remove(seg_file_path) *)
}.

(** [tempfile.NamedTemporaryFile(delete=False)] picks a name that does
    not exist yet. *)
Definition fresh (fs : list nat) : nat := S (list_max fs).

(** [os.path.exists] *)
Definition path_exists (p : nat) (w : world) : bool :=
  existsb (Nat.eqb p) (files w).

(** [os.remove] *)
Definition remove_file (p : nat) (w : world) : world :=
  mkWorld (List.filter (fun q => negb (Nat.eqb p q)) (files w)) (console w).

Definition create_file (p : nat) (w : world) : world :=
  mkWorld (p :: files w) (console w).

Definition put (m : console_msg) (w : world) : world :=
  mkWorld (files w) (console w ++ [m]).

(** [SoftWhisper.transcribe_segment].  Slicing, the export and the model
    call sit in [try] blocks; creating the temporary file and removing it
    do not, so an error of theirs leaves the function. *)
Definition transcribe_segment (e : env) (segment : Segment) (w : world)
  : (exn + pystr) * world :=
  if stop_is_set e
  then (inl (Exception (cp "Transcription stopped by user.")), w)
  else
    match slice_raises e with
    | Some ex => (inr [], put (ErrExtracting ex) w)
    | None =>
        (* with tempfile.NamedTemporaryFile(suffix=".wav", delete=False) *)
        match tempfile_raises e with
        | Some ex => (inl ex, w)
        | None =>
            let seg_file := fresh (files w) in
            let w1 := create_file seg_file w in
            match export_raises e with
            | Some ex => (inr [], put (ErrExporting ex) w1)
            | None =>
                let seg_file_path := seg_file in
                let w2 := put (Exported segment seg_file_path) w1 in
                (* try: with self.model_lock: ... *)
                let '(segment_text, w3) :=
                  match model_result e with
                  | inr result =>
                      let segment_text :=
                        strip (match result with
                               | Some t => t
                               | None => []
                               end) in
                      (segment_text,
                       put (Transcribed segment segment_text) w2)
                  | inl ex => ([], put (ErrTranscribing ex) w2)
                  end in
                (* finally *)
                if path_exists seg_file_path w3
                then
                  match remove_raises e with
                  | Some ex => (inl ex, w3)
                  | None =>
                      (inr segment_text,
                       put (Deleted seg_file_path)
                           (remove_file seg_file_path w3))
                  end
                else (inr segment_text, w3)
            end
        end
    end.

End Transcriber.

(* ================================================================== *)
(** * Transcription orchestrator: [transcribe_file] *)
(* ================================================================== *)

(** The places where the coordinating thread reads
    [transcription_stop_event.is_set()]. *)
Inductive checkpoint : Type :=
| AfterDiarization              (* after the diarization pipeline returned *)
| BeforeLoop                    (* "before proceeding" to the worker pool *)
| AtCompletion (k : nat)        (* top of the loop body for the [k]-th
                                   completed future, counted from 0 *)
| AfterLoop.                    (* after the [with ThreadPoolExecutor] block *)

(** Observable effects of the coordinating thread, in program order. *)
Inductive event : Type :=
| Progress (pct : Z) (status : pystr)    (* progress_queue.put((pct, status)) *)
| ConsoleLine (content : pystr)          (* console_queue.put(...) *)
| StopRead (ck : checkpoint) (b : bool)  (* is_set() returned [b] at [ck] *)
| StopCleared                            (* transcription_stop_event.clear() *)
| Display (text : pystr)                 (* root.after(0, display_transcription, text) *)
| SaveSrt (segments : list TSegment)     (* root.after(0, save_srt_file, segments, path) *)
| ShowError (msg : pystr)                (* messagebox.showerror *)
| RemoveTrimmedFile                      (* os.remove(temp_file_path) *)
| EnableButtons.                         (* root.after(0, enable_buttons) *)

(** Everything the modelled part of a run depends on.  The model starts
    where the trimmed audio has been exported ([temp_file_path] exists). *)
Record run_input : Type := mkRun {
  start_sec : Z;                           (* parse_time(start_time) *)
  trimmed_duration : Q;                    (* len(trimmed_audio) / 1000 *)
  diarization : option (exn + list Turn);  (* [None]: speaker identification
                                              off or no pipeline; otherwise
                                              what the pipeline call does *)
  srt_var : bool;
  num_threads : Z;
  is_set : checkpoint -> bool;             (* the stop flag, as read *)
  completion : list nat;                   (* segment indices in the order
                                              [as_completed] yields them *)
  result_of : nat -> exn + pystr           (* [future.result()] of the task
                                              of the segment with that index *)
}.

(** Computations of the coordinating thread: they extend the trace and
    return or raise. *)
Definition M (A : Type) : Type := list event -> (exn + A) * list event.

Definition ret (A : Type) (a : A) : M A := fun tr => (inr a, tr).
Definition raise (A : Type) (e : exn) : M A := fun tr => (inl e, tr).
Definition emit (ev : event) : M unit := fun tr => (inr tt, tr ++ [ev]).
Definition bind (A B : Type) (m : M A) (f : A -> M B) : M B :=
  fun tr =>
    match m tr with
    | (inr a, tr') => f a tr'
    | (inl e, tr') => (inl e, tr')
    end.
Definition lift (A : Type) (r : exn + A) : M A :=
  match r with
  | inr a => ret a
  | inl e => raise A e
  end.

Notation "x <- m ;; f" := (bind m (fun x => f))
  (at level 61, m at next level, right associativity).
Notation "m ;;; f" := (bind m (fun _ => f))
  (at level 61, right associativity).

Definition STOPPED : pystr := cp "Transcription stopped by user.".

(** [if self.transcription_stop_event.is_set(): raise Exception(...)] *)
Definition check_stop (inp : run_input) (ck : checkpoint) : M unit :=
  emit (StopRead ck (is_set inp ck)) ;;;
  if is_set inp ck then raise unit (Exception STOPPED) else ret tt.

(** [len(l)] as a Python int. *)
Definition len (A : Type) (l : list A) : Z := Z.of_nat (length l).

(** The planning step of [transcribe_file]. *)
Definition plan (inp : run_input) : M (list Segment) :=
  match diarization inp with
  | Some pipeline_result =>
      emit (Progress 10 (cp "Performing speaker diarization...")) ;;;
      turns <- lift pipeline_result ;;
      check_stop inp AfterDiarization ;;;
      speaker_segments <-
        lift (combine_segments MAX_CHUNK_DURATION (label_turns turns)) ;;
      emit (ConsoleLine
              (cp "Number of combined diarization segments: "
                 ++ str_of_int (len speaker_segments) ++ [LF])) ;;;
      ret speaker_segments
  | None =>
      emit (Progress 10 (cp "Dividing audio into chunks...")) ;;;
      speaker_segments <-
        lift (fixed_grid MAX_CHUNK_DURATION (trimmed_duration inp)) ;;
      emit (ConsoleLine
              (cp "Number of transcription segments: "
                 ++ str_of_int (len speaker_segments) ++ [LF])) ;;;
      ret speaker_segments
  end.

(** The two accumulators of the completion loop. *)
Record loop_state : Type := mkLoop {
  transcription : pystr;
  all_segments : list TSegment
}.

(** [int(20 + 80 * completed / total)] *)
Definition progress_percentage (completed total : Z) : Z :=
  int_of_float (20 + 80 * inject_Z completed / inject_Z total)%Q.

(** The [try] block of the loop body: the accumulators after the result
    of the future has been looked at. *)
Definition collect (inp : run_input) (segment : Segment)
           (r : exn + pystr) (st : loop_state) : M loop_state :=
  match r with
  | inr segment_text =>
      match segment_text with
      | [] => ret st
      | _ :: _ =>
          ret (mkLoop
                 (transcription st ++ speaker segment ++ cp ": "
                    ++ segment_text ++ [LF])
                 (all_segments st ++
                    [mkTSegment (speaker segment)
                       (seg_start segment + inject_Z (start_sec inp))%Q
                       (seg_end segment + inject_Z (start_sec inp))%Q
                       segment_text]))
      end
  | inl e =>
      emit (ConsoleLine
              (cp "Error transcribing segment: " ++ str_of_exn e ++ [LF])) ;;;
      ret st
  end.

(** [f"Transcribed {completed} of {total} segments..."] *)
Definition transcribed_status (completed total : Z) : pystr :=
  cp "Transcribed " ++ str_of_int completed ++ cp " of "
    ++ str_of_int total ++ cp " segments...".

(** Body of [for future in as_completed(future_to_segment)], for the
    [k]-th yielded future, which belongs to the segment of index [i]. *)
Definition loop_body (inp : run_input) (speaker_segments : list Segment)
           (k i : nat) (st : loop_state) : M loop_state :=
  check_stop inp (AtCompletion k) ;;;
  match nth_error speaker_segments i with
  | None => ret st
  | Some segment =>
      st' <- collect inp segment (result_of inp i) st ;;
      let completed := len (all_segments st') in
      emit (Progress
              (progress_percentage completed (len speaker_segments))
              (transcribed_status completed (len speaker_segments))) ;;;
      ret st'
  end.

(** The loop over the completed futures; [k] counts the iterations. *)
Fixpoint completion_loop (inp : run_input) (speaker_segments : list Segment)
         (k : nat) (order : list nat) (st : loop_state) : M loop_state :=
  match order with
  | [] => ret st
  | i :: order' =>
      st' <- loop_body inp speaker_segments k i st ;;
      completion_loop inp speaker_segments (S k) order' st'
  end.

(** The [try] block of [transcribe_file], from the planning step on. *)
Definition run_body (inp : run_input) : M unit :=
  speaker_segments <- plan inp ;;
  check_stop inp BeforeLoop ;;;
  emit (Progress 20
          (cp "Transcribing " ++ str_of_int (len speaker_segments)
             ++ cp " segments with " ++ str_of_int (num_threads inp)
             ++ cp " threads...")) ;;;
  st <- completion_loop inp speaker_segments 0 (completion inp)
          (mkLoop [] []) ;;
  emit (StopRead AfterLoop (is_set inp AfterLoop)) ;;;
  if is_set inp AfterLoop
  then
    emit (Progress 0 (cp "Transcription stopped.")) ;;;
    emit StopCleared
  else
    emit (Progress 100 (cp "Transcription completed.")) ;;;
    if srt_var inp
    then
      let srt_text := generate_srt_text_with_speakers (all_segments st) in
      emit (Display srt_text) ;;;
      emit (SaveSrt (all_segments st))
    else
      emit (Display (strip (transcription st))).

(** The [except Exception] handler of [transcribe_file]. *)
Definition handler (e : exn) : list event :=
  if pystr_eqb (str_of_exn e) STOPPED
  then [Progress 0 (cp "Transcription stopped.")]
  else [Progress 0 (cp "Error during transcription: " ++ str_of_exn e);
        ShowError
          (cp "Failed to transcribe the audio/video file." ++ [LF]
             ++ cp "Error: " ++ str_of_exn e)].

(** [SoftWhisper.transcribe_file]: the trace of a whole run, with the
    [except] and [finally] blocks. *)
Definition transcribe_file (inp : run_input) : list event :=
  let '(r, tr) := run_body inp [] in
  let tr' :=
    match r with
    | inr _ => tr
    | inl e => tr ++ handler e
    end in
  tr' ++ [RemoveTrimmedFile; EnableButtons].

(** ** Reading a trace *)

Definition progress_of (ev : event) : option (Z * pystr) :=
  match ev with
  | Progress p s => Some (p, s)
  | _ => None
  end.

(** The progress events of a trace, in order. *)
Fixpoint progress_events (tr : list event) : list (Z * pystr) :=
  match tr with
  | [] => []
  | ev :: tr' =>
      match progress_of ev with
      | Some p => p :: progress_events tr'
      | None => progress_events tr'
      end
  end.

(** The event hands a transcript or subtitle text over for display or
    saving. *)
Definition is_output (ev : event) : bool :=
  match ev with
  | Display _ | SaveSrt _ => true
  | _ => false
  end.

(** The event is a read of the stop flag that found it set. *)
Definition is_stop_read (ev : event) : bool :=
  match ev with
  | StopRead _ true => true
  | _ => false
  end.

(** No transcript or subtitle text has been handed over. *)
Definition silent (tr : list event) : Prop :=
  forallb (fun ev => negb (is_output ev)) tr = true.

(** The stop flag has not been read as set. *)
Definition unstopped (tr : list event) : Prop :=
  forallb (fun ev => negb (is_stop_read ev)) tr = true.

(** What holds after a step of the run that started silent and
    unstopped: it is still silent, it returns only if the flag was never
    read as set, and if the flag was read as set the exception is the
    cancellation. *)
Definition cancel_post (A : Type) (res : (exn + A) * list event) : Prop :=
  silent (snd res)
  /\ match fst res with
     | inr _ => unstopped (snd res)
     | inl e => unstopped (snd res) \/ e = Exception STOPPED
     end.

Definition cancel_safe (A : Type) (m : M A) : Prop :=
  forall tr, silent tr -> unstopped tr -> cancel_post (m tr).

(** What holds at the end of the [try] block: either the flag was never
    read as set, or nothing was handed over and the run is cancelled, by
    the exception or by the last progress report. *)
Definition final_post (res : (exn + unit) * list event) : Prop :=
  unstopped (snd res)
  \/ (silent (snd res)
      /\ match fst res with
         | inl e => e = Exception STOPPED
         | inr _ =>
             last (progress_events (snd res)) (100%Z, [])
             = (0%Z, cp "Transcription stopped.")
         end).

(** The stop flag was read as set at some checkpoint. *)
Definition stop_observed (tr : list event) : Prop :=
  exists ck, In (StopRead ck true) tr.


(** The transcribed segment made from the segment of index [i], when its
    text is not empty. *)
Definition transcribed (inp : run_input) (speaker_segments : list Segment)
           (i : nat) : list TSegment :=
  match nth_error speaker_segments i, result_of inp i with
  | Some segment, inr (c :: text) =>
      [mkTSegment (speaker segment)
         (seg_start segment + inject_Z (start_sec inp))%Q
         (seg_end segment + inject_Z (start_sec inp))%Q (c :: text)]
  | _, _ => []
  end.

(** The transcript line made from the segment of index [i]. *)
Definition transcript_line (inp : run_input)
           (speaker_segments : list Segment) (i : nat) : pystr :=
  match nth_error speaker_segments i, result_of inp i with
  | Some segment, inr (c :: text) =>
      speaker segment ++ cp ": " ++ (c :: text) ++ [LF]
  | _, _ => []
  end.

(** The percentages the completion loop reports, one per completed
    task. *)
Definition loop_reports (inp : run_input) (speaker_segments : list Segment)
  : list Z :=
  List.map fst
    (progress_events
       (snd (completion_loop inp speaker_segments 0 (completion inp)
               (mkLoop [] []) []))).

(** The progress formula as the specification words it:
    [10% + 80% * completed / total], every completed task counted. *)
Definition spec_progress (completed total : Z) : Z :=
  (10 + 80 * completed / total)%Z.

(** ** Example runs *)

(** A 125-second file without speaker identification: three segments.
    The texts of the three tasks, the order in which they complete, the
    subtitle switch and the stop flag are left open. *)
Definition example_segments : list Segment :=
  [mkSegment (cp "Speaker 1") 0 60;
   mkSegment (cp "Speaker 1") 60 120;
   mkSegment (cp "Speaker 1") 120 125].

Definition example_run (srt : bool) (stop : checkpoint -> bool)
           (order : list nat) (texts : list pystr) : run_input :=
  mkRun 0 125 None srt 4 stop order
        (fun i => inr (nth i texts [])).

Definition never : checkpoint -> bool := fun _ => false.

(** The stop flag is found set when the second future completes. *)
Definition at_second_completion (ck : checkpoint) : bool :=
  match ck with
  | AtCompletion 1 => true
  | _ => false
  end.

(* ================================================================== *)
(** * The worker pool running [transcribe_segment] *)
(* ================================================================== *)

Module Pool.

(** Where a task stands in [transcribe_segment]. *)
Inductive pc : Type :=
| Queued        (* submitted, no pool thread has picked it up yet *)
| AtEntry       (* about to read the stop flag *)
| Extracting    (* self.trimmed_audio[a:b] *)
| Exporting     (* inside the NamedTemporaryFile block: export(...) *)
| Waiting       (* at [with self.model_lock], lock not yet acquired *)
| InModel       (* inside self.model.transcribe(...) *)
| Finishing     (* past the [with] block: strip, logging, [finally] *)
| Finished.     (* returned or raised *)

(** How the operation a task is about to perform turns out. *)
Inductive outcome : Type :=
| Succeeds
| Fails.        (* the stop flag is set / the operation raises *)

(** The pool: who holds [self.model_lock] ([threading.Lock]) and where
    each submitted task stands. *)
Record state : Type := mkState {
  lock : option nat;
  tasks : list pc
}.

Definition pc_eqb (a b : pc) : bool :=
  match a, b with
  | Queued, Queued | AtEntry, AtEntry | Extracting, Extracting
  | Exporting, Exporting | Waiting, Waiting | InModel, InModel
  | Finishing, Finishing | Finished, Finished => true
  | _, _ => false
  end.

(** The task occupies a pool thread. *)
Definition running (p : pc) : bool :=
  match p with
  | Queued | Finished => false
  | _ => true
  end.

Fixpoint update (A : Type) (l : list A) (i : nat) (v : A) : list A :=
  match l, i with
  | [], _ => []
  | _ :: l', O => v :: l'
  | a :: l', S i' => a :: update l' i' v
  end.

Definition count (f : pc -> bool) (l : list pc) : nat :=
  length (List.filter f l).

(** One atomic step of task [i] in a pool of [K] threads; [None] when
    the task cannot move (no free thread, lock held by another task,
    task finished, no such task). *)
Definition step (K : nat) (st : state) (i : nat) (o : outcome)
  : option state :=
  match nth_error (tasks st) i with
  | None => None
  | Some p =>
      let goto q := Some (mkState (lock st) (update (tasks st) i q)) in
      match p with
      | Queued =>
          if Nat.ltb (count running (tasks st)) K then goto AtEntry
          else None
      | AtEntry =>
          match o with Succeeds => goto Extracting | Fails => goto Finished end
      | Extracting =>
          match o with Succeeds => goto Exporting | Fails => goto Finished end
      | Exporting =>
          match o with Succeeds => goto Waiting | Fails => goto Finished end
      | Waiting =>
          (* Lock.acquire(): proceeds only when the lock is free *)
          match lock st with
          | None => Some (mkState (Some i) (update (tasks st) i InModel))
          | Some _ => None
          end
      | InModel =>
          (* the call returns or raises; leaving [with] releases the lock *)
          Some (mkState None (update (tasks st) i Finishing))
      | Finishing => goto Finished
      | Finished => None
      end
  end.

(** A schedule: which task moves next, and how its operation turns out. *)
Definition schedule := list (nat * outcome).

Fixpoint exec (K : nat) (st : state) (sch : schedule) : option state :=
  match sch with
  | [] => Some st
  | (i, o) :: sch' =>
      match step K st i o with
      | Some st' => exec K st' sch'
      | None => None
      end
  end.

(** [N] tasks submitted, nothing started, lock free. *)
Definition init (N : nat) : state := mkState None (repeat Queued N).

(** Task [i] is executing the model. *)
Definition in_model (st : state) (i : nat) : Prop :=
  nth_error (tasks st) i = Some InModel.

(** The invariant of the pool: whoever is inside the model holds the
    lock. *)
Definition lock_held_in_model (st : state) : Prop :=
  forall i, in_model st i -> lock st = Some i.

(** Number of tasks inside [model.transcribe]. *)
Definition holders (st : state) : nat := count (pc_eqb InModel) (tasks st).

End Pool.

(* ================================================================== *)
(** * Specification-side definitions for [parse_time] *)
(* ================================================================== *)

(** A one- or two-character field of a time string. *)
Inductive field : Type :=
| F1 (d : N)
| F2 (a d : N).

Definition chars (f : field) : pystr :=
  match f with
  | F1 d => [d]
  | F2 a d => [a; d]
  end.

Section Shapes.

Variable decimal : N -> option Z.

Definition is_decimal (c : N) : Prop := exists v, decimal c = Some v.

(** One or two decimal digits: what [\d{1,2}] captures. *)
Definition hours_field (f : field) : Prop :=
  match f with
  | F1 d => is_decimal d
  | F2 a d => is_decimal a /\ is_decimal d
  end.

(** One decimal digit, or one of ['0'..'5'] followed by a decimal digit:
    what [[0-5]?\d] captures. *)
Definition sixty_field (f : field) : Prop :=
  match f with
  | F1 d => is_decimal d
  | F2 a d => (48 <= a <= 53)%N /\ is_decimal d
  end.

(** Every character of the field is a decimal digit. *)
Definition all_decimal (f : field) : Prop :=
  match f with
  | F1 d => is_decimal d
  | F2 a d => is_decimal a /\ is_decimal d
  end.

(** The value [int] gives a field. *)
Definition field_value (f : field) : Z :=
  match int_digits decimal 0 (chars f) with
  | Some v => v
  | None => 0
  end.

(** The strings [parse_time] accepts, with the three values read. *)
Definition accepted (s : pystr) (h m sec : Z) : Prop :=
  exists (fh fm fs : field) (newline : bool),
    s = chars fh ++ [COLON] ++ chars fm ++ [COLON] ++ chars fs
          ++ (if newline then [LF] else [])
    /\ hours_field fh /\ sixty_field fm /\ sixty_field fs
    /\ h = field_value fh /\ m = field_value fm /\ sec = field_value fs.

(** The strings [parse_time] is written for, with the three values
    read: an hours field, a minutes field and a seconds field separated by
    colons. *)
Definition time_fields (s : pystr) (h m sec : Z) : Prop :=
  exists fh fm fs : field,
    s = chars fh ++ [COLON] ++ chars fm ++ [COLON] ++ chars fs
    /\ hours_field fh /\ sixty_field fm /\ sixty_field fs
    /\ h = field_value fh /\ m = field_value fm /\ sec = field_value fs.

End Shapes.

(** The string ends in a newline. *)
Definition ends_in_newline (s : pystr) : Prop := exists s', s = s' ++ [LF].

(** The shape the specification words: [H:MM:SS] or [HH:MM:SS] over
    ASCII digits, minutes and seconds in [[0,59]]. *)
Definition ascii_digit (c : N) : bool := ((48 <=? c) && (c <=? 57))%N.

Definition spec_mmss (a d : N) : bool :=
  ((48 <=? a) && (a <=? 53))%N && ascii_digit d.

Definition spec_time_form (s : pystr) : bool :=
  match s with
  | [h; c1; m1; m2; c2; s1; s2] =>
      ascii_digit h && (c1 =? COLON)%N && spec_mmss m1 m2
        && (c2 =? COLON)%N && spec_mmss s1 s2
  | [h1; h2; c1; m1; m2; c2; s1; s2] =>
      ascii_digit h1 && ascii_digit h2 && (c1 =? COLON)%N && spec_mmss m1 m2
        && (c2 =? COLON)%N && spec_mmss s1 s2
  | _ => false
  end.


(* ================================================================== *)
(** * Further functions of the program *)
(* ================================================================== *)

(** ** Clock format and range validation *)

(** [SoftWhisper.format_time] on an [int] number of seconds (its callers
    pass [get_time() // 1000] and [length // 1000]): [//] and [%] on ints
    are floor division and its remainder. *)
Definition format_time (seconds : Z) : pystr :=
  let hours := (seconds / 3600)%Z in
  let minutes := ((seconds mod 3600) / 60)%Z in
  let secs := (seconds mod 60)%Z in
  format_0w 2 hours ++ [COLON] ++ format_0w 2 minutes ++ [COLON]
    ++ format_0w 2 secs.

Section Preparing.

Variable decimal : N -> option Z.

(** The time-range checks at the head of [transcribe_file], from reading
    the two entry fields to the test against the audio duration.
    [audio] is what [AudioSegment.from_file] does: it raises, or gives an
    audio of that many milliseconds ([len(audio)]).  The result is
    [(start_sec, end_sec)]. *)
Definition validate_range (start_field end_field : pystr) (audio : exn + Z)
  : exn + (Z * Q) :=
  let start_time := strip start_field in
  let end_time := strip end_field in
  match parse_time decimal start_time with
  | inl e => inl e
  | inr start_sec =>
      if (start_sec <? 0)%Z
      then inl (ValueError (cp "Start time cannot be negative."))
      else
        match audio with
        | inl e => inl e
        | inr audio_ms =>
            let audio_length := (inject_Z audio_ms / 1000)%Q in
            let checked_end : exn + Q :=
              match end_time with
              | [] => inr audio_length
              | _ :: _ =>
                  match parse_time decimal end_time with
                  | inl e => inl e
                  | inr end_sec =>
                      if (end_sec <=? start_sec)%Z
                      then inl (ValueError
                                  (cp "End time must be greater than start time."))
                      else if Qle_bool (inject_Z end_sec) audio_length
                           then inr (inject_Z end_sec)
                           else inr audio_length
                  end
              end in
            match checked_end with
            | inl e => inl e
            | inr end_sec =>
                if Qle_bool audio_length (inject_Z start_sec)
                then inl (ValueError (cp "Start time exceeds audio duration."))
                else inr (start_sec, end_sec)
            end
        end
  end.

End Preparing.

(** ** Sizes *)

(** [max(1, int(num_cores * 0.8))] in [SoftWhisper.__init__]. *)
Definition num_threads_of (num_cores : Z) : Z :=
  Z.max 1 (int_of_float (inject_Z num_cores * (8 # 10))%Q).

(** [CustomProgressBar.set_progress]: the width of the filled rectangle,
    [int(self.width * percentage / 100)]. *)
Definition fill_width (width percentage : Z) : Z :=
  int_of_float (inject_Z (width * percentage) / 100)%Q.

(** The name [select_file] puts in the status line: names longer than 50
    characters are cut to 47 and an ellipsis. *)
Definition shown_filename (filename : pystr) : pystr :=
  if (50 <? len filename)%Z then firstn 47 filename ++ cp "..."
  else filename.

(** ** Speaker labels *)

(** The raw labels of the turns in order of first appearance, after the
    ones already [seen]. *)
Fixpoint first_seen (seen : list pystr) (turns : list Turn) : list pystr :=
  match turns with
  | [] => seen
  | t :: rest =>
      if existsb (pystr_eqb (turn_label t)) seen
      then first_seen seen rest
      else first_seen (seen ++ [turn_label t]) rest
  end.

Fixpoint index_of (k : pystr) (l : list pystr) : option nat :=
  match l with
  | [] => None
  | k' :: l' =>
      if pystr_eqb k' k then Some 0%nat
      else match index_of k l' with
           | Some i => Some (S i)
           | None => None
           end
  end.

(** ["Speaker n"] where [n] counts from one the position of [raw] in
    [seen]. *)
Definition display_label (seen : list pystr) (raw : pystr) : pystr :=
  match index_of raw seen with
  | Some i => cp "Speaker " ++ str_of_int (Z.of_nat i + 1)
  | None => []
  end.

(** The invariant of the labelling loop: the map lists the raw labels
    seen so far, each with the label of its rank, and the counter is one
    more than their number. *)
Definition labels_ok (st : label_state) (seen : list pystr) : Prop :=
  NoDup seen
  /\ ls_map st = List.map (fun raw => (raw, display_label seen raw)) seen
  /\ ls_count st = (Z.of_nat (length seen) + 1)%Z.

(** ** Console redirection *)

Module Console.

Definition CR : N := 13.

(** An item on the console queue: [{'type': ..., 'content': ...}]. *)
Inductive item : Type :=
| Append (content : pystr)
| Overwrite (content : pystr).

Definition content_of (i : item) : pystr :=
  match i with
  | Append c => c
  | Overwrite c => c
  end.

Definition is_append (i : item) : bool :=
  match i with
  | Append _ => true
  | Overwrite _ => false
  end.

(** A [ConsoleRedirector]: its buffer, and the queue it writes to. *)
Record redirector : Type := mkRedirector {
  buffer : pystr;
  queue : list item
}.

(** [s.split(sep, 1)] when [sep] occurs in [s]: the text before the first
    occurrence and the text after it; [None] when [sep not in s]. *)
Fixpoint split_once (sep : N) (s : pystr) : option (pystr * pystr) :=
  match s with
  | [] => None
  | c :: s' =>
      if (c =? sep)%N then Some ([], s')
      else match split_once sep s' with
           | Some (before, after) => Some (c :: before, after)
           | None => None
           end
  end.

(** The [while] loop of [write].  Every iteration removes a separator
    from the buffer, so [fuel] equal to the length of the buffer is never
    used up. *)
Fixpoint write_loop (fuel : nat) (buf : pystr) (q : list item)
  : pystr * list item :=
  match fuel with
  | O => (buf, q)
  | S fuel' =>
      match split_once CR buf with
      | Some (line, rest) => write_loop fuel' rest (q ++ [Overwrite rest])
      | None =>
          match split_once LF buf with
          | Some (line, rest) =>
              write_loop fuel' rest (q ++ [Append (line ++ [LF])])
          | None => (buf, q)
          end
      end
  end.

(** [ConsoleRedirector.write] *)
Definition write (message : pystr) (r : redirector) : redirector :=
  let buf := buffer r ++ message in
  let '(buf', q') := write_loop (length buf) buf (queue r) in
  mkRedirector buf' q'.

(** [ConsoleRedirector.flush] *)
Definition flush (r : redirector) : redirector :=
  match buffer r with
  | [] => r
  | _ :: _ => mkRedirector [] (queue r ++ [Append (buffer r)])
  end.

(** The text of the appended items, in order. *)
Definition appended (q : list item) : pystr :=
  concat (List.map content_of (List.filter is_append q)).

(** The text after each carriage return of [s], in order. *)
Fixpoint after_each_cr (s : pystr) : list pystr :=
  match s with
  | [] => []
  | c :: s' =>
      if (c =? CR)%N then s' :: after_each_cr s' else after_each_cr s'
  end.

(** The text after the last carriage return of [s] ([s] itself when it
    has none). *)
Definition after_last_cr (s : pystr) : pystr :=
  last (after_each_cr s) s.

(** The complete lines of [s], each with its newline, and the unfinished
    line after the last newline. *)
Fixpoint split_lines (s : pystr) : list pystr * pystr :=
  match s with
  | [] => ([], [])
  | c :: s' =>
      let '(ls, p) := split_lines s' in
      if (c =? LF)%N then ([LF] :: ls, p)
      else match ls with
           | [] => ([], c :: p)
           | l :: ls' => ((c :: l) :: ls', p)
           end
  end.

Definition complete_lines (s : pystr) : list pystr := fst (split_lines s).

Definition unfinished_line (s : pystr) : pystr := snd (split_lines s).

End Console.

(** ** The pool, continued *)

Module PoolProgress.
Import Pool.

(** Steps a task can still take, at most. *)
Definition remaining (p : pc) : nat :=
  match p with
  | Queued => 7
  | AtEntry => 6
  | Extracting => 5
  | Exporting => 4
  | Waiting => 3
  | InModel => 2
  | Finishing => 1
  | Finished => 0
  end.

Definition work (st : state) : nat :=
  list_sum (List.map remaining (tasks st)).

(** The lock is held only by a task that is inside the model. *)
Definition holder_in_model (st : state) : Prop :=
  forall i, lock st = Some i -> in_model st i.

(** Some task has not finished. *)
Definition unfinished (st : state) : Prop :=
  exists i p, nth_error (tasks st) i = Some p /\ p <> Finished.

End PoolProgress.

(** ** The orchestrator, continued *)

(** The percentages of the progress events of a trace. *)
Definition progress_values (tr : list event) : list Z :=
  List.map fst (progress_events tr).

(** [as_completed] yields every submitted future once: whenever planning
    gives [n] segments, the completion order is a permutation of their
    indices. *)
Definition well_scheduled (inp : run_input) : Prop :=
  forall segs tr0,
    plan inp [] = (inr segs, tr0) ->
    Permutation (completion inp) (seq 0 (length segs)).

(** The loop invariant behind the progress reports: at most [k] results
    collected, the percentages reported so far never went down, and each
    is at least 10 and at most the one for the number collected. *)
Definition reports_ok (total : Z) (k : nat) (st : loop_state)
           (tr : list event) : Prop :=
  (len (all_segments st) <= Z.of_nat k)%Z
  /\ Sorted Z.le (progress_values tr)
  /\ Forall (fun p => 10 <= p
                      <= progress_percentage (len (all_segments st)) total)%Z
            (progress_values tr).

(** The event is the error box. *)
Definition is_error_box (ev : event) : bool :=
  match ev with
  | ShowError _ => true
  | _ => false
  end.

(** No error box has been shown. *)
Definition boxless (tr : list event) : Prop :=
  existsb is_error_box tr = false.

(** The computation shows no error box, and raises nothing but the
    cancellation. *)
Definition stops_only (A : Type) (m : M A) : Prop :=
  forall tr, boxless tr ->
    boxless (snd (m tr))
    /\ match fst (m tr) with
       | inl e => e = Exception STOPPED
       | inr _ => True
       end.

(* ================================================================== *)
(** * Properties of [parse_time] *)
(* ================================================================== *)

Unset Implicit Arguments.

Section ParseTimeFacts.

Variable decimal : N -> option Z.

(** Facts about the Unicode digit table that the proofs rely on: the
    ASCII digits have their usual values, digit values lie in [0..9], and
    neither [':'] nor the newline is a decimal digit. *)
Hypothesis decimal_ascii :
  forall c, (48 <= c <= 57)%N -> decimal c = Some (Z.of_N c - 48)%Z.
Hypothesis decimal_value :
  forall c v, decimal c = Some v -> (0 <= v <= 9)%Z.
Hypothesis colon_not_decimal : decimal COLON = None.
Hypothesis newline_not_decimal : decimal LF = None.

Local Arguments Nat.sub : simpl never.


Lemma hours_all_decimal f : hours_field decimal f -> all_decimal decimal f.
Proof. destruct f; simpl; auto. Qed.

Lemma sixty_all_decimal f : sixty_field decimal f -> all_decimal decimal f.
Proof.
  destruct f; simpl; auto.
  intros [Ha Hd]; split; auto.
  exists (Z.of_N a - 48)%Z. now apply decimal_ascii; lia.
Qed.

Lemma py_int_field f :
  all_decimal decimal f -> py_int decimal (chars f) = inr (field_value decimal f).
Proof.
  unfold field_value, py_int.
  destruct f as [d | a d]; simpl.
  - intros [v Hv]. now rewrite Hv.
  - intros [[va Ha] [vd Hd]]. now rewrite Ha, Hd.
Qed.

Lemma sub_1 pos : S pos - pos = 1.
Proof. lia. Qed.

Lemma sub_2 pos : S (S pos) - pos = 2.
Proof. lia. Qed.

(** What a successful match of [\d{1,2}] followed by [k] looks like. *)
Lemma hours_sound pos s caps (k : cont) r :
  rmatch decimal hours_group pos s caps k = Some r ->
  exists f rest,
    hours_field decimal f /\ s = chars f ++ rest
    /\ k (length (chars f) + pos) rest (caps ++ [chars f]) = Some r.
Proof.
  simpl. destruct s as [| c1 s]; [discriminate |].
  destruct (decimal c1) as [v1 |] eqn:E1; [| discriminate].
  destruct s as [| c2 s].
  - rewrite sub_1. intros H. exists (F1 c1), []. simpl.
    unfold is_decimal. eauto 6.
  - destruct (decimal c2) as [v2 |] eqn:E2.
    + rewrite sub_1, sub_2. simpl.
      destruct (k (S (S pos)) s (caps ++ [[c1; c2]])) eqn:Ek.
      * intros H; inversion H; subst.
        exists (F2 c1 c2), s. simpl. unfold is_decimal. eauto 8.
      * intros H. exists (F1 c1), (c2 :: s). simpl.
        unfold is_decimal. eauto 6.
    + rewrite sub_1. simpl. intros H. exists (F1 c1), (c2 :: s). simpl.
      unfold is_decimal. eauto 6.
Qed.

(** When [\d{1,2}] followed by [k] fails, [k] fails after every way of
    reading one or two digits. *)
Lemma hours_none pos caps (k : cont) f rest :
  rmatch decimal hours_group pos (chars f ++ rest) caps k = None ->
  hours_field decimal f ->
  k (length (chars f) + pos) rest (caps ++ [chars f]) = None.
Proof.
  destruct f as [d | a d]; simpl.
  - intros H [v Hv]. rewrite Hv in H.
    destruct rest as [| c2 rest].
    + now rewrite sub_1 in H.
    + destruct (decimal c2).
      * rewrite sub_1, sub_2 in H. simpl in H.
        destruct (k (S (S pos)) rest (caps ++ [[d; c2]])); [discriminate | exact H].
      * now rewrite sub_1 in H.
  - intros H [[va Ha] [vd Hd]]. rewrite Ha, Hd in H.
    rewrite sub_2 in H. simpl in H.
    destruct (k (S (S pos)) rest (caps ++ [[a; d]])) eqn:Ek;
      [discriminate | exact Ek].
Qed.

(** What a successful match of [[0-5]?\d] followed by [k] looks like. *)
Lemma sixty_sound pos s caps (k : cont) r :
  rmatch decimal sixty_group pos s caps k = Some r ->
  exists f rest,
    sixty_field decimal f /\ s = chars f ++ rest
    /\ k (length (chars f) + pos) rest (caps ++ [chars f]) = Some r.
Proof.
  simpl. destruct s as [| c1 s]; [discriminate |].
  assert (Hsingle :
    match decimal c1 with
    | Some _ => k (S pos) s (caps ++ [firstn (S pos - pos) (c1 :: s)])
    | None => None
    end = Some r ->
    exists f rest, sixty_field decimal f /\ c1 :: s = chars f ++ rest
      /\ k (length (chars f) + pos) rest (caps ++ [chars f]) = Some r).
  { destruct (decimal c1) as [v1 |] eqn:E1; [| discriminate].
    rewrite sub_1. simpl. intros H. exists (F1 c1), s. simpl.
    unfold is_decimal. eauto 6. }
  destruct ((48 <=? c1)%N && (c1 <=? 53)%N) eqn:Er; [| exact Hsingle].
  destruct s as [| c2 s]; [exact Hsingle |].
  destruct (decimal c2) as [v2 |] eqn:E2; [| exact Hsingle].
  rewrite sub_2. simpl.
  destruct (k (S (S pos)) s (caps ++ [[c1; c2]])) eqn:Ek; [| exact Hsingle].
  intros H; inversion H; subst.
  exists (F2 c1 c2), s. simpl.
  apply andb_true_iff in Er. destruct Er as [E48 E53].
  apply N.leb_le in E48. apply N.leb_le in E53.
  unfold is_decimal. eauto 8.
Qed.

Lemma sixty_none pos caps (k : cont) f rest :
  rmatch decimal sixty_group pos (chars f ++ rest) caps k = None ->
  sixty_field decimal f ->
  k (length (chars f) + pos) rest (caps ++ [chars f]) = None.
Proof.
  destruct f as [d | a d]; simpl.
  - intros H [v Hv]. rewrite Hv, sub_1 in H. simpl in H.
    destruct ((48 <=? d)%N && (d <=? 53)%N); [| exact H].
    destruct rest as [| c2 rest]; [exact H |].
    destruct (decimal c2); [| exact H].
    destruct (k (S (S pos)) rest _); [discriminate | exact H].
  - intros H [Ha [vd Hd]].
    assert (Er : ((48 <=? a)%N && (a <=? 53)%N) = true).
    { apply andb_true_iff. split; apply N.leb_le; lia. }
    rewrite Er, Hd, sub_2 in H. simpl in H.
    destruct (k (S (S pos)) rest (caps ++ [[a; d]])) eqn:Ek;
      [discriminate | exact Ek].
Qed.

Lemma time_pattern_unfold s (k : cont) :
  rmatch decimal time_pattern 0 s [] k =
  rmatch decimal hours_group 0 s []
    (fun p1 s1 c1 =>
       rmatch decimal (Chr COLON) p1 s1 c1
         (fun p2 s2 c2 =>
            rmatch decimal sixty_group p2 s2 c2
              (fun p3 s3 c3 =>
                 rmatch decimal (Chr COLON) p3 s3 c3
                   (fun p4 s4 c4 =>
                      rmatch decimal sixty_group p4 s4 c4
                        (fun p5 s5 c5 => rmatch decimal Eol p5 s5 c5 k))))).
Proof. reflexivity. Qed.

Lemma colon_sound pos s caps (k : cont) r :
  rmatch decimal (Chr COLON) pos s caps k = Some r ->
  exists rest, s = COLON :: rest /\ k (S pos) rest caps = Some r.
Proof.
  simpl. destruct s as [| c s]; [discriminate |].
  destruct (c =? COLON)%N eqn:E; [| discriminate].
  apply N.eqb_eq in E. subst. eauto.
Qed.

Lemma eol_sound pos s caps (k : cont) r :
  rmatch decimal Eol pos s caps k = Some r ->
  exists newline : bool,
    s = (if newline then [LF] else []) /\ k pos s caps = Some r.
Proof.
  simpl. destruct s as [| c s].
  - exists false. auto.
  - destruct s; [| discriminate].
    destruct (c =? LF)%N eqn:E; [| discriminate].
    apply N.eqb_eq in E. subst. exists true. auto.
Qed.

(** A successful match decomposes the string into three fields, and the
    groups are the fields. *)
Lemma re_match_sound s groups :
  re_match decimal time_pattern s = Some groups ->
  exists fh fm fs (newline : bool),
    s = chars fh ++ [COLON] ++ chars fm ++ [COLON] ++ chars fs
          ++ (if newline then [LF] else [])
    /\ hours_field decimal fh /\ sixty_field decimal fm
    /\ sixty_field decimal fs
    /\ groups = [chars fh; chars fm; chars fs].
Proof.
  unfold re_match. rewrite time_pattern_unfold. intros H.
  apply hours_sound in H. destruct H as (fh & r1 & Hh & -> & H).
  apply colon_sound in H. destruct H as (r2 & -> & H).
  apply sixty_sound in H. destruct H as (fm & r3 & Hm & -> & H).
  apply colon_sound in H. destruct H as (r4 & -> & H).
  apply sixty_sound in H. destruct H as (fs & r5 & Hs & -> & H).
  apply eol_sound in H. destruct H as (nl & -> & H).
  inversion H; subst.
  exists fh, fm, fs, nl. repeat split; auto.
Qed.

(** A string of the accepted shape is matched. *)
Lemma re_match_complete fh fm fs (newline : bool) :
  hours_field decimal fh -> sixty_field decimal fm ->
  sixty_field decimal fs ->
  re_match decimal time_pattern
    (chars fh ++ [COLON] ++ chars fm ++ [COLON] ++ chars fs
       ++ (if newline then [LF] else [])) <> None.
Proof.
  intros Hh Hm Hs Hnone. unfold re_match in Hnone.
  rewrite time_pattern_unfold in Hnone.
  apply hours_none in Hnone; auto.
  cbn [rmatch app] in Hnone. rewrite N.eqb_refl in Hnone.
  apply sixty_none in Hnone; auto.
  cbn [rmatch app] in Hnone. rewrite N.eqb_refl in Hnone.
  apply sixty_none in Hnone; auto.
  destruct newline; simpl in Hnone; discriminate.
Qed.

(** Two readings of one string agree: the separators are not digits. *)
Lemma field_then_colon_unique f f' rest rest' :
  all_decimal decimal f -> all_decimal decimal f' ->
  chars f ++ COLON :: rest = chars f' ++ COLON :: rest' ->
  f = f' /\ rest = rest'.
Proof.
  destruct f as [d | a d], f' as [d' | a' d']; simpl; intros Hf Hf' E;
    inversion E; subst; auto.
  - destruct Hf' as [_ [v Hv]]. congruence.
  - destruct Hf as [_ [v Hv]]. congruence.
Qed.

Lemma last_field_unique f f' (nl nl' : bool) :
  all_decimal decimal f -> all_decimal decimal f' ->
  chars f ++ (if nl then [LF] else []) =
  chars f' ++ (if nl' then [LF] else []) ->
  f = f'.
Proof.
  destruct f as [d | a d], f' as [d' | a' d'], nl, nl'; simpl;
    intros Hf Hf' E; inversion E; subst; auto.
  - destruct Hf' as [_ [v Hv]]. congruence.
  - destruct Hf as [_ [v Hv]]. congruence.
Qed.

Lemma accepted_unique s h m sec h' m' sec' :
  accepted decimal s h m sec -> accepted decimal s h' m' sec' ->
  h = h' /\ m = m' /\ sec = sec'.
Proof.
  intros (fh & fm & fs & nl & -> & Hh & Hm & Hs & -> & -> & ->)
         (fh' & fm' & fs' & nl' & E & Hh' & Hm' & Hs' & -> & -> & ->).
  simpl in E.
  apply field_then_colon_unique in E;
    auto using hours_all_decimal, sixty_all_decimal.
  destruct E as [<- E].
  apply field_then_colon_unique in E;
    auto using hours_all_decimal, sixty_all_decimal.
  destruct E as [<- E].
  apply last_field_unique in E;
    auto using hours_all_decimal, sixty_all_decimal.
  subst. auto.
Qed.

Lemma parse_time_of_groups s fh fm fs :
  hours_field decimal fh -> sixty_field decimal fm ->
  sixty_field decimal fs ->
  re_match decimal time_pattern s = Some [chars fh; chars fm; chars fs] ->
  parse_time decimal s =
  inr (field_value decimal fh * 3600 + field_value decimal fm * 60
       + field_value decimal fs)%Z.
Proof.
  intros Hh Hm Hs E. unfold parse_time. rewrite E.
  rewrite !py_int_field;
    auto using hours_all_decimal, sixty_all_decimal.
Qed.

(** Soundness: a value is returned only for strings of the accepted
    shape, and it is the value read off the three fields. *)
Lemma parse_time_sound s n :
  parse_time decimal s = inr n ->
  exists h m sec,
    accepted decimal s h m sec /\ n = (h * 3600 + m * 60 + sec)%Z.
Proof.
  intros H.
  destruct (re_match decimal time_pattern s) as [groups |] eqn:E.
  - destruct (re_match_sound _ _ E)
      as (fh & fm & fs & nl & Hs & Hh & Hm & Hsec & ->).
    rewrite (parse_time_of_groups _ _ _ _ Hh Hm Hsec E) in H.
    inversion H; subst n.
    exists (field_value decimal fh), (field_value decimal fm),
           (field_value decimal fs).
    split; [| reflexivity].
    exists fh, fm, fs, nl. repeat split; auto.
  - unfold parse_time in H. rewrite E in H. discriminate.
Qed.

(** Completeness: every string of the accepted shape is parsed. *)
Lemma parse_time_complete s h m sec :
  accepted decimal s h m sec ->
  parse_time decimal s = inr (h * 3600 + m * 60 + sec)%Z.
Proof.
  intros Hacc.
  destruct Hacc as (fh & fm & fs & nl & Hs & Hh & Hm & Hsec & Eh & Em & Es).
  destruct (re_match decimal time_pattern s) as [groups |] eqn:E.
  - destruct (re_match_sound _ _ E)
      as (fh' & fm' & fs' & nl' & Hs' & Hh' & Hm' & Hsec' & ->).
    rewrite (parse_time_of_groups _ _ _ _ Hh' Hm' Hsec' E).
    assert (A : accepted decimal s h m sec).
    { exists fh, fm, fs, nl. repeat split; auto. }
    assert (A' : accepted decimal s (field_value decimal fh')
                   (field_value decimal fm') (field_value decimal fs')).
    { exists fh', fm', fs', nl'. repeat split; auto. }
    destruct (accepted_unique _ _ _ _ _ _ _ A A') as (-> & -> & ->). reflexivity.
  - exfalso. subst s. exact (re_match_complete _ _ _ nl Hh Hm Hsec E).
Qed.

(** The only failure is the format error. *)
Lemma parse_time_error s e :
  parse_time decimal s = inl e ->
  e = ValueError (cp "Time must be in [hh:mm:ss] format.").
Proof.
  intros H.
  destruct (re_match decimal time_pattern s) as [groups |] eqn:E.
  - destruct (re_match_sound _ _ E)
      as (fh & fm & fs & nl & Hs & Hh & Hm & Hsec & ->).
    rewrite (parse_time_of_groups _ _ _ _ Hh Hm Hsec E) in H. discriminate.
  - unfold parse_time in H. rewrite E in H. now inversion H.
Qed.

Lemma sixty_field_value f :
  sixty_field decimal f -> (0 <= field_value decimal f <= 59)%Z.
Proof.
  unfold field_value. destruct f as [d | a d]; cbn [chars int_digits sixty_field].
  - intros [v Hv]. rewrite Hv. apply decimal_value in Hv. lia.
  - intros [Ha [v Hv]]. rewrite (decimal_ascii a) by lia. rewrite Hv.
    apply decimal_value in Hv. lia.
Qed.

Lemma hours_field_value f :
  hours_field decimal f -> (0 <= field_value decimal f <= 99)%Z.
Proof.
  unfold field_value. destruct f as [d | a d]; cbn [chars int_digits hours_field].
  - intros [v Hv]. rewrite Hv. apply decimal_value in Hv. lia.
  - intros [[va Ha] [v Hv]]. rewrite Ha, Hv.
    apply decimal_value in Hv. apply decimal_value in Ha. lia.
Qed.

(** C6 (amended).  [parse_time] returns a value on every string made of
    an hours field of one or two decimal digits, a colon, a minutes field,
    a colon and a seconds field, where a minutes or seconds field is one
    decimal digit or one of ['0'..'5'] followed by a decimal digit (so
    both lie in [0..59]); the value is
    [hours * 3600 + minutes * 60 + seconds].  Among the strings that do
    not end in a newline it returns a value on no other string, and
    whenever it fails it raises the format [ValueError].  In particular
    ["01:02:03"] gives 3723 and ["99:99:99"] is rejected. *)
Theorem parse_time_accepts_exactly (s : pystr) :
  (forall h m sec : Z,
      time_fields decimal s h m sec ->
      parse_time decimal s = inr (h * 3600 + m * 60 + sec)%Z)
  /\ (~ ends_in_newline s ->
      forall n : Z,
        parse_time decimal s = inr n ->
        exists h m sec : Z,
          time_fields decimal s h m sec
          /\ n = (h * 3600 + m * 60 + sec)%Z)
  /\ (forall h m sec : Z,
        time_fields decimal s h m sec ->
        (0 <= h <= 99 /\ 0 <= m <= 59 /\ 0 <= sec <= 59)%Z)
  /\ (forall e : exn,
        parse_time decimal s = inl e ->
        e = ValueError (cp "Time must be in [hh:mm:ss] format."))
  /\ (~ ends_in_newline s ->
      (forall h m sec : Z, ~ time_fields decimal s h m sec) ->
      parse_time decimal s =
      inl (ValueError (cp "Time must be in [hh:mm:ss] format.")))
  /\ parse_time decimal (cp "01:02:03") = inr 3723%Z
  /\ parse_time decimal (cp "99:99:99") =
     inl (ValueError (cp "Time must be in [hh:mm:ss] format.")).
Proof.
  assert (Hfields : forall n, ~ ends_in_newline s ->
            parse_time decimal s = inr n ->
            exists h m sec : Z,
              time_fields decimal s h m sec
              /\ n = (h * 3600 + m * 60 + sec)%Z).
  { intros n Hnl E. apply parse_time_sound in E.
    destruct E as (h & m & sec & Hacc & ->).
    destruct Hacc as (fh & fm & fs & nl & Hs & Hh & Hm & Hsec & Eh & Em & Es).
    destruct nl.
    - exfalso. apply Hnl.
      exists (chars fh ++ [COLON] ++ chars fm ++ [COLON] ++ chars fs).
      rewrite Hs, <- !app_assoc. reflexivity.
    - exists h, m, sec. split; [| reflexivity].
      exists fh, fm, fs. rewrite app_nil_r in Hs. repeat split; assumption. }
  split; [| split; [| split; [| split; [| split; [| split]]]]].
  - intros h m sec (fh & fm & fs & Hs & Hh & Hm & Hsec & Eh & Em & Es).
    apply parse_time_complete.
    exists fh, fm, fs, false. rewrite app_nil_r. repeat split; assumption.
  - intros Hnl n. now apply Hfields.
  - intros h m sec (fh & fm & fs & _ & Hh & Hm & Hs & -> & -> & ->).
    auto using hours_field_value, sixty_field_value.
  - intros e. apply parse_time_error.
  - intros Hnl Hnot. destruct (parse_time decimal s) as [e | n] eqn:E.
    + f_equal. eapply parse_time_error; eassumption.
    + destruct (Hfields n Hnl eq_refl) as (h & m & sec & Hacc & _).
      now destruct (Hnot h m sec).
  - assert (D : forall c, (48 <= c <= 57)%N -> is_decimal decimal c).
    { intros c Hc. exists (Z.of_N c - 48)%Z. auto. }
    replace 3723%Z with
      (field_value decimal (F2 48 49) * 3600
       + field_value decimal (F2 48 50) * 60
       + field_value decimal (F2 48 51))%Z.
    + apply parse_time_complete.
      exists (F2 48 49), (F2 48 50), (F2 48 51), false.
      cbn [hours_field sixty_field].
      repeat split; try reflexivity; try lia; apply D; lia.
    + unfold field_value. cbn [chars int_digits].
      rewrite !decimal_ascii by lia. reflexivity.
  - destruct (parse_time decimal (cp "99:99:99")) as [e | n] eqn:E.
    + f_equal. eapply parse_time_error; eassumption.
    + exfalso. apply parse_time_sound in E.
      destruct E as (h & m & sec & Hacc & _).
      destruct Hacc as (fh & fm & fs & nl & Hs & _ & Hm & _).
      destruct fh as [d | a d], fm as [d' | a' d'];
        cbn in Hs; inversion Hs; subst; cbn in Hm;
        try discriminate; destruct Hm; lia.
Qed.

End ParseTimeFacts.

(** The ASCII digit table satisfies the assumptions on the digit table. *)
Lemma ascii_decimal_ascii (c : N) :
  (48 <= c <= 57)%N -> ascii_decimal c = Some (Z.of_N c - 48)%Z.
Proof.
  intros Hc. unfold ascii_decimal.
  destruct (N.leb_spec 48 c); [| lia].
  destruct (N.leb_spec c 57); [reflexivity | lia].
Qed.

Lemma ascii_decimal_value (c : N) (v : Z) :
  ascii_decimal c = Some v -> (0 <= v <= 9)%Z.
Proof.
  unfold ascii_decimal.
  destruct (N.leb_spec 48 c); [| discriminate].
  destruct (N.leb_spec c 57); [| discriminate].
  simpl. intros Hv; inversion Hv; lia.
Qed.

(** Witness for C6: the theorem at the ASCII digit table and ["1:2:3"],
    which does not end in a newline. *)
Lemma parse_time_accepts_exactly_witness :
  ~ ends_in_newline (cp "1:2:3")
  /\ (forall n : Z,
        parse_time ascii_decimal (cp "1:2:3") = inr n ->
        exists h m sec : Z,
          time_fields ascii_decimal (cp "1:2:3") h m sec
          /\ n = (h * 3600 + m * 60 + sec)%Z)
  /\ parse_time ascii_decimal (cp "01:02:03") = inr 3723%Z.
Proof.
  assert (Hnl : ~ ends_in_newline (cp "1:2:3")).
  { intros [s' Hs]. apply (f_equal (fun l => last l 0%N)) in Hs.
    rewrite last_last in Hs. vm_compute in Hs. discriminate. }
  pose proof (parse_time_accepts_exactly ascii_decimal
                ascii_decimal_ascii ascii_decimal_value
                eq_refl eq_refl (cp "1:2:3")) as H.
  split; [exact Hnl |].
  split; [exact (proj1 (proj2 H) Hnl) |].
  exact (proj1 (proj2 (proj2 (proj2 (proj2 (proj2 H)))))).
Defined.

(** C6, as stated, fails: ["1:2:3"] (one-digit minutes and seconds) is
    not of the form [H:MM:SS] or [HH:MM:SS], and [parse_time] returns 3723
    on it. *)
Lemma parse_time_accepts_other_shapes :
  parse_time ascii_decimal (cp "1:2:3") = inr 3723%Z
  /\ spec_time_form (cp "1:2:3") = false.
Proof. repeat split; vm_compute; reflexivity. Qed.

(* ================================================================== *)
(** * Properties of the segment planner *)
(* ================================================================== *)

(* ------------------------------------------------------------------ *)
(** ** Intervals *)

Section Linked.

Variable R : Q -> Q -> Prop.
Hypothesis R_le : forall x y, R x y -> (x <= y)%Q.

Lemma linked_le (e : Q) (segs : list Segment) (b : Q) :
  linked R e segs b -> (e <= b)%Q.
Proof.
  revert e. induction segs as [| s rest IH]; simpl; intros e.
  - intros H. rewrite H. apply Qle_refl.
  - intros (He & Hs & Hl). apply IH in Hl. apply R_le in He. lra.
Qed.

Lemma linked_after (e : Q) (segs : list Segment) (b : Q) :
  linked R e segs b ->
  forall j s, nth_error segs j = Some s -> (e <= seg_start s)%Q.
Proof.
  revert e. induction segs as [| s0 rest IH]; simpl; intros e H j s Hj.
  - destruct j; discriminate.
  - destruct H as (He & Hs & Hl). apply R_le in He.
    destruct j as [| j]; simpl in Hj.
    + inversion Hj; subst. exact He.
    + pose proof (IH _ Hl j s Hj). lra.
Qed.

Lemma linked_start_ordered (e : Q) (segs : list Segment) (b : Q) :
  linked R e segs b ->
  Forall (fun s => (e <= seg_start s)%Q) segs /\ start_ordered segs.
Proof.
  unfold start_ordered.
  revert e. induction segs as [| s rest IH]; simpl; intros e H.
  - split; constructor.
  - destruct H as (He & Hs & Hl). apply R_le in He.
    destruct (IH _ Hl) as [Hall Hsorted]. split.
    + constructor; [exact He |].
      eapply Forall_impl; [| exact Hall]. cbn. intros c Hc. lra.
    + constructor; [exact Hsorted |].
      eapply Forall_impl; [| exact Hall]. cbn. intros c Hc. lra.
Qed.

Lemma chain_start_ordered (a : Q) (segs : list Segment) (b : Q) :
  chain R a segs b -> start_ordered segs.
Proof.
  destruct segs as [| s rest]; [intros [] |].
  intros (Ha & Hs & Hl). unfold start_ordered.
  destruct (linked_start_ordered _ _ _ Hl) as [Hall Hsorted].
  constructor; [exact Hsorted |].
  eapply Forall_impl; [| exact Hall]. cbn. intros c Hc. lra.
Qed.

(** Linked segments stay between the end they start from and the final
    end. *)
Lemma linked_span (e : Q) (segs : list Segment) (b : Q) :
  linked R e segs b ->
  forall s, In s segs -> (e <= seg_start s /\ seg_end s <= b)%Q.
Proof.
  revert e. induction segs as [| s0 rest IH]; simpl; intros e H s Hin.
  - destruct Hin.
  - destruct H as (He & Hs & Hl). apply R_le in He.
    pose proof (linked_le _ _ _ Hl) as Hb.
    destruct Hin as [<- | Hin].
    + split; [exact He | exact Hb].
    + destruct (IH _ Hl s Hin) as [H1 H2]. split; lra.
Qed.

Lemma chain_span (a : Q) (segs : list Segment) (b : Q) :
  chain R a segs b ->
  forall s, In s segs -> (a <= seg_start s /\ seg_end s <= b)%Q.
Proof.
  destruct segs as [| s0 rest]; [intros [] |].
  intros (Ha & Hs & Hl) s Hin.
  pose proof (linked_le _ _ _ Hl) as Hb.
  destruct Hin as [<- | Hin].
  - split; [rewrite Ha; apply Qle_refl | exact Hb].
  - destruct (linked_span _ _ _ Hl s Hin) as [H1 H2]. split; lra.
Qed.

End Linked.

Lemma Qeq_le (x y : Q) : (x == y)%Q -> (x <= y)%Q.
Proof. intros H. rewrite H. apply Qle_refl. Qed.

Lemma linked_covers_once (e : Q) (segs : list Segment) (b : Q) :
  linked Qeq e segs b -> covers_once e b segs.
Proof.
  revert e. induction segs as [| s0 rest IH]; simpl; intros e H t Ht.
  - rewrite H in Ht. lra.
  - destruct H as (He & Hs & Hl).
    destruct (Qlt_le_dec t (seg_end s0)) as [Hlt | Hge].
    + exists 0%nat, s0. split; [reflexivity |]. split.
      * unfold inside. rewrite <- He. lra.
      * intros j s' Hj Hin. destruct j as [| j]; [reflexivity |].
        simpl in Hj. pose proof (linked_after Qeq Qeq_le _ _ _ Hl j s' Hj).
        unfold inside in Hin. lra.
    + destruct (IH _ Hl t) as (i & s & Hi & Hin & Huniq).
      { pose proof (linked_le Qeq Qeq_le _ _ _ Hl). lra. }
      exists (S i), s. split; [exact Hi |]. split; [exact Hin |].
      intros j s' Hj Hin'. destruct j as [| j].
      * simpl in Hj. inversion Hj; subst. unfold inside in Hin'. lra.
      * f_equal. eapply Huniq; eassumption.
Qed.

Lemma linked_start_eq (a a' : Q) (segs : list Segment) (b : Q) :
  (a == a')%Q -> linked Qeq a segs b -> linked Qeq a' segs b.
Proof.
  intros E. destruct segs as [| s rest]; simpl.
  - intros H. now rewrite <- E.
  - intros (H1 & H2 & H3). repeat split; auto. now rewrite <- E.
Qed.

Lemma linked_chain (a : Q) (segs : list Segment) (b : Q) :
  segs <> [] -> linked Qeq a segs b -> chain Qeq a segs b.
Proof.
  destruct segs as [| s rest]; [congruence |]. simpl. tauto.
Qed.

Lemma chain_linked (a : Q) (segs : list Segment) (b : Q) :
  chain Qeq a segs b -> linked Qeq a segs b.
Proof.
  destruct segs as [| s rest]; simpl; tauto.
Qed.

(** A tiling covers every point exactly once. *)
Lemma tiles_covers_once (a b : Q) (segs : list Segment) :
  tiles a b segs -> covers_once a b segs.
Proof.
  intros H. apply linked_covers_once. now apply chain_linked.
Qed.

Lemma linked_last (R : Q -> Q -> Prop) (e : Q) (segs : list Segment)
      (b : Q) (s0 : Segment) :
  linked R e segs b -> segs <> [] -> (seg_end (last segs s0) == b)%Q.
Proof.
  revert e. induction segs as [| s rest IH]; intros e H Hne; [congruence |].
  destruct H as (_ & _ & Hl). destruct rest as [| s' rest'].
  - exact Hl.
  - change (last (s :: s' :: rest') s0) with (last (s' :: rest') s0).
    eapply IH; [exact Hl | discriminate].
Qed.

(* ------------------------------------------------------------------ *)
(** ** Fixed-grid planning *)

Section FixedGrid.

Variables mcd d : Q.
Hypothesis mcd_pos : (0 < mcd)%Q.
Hypothesis d_pos : (0 < d)%Q.


Lemma grid_count_nonneg : (0 <= Qfloor (d / mcd))%Z.
Proof.
  change 0%Z with (Qfloor 0). apply Qfloor_resp_le.
  apply Qle_shift_div_l; [assumption | lra].
Qed.

Lemma grid_count_below : (inject_Z (Qfloor (d / mcd)) * mcd <= d)%Q.
Proof.
  pose proof (Qfloor_le (d / mcd)) as H.
  apply (Qmult_le_r _ _ mcd mcd_pos) in H.
  assert (E : (d / mcd * mcd == d)%Q) by (field; lra).
  rewrite E in H. exact H.
Qed.

Lemma grid_count_above :
  (d < inject_Z (Qfloor (d / mcd) + 1) * mcd)%Q.
Proof.
  pose proof (Qlt_floor (d / mcd)) as H.
  apply (Qmult_lt_r _ _ mcd mcd_pos) in H.
  assert (E : (d / mcd * mcd == d)%Q) by (field; lra).
  rewrite E in H. exact H.
Qed.

Lemma int_of_float_inject (z : Z) : int_of_float (inject_Z z) = z.
Proof. unfold int_of_float. simpl. apply Z.quot_1_r. Qed.

Lemma window_nonempty (i : Z) : (seg_start (window mcd i) < seg_end (window mcd i))%Q.
Proof.
  simpl. rewrite inject_Z_plus. change (inject_Z 1) with 1%Q. lra.
Qed.

Lemma grid_linked (tail : list Segment) (b : Q) (k j : nat) :
  linked Qeq (inject_Z (Z.of_nat (j + k)) * mcd)%Q tail b ->
  linked Qeq (inject_Z (Z.of_nat j) * mcd)%Q
    (List.map (window mcd) (List.map Z.of_nat (seq j k)) ++ tail) b.
Proof.
  revert j. induction k as [| k IH]; intros j H.
  - rewrite Nat.add_0_r in H. exact H.
  - cbn [seq List.map app linked]. split; [reflexivity |].
    split; [apply window_nonempty |].
    cbn [window seg_end].
    replace (Z.of_nat j + 1)%Z with (Z.of_nat (S j)) by lia.
    apply IH. replace (S j + k)%nat with (j + S k)%nat by lia. exact H.
Qed.

(** The planner's result: the full windows, then the remainder if any. *)
Lemma fixed_grid_eq :
  fixed_grid mcd d =
  inr (List.map (window mcd) (range (Qfloor (d / mcd)))
         ++ (if Qle_bool (fmod d mcd) 0 then []
             else [mkSegment (cp "Speaker 1")
                     (inject_Z (Qfloor (d / mcd)) * mcd)%Q d])).
Proof.
  unfold fixed_grid.
  destruct (Qeq_bool mcd 0) eqn:E.
  - apply Qeq_bool_eq in E. lra.
  - unfold floordiv. rewrite int_of_float_inject. reflexivity.
Qed.

Lemma fixed_grid_linked (segs : list Segment) :
  fixed_grid mcd d = inr segs -> linked Qeq 0 segs d /\ segs <> [].
Proof.
  rewrite fixed_grid_eq.
  pose proof grid_count_nonneg as Hn.
  pose proof grid_count_below as Hlo.
  pose proof grid_count_above as Hhi.
  unfold range, fmod.
  remember (Qfloor (d / mcd)) as n eqn:En. clear En.
  intros H. inversion H; subst segs; clear H.
  assert (Ez : (inject_Z (Z.of_nat 0) * mcd == 0)%Q) by (simpl; ring).
  destruct (Qle_bool (d - mcd * inject_Z n) 0) eqn:Er.
  - apply Qle_bool_iff in Er.
    assert (Ed : (inject_Z n * mcd == d)%Q) by lra.
    split.
    + apply (linked_start_eq _ _ _ _ Ez). apply grid_linked.
      cbn [Nat.add linked]. rewrite Z2Nat.id by exact Hn. exact Ed.
    + assert (Hn1 : (1 <= n)%Z).
      { destruct (Z.eq_dec n 0) as [E0 | E0]; [| lia].
        rewrite E0 in Ed. change (inject_Z 0) with 0%Q in Ed. lra. }
      destruct (Z.to_nat n) as [| m] eqn:Em; [lia |]. discriminate.
  - assert (Hr : ~ (d - mcd * inject_Z n <= 0)%Q).
    { intros Hle. apply Qle_bool_iff in Hle. congruence. }
    split.
    + apply (linked_start_eq _ _ _ _ Ez). apply grid_linked.
      cbn [Nat.add linked seg_start seg_end].
      rewrite Z2Nat.id by exact Hn.
      repeat split; try reflexivity. lra.
    + intros E. apply app_eq_nil in E. destruct E as [_ E]. discriminate.
Qed.

(** Fixed-grid planning returns a tiling of [[0, d)]. *)
Lemma fixed_grid_tiles :
  exists segs, fixed_grid mcd d = inr segs /\ tiles 0 d segs.
Proof.
  eexists. split; [apply fixed_grid_eq |].
  destruct (fixed_grid_linked _ fixed_grid_eq) as [L Hne].
  apply linked_chain; assumption.
Qed.

(** Every window but the last has length [mcd]; the last one is not
    longer. *)
Lemma fixed_grid_lengths (segs : list Segment) :
  fixed_grid mcd d = inr segs ->
  forall i s, nth_error segs i = Some s ->
    (seg_start s == inject_Z (Z.of_nat i) * mcd)%Q
    /\ (0 < seg_end s - seg_start s <= mcd)%Q
    /\ ((S i < length segs)%nat -> (seg_end s - seg_start s == mcd)%Q)
    /\ speaker s = cp "Speaker 1".
Proof.
  rewrite fixed_grid_eq.
  pose proof grid_count_nonneg as Hn.
  pose proof grid_count_below as Hlo.
  pose proof grid_count_above as Hhi.
  rewrite inject_Z_plus in Hhi. change (inject_Z 1) with 1%Q in Hhi.
  unfold fmod. remember (Qfloor (d / mcd)) as n eqn:En. clear En.
  intros H. inversion H; subst segs; clear H.
  intros i s Hi.
  assert (Hlen : length (List.map (window mcd) (range n)) = Z.to_nat n).
  { unfold range. now rewrite !length_map, length_seq. }
  destruct (Nat.lt_ge_cases i (Z.to_nat n)) as [Hlt | Hge].
  - rewrite nth_error_app1 in Hi by lia.
    unfold range in Hi. rewrite !nth_error_map in Hi.
    rewrite nth_error_seq in Hi.
    destruct (Nat.ltb_spec i (Z.to_nat n)) as [_ | Hc]; [| lia].
    cbn [option_map Nat.add] in Hi. inversion Hi; subst s.
    cbn [window seg_start seg_end speaker].
    rewrite inject_Z_plus. change (inject_Z 1) with 1%Q.
    repeat split; try reflexivity; try lra.
  - rewrite nth_error_app2 in Hi by lia. rewrite Hlen in Hi.
    destruct (Qle_bool (d - mcd * inject_Z n) 0) eqn:Er.
    + destruct (i - Z.to_nat n)%nat; discriminate.
    + assert (Hr : ~ (d - mcd * inject_Z n <= 0)%Q).
      { intros Hle. apply Qle_bool_iff in Hle. congruence. }
      destruct (i - Z.to_nat n)%nat as [| m] eqn:Em;
        [| destruct m; discriminate].
      cbn [nth_error] in Hi. inversion Hi; subst s.
      cbn [seg_start seg_end speaker].
      assert (Ei : Z.of_nat i = n) by lia. rewrite Ei.
      repeat split; try reflexivity; try lra.
      rewrite length_app, Hlen. cbn [length]. lia.
Qed.

End FixedGrid.

(* ------------------------------------------------------------------ *)
(** ** Diarization-driven merging *)

Lemma segment_eta (s : Segment) :
  mkSegment (speaker s) (seg_start s) (seg_end s) = s.
Proof. now destruct s. Qed.

(** The loop of [combine_segments] computes [merge_from]. *)
Lemma combine_fold (mcd : Q) (rest acc : list Segment) (cur : Segment) :
  (let '(cs, c) := fold_left (combine_step mcd) rest (acc, cur) in
   cs ++ [c]) = acc ++ merge_from mcd cur rest.
Proof.
  revert acc cur. induction rest as [| t rest IH]; intros acc cur.
  - reflexivity.
  - cbn [fold_left merge_from]. unfold combine_step at 2.
    destruct (Qle_bool (fsub (seg_end t) (seg_start cur)) mcd).
    + apply IH.
    + rewrite IH. now rewrite <- app_assoc.
Qed.

Lemma combine_segments_merge (mcd : Q) (first : Segment)
      (rest : list Segment) :
  combine_segments mcd (first :: rest) = inr (merge_from mcd first rest).
Proof.
  unfold combine_segments. rewrite segment_eta.
  pose proof (combine_fold mcd rest [] first) as H.
  destruct (fold_left (combine_step mcd) rest ([], first)) as [cs c].
  now rewrite H.
Qed.

(** Erasing the ghost member lists gives back the chunks. *)
Lemma merge_members_erase (mcd : Q) (rest : list Segment) (cur : Segment)
      (members : list Segment) :
  List.map fst (merge_members mcd cur members rest) = merge_from mcd cur rest.
Proof.
  revert cur members. induction rest as [| t rest IH]; intros cur members.
  - reflexivity.
  - cbn [merge_members merge_from].
    destruct (Qle_bool (fsub (seg_end t) (seg_start cur)) mcd).
    + apply IH.
    + cbn [List.map fst]. now rewrite IH.
Qed.

Lemma combine_members_erase (mcd : Q) (first : Segment)
      (rest : list Segment) :
  combine_segments mcd (first :: rest) =
  inr (List.map fst (combine_members mcd (first :: rest))).
Proof.
  rewrite combine_segments_merge. unfold combine_members.
  now rewrite segment_eta, merge_members_erase.
Qed.

(** Every turn is a member of exactly one chunk, in order. *)
Lemma merge_members_partition (mcd : Q) (rest : list Segment)
      (cur : Segment) (members : list Segment) :
  concat (List.map snd (merge_members mcd cur members rest)) =
  members ++ rest.
Proof.
  revert cur members. induction rest as [| t rest IH]; intros cur members.
  - cbn. now rewrite app_nil_r.
  - cbn [merge_members].
    destruct (Qle_bool (fsub (seg_end t) (seg_start cur)) mcd).
    + rewrite IH. now rewrite <- app_assoc.
    + cbn [List.map snd concat]. now rewrite IH.
Qed.

Lemma merge_members_ok (mcd : Q) (rest : list Segment) (cur : Segment)
      (members : list Segment) :
  chunk_ok mcd cur members ->
  forall c ms, In (c, ms) (merge_members mcd cur members rest) ->
               chunk_ok mcd c ms.
Proof.
  revert cur members. induction rest as [| t rest IH];
    intros cur members Hok c ms Hin.
  - cbn in Hin. destruct Hin as [E | []]. now inversion E; subst.
  - cbn [merge_members] in Hin.
    destruct (Qle_bool (fsub (seg_end t) (seg_start cur)) mcd) eqn:Ecap.
    + apply (IH _ _) with (c := c) (ms := ms) in Hin; [exact Hin |].
      destruct Hok as (Hne & _ & _). repeat split.
      * intros E. now apply app_eq_nil in E.
      * intros t' E. destruct members as [| m members]; [congruence |].
        destruct members; discriminate.
      * intros _. cbn [seg_start seg_end]. now apply Qle_bool_iff.
    + destruct Hin as [E | Hin].
      * now inversion E; subst.
      * apply (IH _ _) with (c := c) (ms := ms) in Hin; [exact Hin |].
        rewrite segment_eta. repeat split.
        -- discriminate.
        -- intros t' E. now inversion E.
        -- cbn. lia.
Qed.

(** Turns that tile (or are ordered and disjoint) merge into chunks that
    tile (or are ordered and disjoint) the same span. *)
Section MergeChain.

Variable R : Q -> Q -> Prop.
Hypothesis R_le : forall x y, R x y -> (x <= y)%Q.
Variable mcd : Q.

Lemma merge_from_linked (rest : list Segment) (cur : Segment) (b : Q) :
  (seg_start cur < seg_end cur)%Q ->
  linked R (seg_end cur) rest b ->
  exists c cs,
    merge_from mcd cur rest = c :: cs
    /\ seg_start c = seg_start cur
    /\ (seg_start c < seg_end c)%Q
    /\ linked R (seg_end c) cs b.
Proof.
  revert cur. induction rest as [| t rest IH]; intros cur Hcur Hl.
  - exists cur, []. cbn. auto.
  - destruct Hl as (Hr & Ht & Hl). cbn [merge_from].
    destruct (Qle_bool (fsub (seg_end t) (seg_start cur)) mcd).
    + apply (IH (mkSegment (speaker cur) (seg_start cur) (seg_end t))).
      * cbn. apply R_le in Hr. lra.
      * exact Hl.
    + rewrite segment_eta.
      destruct (IH t Ht Hl) as (c & cs & E & Es & Hc & Hcs).
      exists cur, (c :: cs). rewrite E. repeat split; auto.
      cbn [linked]. rewrite Es. auto.
Qed.

Lemma combine_segments_chain (a b : Q) (turns : list Segment) :
  chain R a turns b ->
  exists chunks,
    combine_segments mcd turns = inr chunks /\ chain R a chunks b.
Proof.
  destruct turns as [| first rest]; [intros [] |].
  intros (Ha & Hf & Hl). rewrite combine_segments_merge.
  destruct (merge_from_linked rest first b Hf Hl)
    as (c & cs & E & Es & Hc & Hcs).
  exists (c :: cs). rewrite E. split; [reflexivity |].
  unfold chain. rewrite <- Es in Ha. repeat split; assumption.
Qed.

End MergeChain.

(** Chunk starts are turn starts, in the same order. *)
Lemma merge_from_start_ordered (mcd : Q) (rest : list Segment)
      (cur : Segment) :
  Forall (fun t => (seg_start cur <= seg_start t)%Q) rest ->
  start_ordered rest ->
  start_ordered (merge_from mcd cur rest)
  /\ Forall (fun c => (seg_start cur <= seg_start c)%Q)
            (merge_from mcd cur rest).
Proof.
  unfold start_ordered.
  revert cur. induction rest as [| t rest IH]; intros cur Hge Hsorted.
  - cbn. split.
    + repeat constructor.
    + repeat constructor. apply Qle_refl.
  - apply Forall_cons_iff in Hge. destruct Hge as [Hct Hge].
    apply StronglySorted_inv in Hsorted. destruct Hsorted as [Hsorted Ht].
    cbn [merge_from].
    destruct (Qle_bool (fsub (seg_end t) (seg_start cur)) mcd).
    + apply (IH (mkSegment (speaker cur) (seg_start cur) (seg_end t)));
        assumption.
    + rewrite segment_eta. destruct (IH t Ht Hsorted) as [IH1 IH2].
      split.
      * constructor; [exact IH1 |].
        eapply Forall_impl; [| exact IH2]. cbn. intros c Hc. lra.
      * constructor; [apply Qle_refl |].
        eapply Forall_impl; [| exact IH2]. cbn. intros c Hc. lra.
Qed.

Lemma combine_segments_start_ordered (mcd : Q) (turns chunks : list Segment) :
  start_ordered turns ->
  combine_segments mcd turns = inr chunks ->
  start_ordered chunks.
Proof.
  destruct turns as [| first rest]; [discriminate |].
  intros Hs. rewrite combine_segments_merge. intros E; inversion E; subst.
  apply StronglySorted_inv in Hs. destruct Hs as [Hs Hf].
  now apply merge_from_start_ordered.
Qed.

(** When starts and ends are both non-decreasing, the open chunk and
    every remaining turn end up inside some chunk. *)
Lemma merge_from_within (mcd : Q) (rest : list Segment) (cur : Segment) :
  Forall (fun t => (seg_start cur <= seg_start t)%Q) rest ->
  Forall (fun t => (seg_end cur <= seg_end t)%Q) rest ->
  start_ordered rest -> end_ordered rest ->
  forall t, t = cur \/ In t rest ->
    exists c, In c (merge_from mcd cur rest) /\ within t c.
Proof.
  unfold start_ordered, end_ordered, within.
  revert cur. induction rest as [| t0 rest IH];
    intros cur Hs He Hso Heo t Ht.
  - destruct Ht as [-> | []]. exists cur. cbn. split; [auto |].
    split; apply Qle_refl.
  - apply Forall_cons_iff in Hs. destruct Hs as [Hs0 Hs].
    apply Forall_cons_iff in He. destruct He as [He0 He].
    apply StronglySorted_inv in Hso. destruct Hso as [Hso Hs1].
    apply StronglySorted_inv in Heo. destruct Heo as [Heo He1].
    cbn [merge_from].
    destruct (Qle_bool (fsub (seg_end t0) (seg_start cur)) mcd).
    + set (cur' := mkSegment (speaker cur) (seg_start cur) (seg_end t0)).
      assert (IHc : forall t', t' = cur' \/ In t' rest ->
                exists c, In c (merge_from mcd cur' rest)
                  /\ (seg_start c <= seg_start t')%Q
                  /\ (seg_end t' <= seg_end c)%Q).
      { apply IH; auto. }
      destruct Ht as [-> | [-> | Hin]].
      * destruct (IHc cur' (or_introl eq_refl)) as (c & Hc & H1 & H2).
        exists c. cbn in H1, H2. split; [exact Hc |]. split; lra.
      * destruct (IHc cur' (or_introl eq_refl)) as (c & Hc & H1 & H2).
        exists c. cbn in H1, H2. split; [exact Hc |]. split; lra.
      * destruct (IHc t (or_intror Hin)) as (c & Hc & H1 & H2).
        exists c. auto.
    + rewrite segment_eta.
      destruct Ht as [-> | Hin].
      * exists cur. cbn. split; [auto |]. split; apply Qle_refl.
      * destruct (IH t0 Hs1 He1 Hso Heo t) as (c & Hc & H1 & H2).
        { destruct Hin as [-> | Hin]; auto. }
        exists c. cbn. auto.
Qed.

Lemma combine_segments_within (mcd : Q) (turns chunks : list Segment) :
  start_ordered turns -> end_ordered turns ->
  combine_segments mcd turns = inr chunks ->
  forall t, In t turns -> exists c, In c chunks /\ within t c.
Proof.
  destruct turns as [| first rest]; [discriminate |].
  intros Hs He. rewrite combine_segments_merge. intros E; inversion E; subst.
  apply StronglySorted_inv in Hs. destruct Hs as [Hs Hsf].
  apply StronglySorted_inv in He. destruct He as [He Hef].
  intros t Ht. apply merge_from_within; auto.
  destruct Ht as [-> | Ht]; auto.
Qed.

(* ------------------------------------------------------------------ *)
(** ** The planner's claims *)

(** C5.  For every [total_duration > 0] and [max_chunk_duration > 0],
    fixed-grid planning returns consecutive windows of length
    [max_chunk_duration], followed by a shorter remainder window when the
    remainder is not zero; the windows tile [[0, total_duration)] with no
    gap and no overlap, every point lies in exactly one window, and the
    last window ends at [total_duration].  With 125 seconds and a cap of
    60 the result is [[0,60) [60,120) [120,125)]. *)
Theorem fixed_grid_partition (mcd d : Q) :
  (0 < mcd)%Q -> (0 < d)%Q ->
  (exists segs : list Segment,
      fixed_grid mcd d = inr segs
      /\ segs =
         List.map (window mcd) (range (Qfloor (d / mcd)))
           ++ (if Qle_bool (fmod d mcd) 0 then []
               else [mkSegment (cp "Speaker 1")
                       (inject_Z (Qfloor (d / mcd)) * mcd)%Q d])
      /\ (0 <= fmod d mcd < mcd)%Q
      /\ tiles 0 d segs
      /\ covers_once 0 d segs
      /\ (seg_end (last segs (mkSegment [] 0 0)) == d)%Q
      /\ forall i s, nth_error segs i = Some s ->
           (seg_start s == inject_Z (Z.of_nat i) * mcd)%Q
           /\ (0 < seg_end s - seg_start s <= mcd)%Q
           /\ ((S i < length segs)%nat ->
               (seg_end s - seg_start s == mcd)%Q)
           /\ speaker s = cp "Speaker 1")
  /\ fixed_grid MAX_CHUNK_DURATION 125 =
     inr [mkSegment (cp "Speaker 1") 0 60;
          mkSegment (cp "Speaker 1") 60 120;
          mkSegment (cp "Speaker 1") 120 125].
Proof.
  intros Hm Hd. split; [| vm_compute; reflexivity].
  pose proof (fixed_grid_eq mcd d Hm) as E.
  destruct (fixed_grid_linked mcd d Hm Hd _ E) as [L Hne].
  eexists. split; [exact E |]. split; [reflexivity |].
  split; [| split; [| split; [| split]]].
  - pose proof (grid_count_below mcd d Hm) as Hlo.
    pose proof (grid_count_above mcd d Hm) as Hhi.
    rewrite inject_Z_plus in Hhi. change (inject_Z 1) with 1%Q in Hhi.
    unfold fmod. split; lra.
  - now apply linked_chain.
  - now apply linked_covers_once.
  - eapply linked_last; eassumption.
  - exact (fixed_grid_lengths mcd d Hm Hd _ E).
Qed.

(** Witness for C5: 125 seconds with the program's cap of 60. *)
Lemma fixed_grid_partition_witness :
  (0 < MAX_CHUNK_DURATION)%Q /\ (0 < 125)%Q
  /\ exists segs : list Segment,
       fixed_grid MAX_CHUNK_DURATION 125 = inr segs /\ tiles 0 125 segs.
Proof.
  split; [reflexivity |]. split; [reflexivity |].
  destruct (fixed_grid_partition MAX_CHUNK_DURATION 125 eq_refl eq_refl)
    as [(segs & E & _ & _ & Ht & _) _].
  exists segs. split; assumption.
Defined.

(** C3 (amended).  For every [total_duration > 0], fixed-grid planning
    returns segments that cover [[0, total_duration)] exactly once, ordered
    by start.  Diarization-driven merging keeps start-ordered turns
    start-ordered; its chunks tile [[0, total_duration)] when the turns
    tile it; when the turns are disjoint and ordered, the chunks are
    disjoint and ordered, the first starting at the first turn's start and
    the last ending at the last turn's end, and no chunk contains a time
    before the first turn's start or from the last turn's end on. *)
Theorem planning_coverage (mcd d : Q) :
  (0 < mcd)%Q -> (0 < d)%Q ->
  (exists segs : list Segment,
      fixed_grid mcd d = inr segs
      /\ tiles 0 d segs /\ covers_once 0 d segs /\ start_ordered segs)
  /\ (forall turns chunks : list Segment,
         start_ordered turns ->
         combine_segments mcd turns = inr chunks ->
         start_ordered chunks)
  /\ (forall turns : list Segment,
         tiles 0 d turns ->
         exists chunks : list Segment,
           combine_segments mcd turns = inr chunks
           /\ tiles 0 d chunks /\ covers_once 0 d chunks)
  /\ (forall (a b : Q) (turns : list Segment),
         chain Qle a turns b ->
         exists chunks : list Segment,
           combine_segments mcd turns = inr chunks
           /\ chain Qle a chunks b)
  /\ (forall (a b : Q) (turns chunks : list Segment),
         chain Qle a turns b ->
         combine_segments mcd turns = inr chunks ->
         forall (x : Q) (c : Segment),
           In c chunks -> inside x c -> (a <= x < b)%Q).
Proof.
  intros Hm Hd. split; [| split; [| split; [| split]]].
  - destruct (fixed_grid_tiles mcd d Hm Hd) as (segs & E & Ht).
    exists segs. repeat split; auto.
    + now apply tiles_covers_once.
    + eapply chain_start_ordered; [apply Qeq_le | exact Ht].
  - intros turns chunks. apply combine_segments_start_ordered.
  - intros turns Ht.
    destruct (combine_segments_chain Qeq Qeq_le mcd 0 d turns Ht)
      as (chunks & E & Hc).
    exists chunks. repeat split; auto. now apply tiles_covers_once.
  - intros a b turns Ht.
    exact (combine_segments_chain Qle (fun x y H => H) mcd a b turns Ht).
  - intros a b turns chunks Ht E x c Hc [Hx1 Hx2].
    destruct (combine_segments_chain Qle (fun x y H => H) mcd a b turns Ht)
      as (chunks' & E' & Hchain).
    rewrite E in E'. inversion E'; subst chunks'.
    destruct (chain_span Qle (fun x y H => H) a chunks b Hchain c Hc)
      as [H1 H2].
    split; lra.
Qed.

(** Witness for C3: a 125-second input with the program's cap. *)
Lemma planning_coverage_witness :
  (0 < MAX_CHUNK_DURATION)%Q /\ (0 < 125)%Q
  /\ exists segs : list Segment,
       fixed_grid MAX_CHUNK_DURATION 125 = inr segs
       /\ covers_once 0 125 segs.
Proof.
  split; [reflexivity |]. split; [reflexivity |].
  destruct (planning_coverage MAX_CHUNK_DURATION 125 eq_refl eq_refl)
    as [(segs & E & _ & Hc & _) _].
  exists segs. split; assumption.
Defined.

(** C3, as stated, fails for the diarization mode: a 10-second input in
    which the only turn runs from second 1 to second 2 gives the single
    chunk [[1, 2)], which does not cover [[0, 10)]. *)
Lemma merging_leaves_silence_uncovered :
  start_ordered (label_turns [mkTurn (cp "SPEAKER_00") 1 2])
  /\ combine_segments MAX_CHUNK_DURATION
       (label_turns [mkTurn (cp "SPEAKER_00") 1 2])
     = inr [mkSegment (cp "Speaker 1") 1 2]
  /\ ~ tiles 0 10 [mkSegment (cp "Speaker 1") 1 2]
  /\ ~ covers_once 0 10 [mkSegment (cp "Speaker 1") 1 2].
Proof.
  split; [| split; [| split]].
  - repeat constructor.
  - vm_compute. reflexivity.
  - intros (H & _). vm_compute in H. discriminate.
  - intros H. destruct (H 0%Q) as (i & s & Hi & Hin & _).
    + split; [apply Qle_refl | reflexivity].
    + destruct i as [| [| i]]; try discriminate.
      inversion Hi; subst s. destruct Hin as [Hin _].
      vm_compute in Hin. now apply Hin.
Qed.

(** C4.  The claim fails on the code at the start-ordered turns
    [[0, 10)] and [[2, 5)]: the second turn is within the cap, so the loop
    sets the end of the open chunk to the end of that turn, and the result
    is the single chunk [[0, 5)].  Second 7 of the first turn is in no
    chunk: the chunks do not cover every input turn. *)
Lemma merging_drops_tail_of_enclosing_turn :
  start_ordered
    [mkSegment (cp "Speaker 1") 0 10; mkSegment (cp "Speaker 2") 2 5]
  /\ combine_segments MAX_CHUNK_DURATION
       [mkSegment (cp "Speaker 1") 0 10; mkSegment (cp "Speaker 2") 2 5]
     = inr [mkSegment (cp "Speaker 1") 0 5]
  /\ inside 7 (mkSegment (cp "Speaker 1") 0 10)
  /\ forall c, In c [mkSegment (cp "Speaker 1") 0 5] -> ~ inside 7 c.
Proof.
  split; [| split; [| split]].
  - repeat constructor. vm_compute. discriminate.
  - vm_compute. reflexivity.
  - split; vm_compute; [discriminate | reflexivity].
  - intros c [<- | []] [_ H]. vm_compute in H. discriminate.
Qed.

(* ================================================================== *)
(** * Properties of the renderer, the transcriber and the pool *)
(* ================================================================== *)

(* ------------------------------------------------------------------ *)
(** ** Transcript renderer *)

Lemma fold_left_writes (A : Type) (f : A -> pystr) (l : list A)
      (file : pystr) :
  fold_left (fun (acc : pystr) (p : A) => acc ++ f p) l file =
  file ++ concat (List.map f l).
Proof.
  revert file. induction l as [| p l IH]; intros file; cbn.
  - now rewrite app_nil_r.
  - rewrite IH. now rewrite app_assoc.
Qed.

Lemma srt_written_cue (i : Z) (segment : TSegment) :
  srt_written i segment = spec_cue i segment.
Proof. reflexivity. Qed.

Lemma srt_written_entry (i : Z) (segment : TSegment) :
  srt_written i segment = srt_entry i segment ++ [LF].
Proof.
  unfold srt_written, srt_entry. cbn zeta.
  repeat rewrite <- app_assoc. reflexivity.
Qed.

(** Joining with a separator and closing with it is the same as ending
    every part with it. *)
Lemma join_then_sep (sep : pystr) (parts : list pystr) :
  parts <> [] ->
  join sep parts ++ sep = concat (List.map (fun p => p ++ sep) parts).
Proof.
  induction parts as [| p parts IH]; [congruence |]. intros _.
  destruct parts as [| q parts].
  - cbn. now rewrite app_nil_r.
  - change (join sep (p :: q :: parts)) with (p ++ sep ++ join sep (q :: parts)).
    change (concat (List.map (fun p0 => p0 ++ sep) (p :: q :: parts)))
      with ((p ++ sep)
              ++ concat (List.map (fun p0 => p0 ++ sep) (q :: parts))).
    rewrite <- IH by discriminate.
    now rewrite <- !app_assoc.
Qed.

(** C7 (amended).  The subtitle file is the concatenation, over the
    segments numbered from 1, of the four-line entries
    ["i\n<start> --> <end>\n<speaker>: <text>\n\n"] with millisecond
    timestamps of the absolute times.  The text generated for display is
    the same entries joined without the final blank line: the file is the
    displayed text followed by one more newline (both are empty when there
    is no segment). *)
Theorem srt_file_is_display_plus_newline (segments : list TSegment) :
  write_srt_file segments = spec_srt_document segments
  /\ write_srt_file segments =
     generate_srt_text_with_speakers segments
       ++ match segments with
          | [] => []
          | _ :: _ => [LF]
          end
  /\ format_timestamp (6525 # 100) = cp "00:01:05,250".
Proof.
  split; [| split].
  - unfold write_srt_file, spec_srt_document.
    rewrite (fold_left_writes _
               (fun p : Z * TSegment => srt_written (fst p) (snd p))).
    reflexivity.
  - unfold write_srt_file, generate_srt_text_with_speakers.
    rewrite (fold_left_writes _
               (fun p : Z * TSegment => srt_written (fst p) (snd p))).
    destruct segments as [| s segments].
    + reflexivity.
    + rewrite join_then_sep.
      * rewrite map_map. cbn [app].
        f_equal. apply map_ext. intros p. apply srt_written_entry.
      * unfold enumerate1. cbn. discriminate.
  - vm_compute. reflexivity.
Qed.

(** C7, as stated, fails: for one segment the file ends with a blank
    line that the displayed text does not have. *)
Lemma srt_display_differs_from_file :
  generate_srt_text_with_speakers
    [mkTSegment (cp "Speaker 1") 0 60 (cp "hello")]
  = cp "1" ++ [LF] ++ cp "00:00:00,000 --> 00:01:00,000" ++ [LF]
      ++ cp "Speaker 1: hello" ++ [LF]
  /\ write_srt_file [mkTSegment (cp "Speaker 1") 0 60 (cp "hello")]
     = cp "1" ++ [LF] ++ cp "00:00:00,000 --> 00:01:00,000" ++ [LF]
         ++ cp "Speaker 1: hello" ++ [LF; LF]
  /\ generate_srt_text_with_speakers
       [mkTSegment (cp "Speaker 1") 0 60 (cp "hello")]
     <> write_srt_file [mkTSegment (cp "Speaker 1") 0 60 (cp "hello")].
Proof.
  split; [vm_compute; reflexivity |].
  split; [vm_compute; reflexivity |].
  intros H. vm_compute in H. discriminate.
Qed.

(* ------------------------------------------------------------------ *)
(** ** Segment transcriber *)

Module TranscriberFacts.
Import Transcriber.

Lemma fresh_not_in (fs : list nat) : ~ In (fresh fs) fs.
Proof.
  intros Hin. unfold fresh in Hin.
  assert (H : Forall (fun k => k <= list_max fs) fs).
  { apply list_max_le. apply Nat.le_refl. }
  rewrite Forall_forall in H. apply H in Hin. lia.
Qed.

Lemma filter_absent (p : nat) (fs : list nat) :
  ~ In p fs -> List.filter (fun q => negb (Nat.eqb p q)) fs = fs.
Proof.
  induction fs as [| q fs IH]; intros Hnot; cbn; [reflexivity |].
  destruct (Nat.eqb_spec p q) as [-> | Hne].
  - exfalso. apply Hnot. now left.
  - cbn. f_equal. apply IH. intros Hin. apply Hnot. now right.
Qed.

(** C10.  Once the audio slice has been taken, [transcribe_segment]
    creates a temporary file of its own; if creating it fails, that error
    leaves the function and nothing has changed.  When the export
    succeeds, the file is deleted before the function returns, whether
    the model call returns or raises; the function fails to return only
    if removing the file fails, and then the file is still there.  When
    the export raises, the function returns the empty string and the file
    is still there. *)
Theorem segment_temp_file (e : env) (segment : Segment) (w : world) :
  stop_is_set e = false -> slice_raises e = None ->
  let p := fresh (files w) in
  let r := fst (transcribe_segment e segment w) in
  let w' := snd (transcribe_segment e segment w) in
  ~ In p (files w)
  /\ (forall ex, tempfile_raises e = Some ex -> r = inl ex /\ w' = w)
  /\ (tempfile_raises e = None ->
      (export_raises e = None ->
       (remove_raises e = None ->
        ~ In p (files w') /\ files w' = files w
        /\ In (Deleted p) (console w')
        /\ (forall result, model_result e = inr result ->
              r = inr (strip (match result with
                              | Some t => t
                              | None => []
                              end)))
        /\ (forall ex, model_result e = inl ex -> r = inr []))
       /\ (forall ex, remove_raises e = Some ex ->
             r = inl ex /\ In p (files w') /\ files w' = p :: files w))
      /\ (forall ex, export_raises e = Some ex ->
            r = inr [] /\ In p (files w') /\ files w' = p :: files w
            /\ console w' = console w ++ [ErrExporting ex])).
Proof.
  intros Hstop Hslice p r w'.
  pose proof (fresh_not_in (files w)) as Hfresh. fold p in Hfresh.
  split; [exact Hfresh |].
  subst r w'. unfold transcribe_segment. rewrite Hstop, Hslice. fold p.
  split; [intros ex ->; split; reflexivity |].
  intros ->. split.
  - intros Hexp. rewrite Hexp.
    destruct (model_result e) as [ex | result] eqn:Hmodel;
      unfold path_exists, put, create_file, remove_file;
      cbn [fst snd files console existsb List.filter];
      rewrite Nat.eqb_refl; cbn [orb].
    + split.
      * intros ->. cbn [negb fst snd files console].
        rewrite (filter_absent p (files w) Hfresh).
        repeat split; auto.
        -- apply in_or_app. right. now left.
        -- intros result H. discriminate.
      * intros ex' ->. cbn [fst snd files]. repeat split. now left.
    + split.
      * intros ->. cbn [negb fst snd files console].
        rewrite (filter_absent p (files w) Hfresh).
        repeat split; auto.
        -- apply in_or_app. right. now left.
        -- intros result' H. now inversion H.
        -- intros ex H. discriminate.
      * intros ex' ->. cbn [fst snd files]. repeat split. now left.
  - intros ex Hexp. rewrite Hexp. cbn.
    repeat split; auto.
Qed.

(** Witness for C10: the export raises while one older file exists. *)
Lemma segment_temp_file_witness :
  let e := mkEnv false None None (Some (Exception (cp "disk full")))
                 (inr (Some (cp "never reached"))) None in
  let w := mkWorld [3%nat] [] in
  stop_is_set e = false /\ slice_raises e = None
  /\ transcribe_segment e (mkSegment (cp "Speaker 1") 0 60) w
     = (inr [],
        mkWorld [4%nat; 3%nat]
                [ErrExporting (Exception (cp "disk full"))]).
Proof.
  intros e w. split; [reflexivity |]. split; [reflexivity |].
  pose proof (segment_temp_file e
                (mkSegment (cp "Speaker 1") 0 60) w eq_refl eq_refl) as H.
  destruct H as (_ & _ & H). destruct (H eq_refl) as [_ H'].
  destruct (H' (Exception (cp "disk full")) eq_refl) as (Hr & _ & Hf & Hc).
  destruct (transcribe_segment e (mkSegment (cp "Speaker 1") 0 60) w)
    as [r [fs c]].
  cbn in Hr, Hf, Hc. subst. reflexivity.
Defined.

End TranscriberFacts.

(* ------------------------------------------------------------------ *)
(** ** The worker pool: one model call at a time *)

Module PoolFacts.
Import Pool.

Lemma nth_error_update_same (A : Type) (l : list A) (i : nat) (v a : A) :
  nth_error l i = Some a -> nth_error (update l i v) i = Some v.
Proof.
  revert i. induction l as [| b l IH]; intros [| i]; cbn; try discriminate.
  - reflexivity.
  - apply IH.
Qed.

Lemma nth_error_update_other (A : Type) (l : list A) (i j : nat) (v : A) :
  i <> j -> nth_error (update l i v) j = nth_error l j.
Proof.
  revert i j. induction l as [| b l IH]; intros [| i] [| j] Hne; cbn;
    try reflexivity; try congruence.
  apply IH. congruence.
Qed.

Lemma init_invariant (N : nat) : lock_held_in_model (init N).
Proof.
  intros i Hi. unfold in_model, init in Hi. cbn in Hi.
  apply nth_error_In in Hi. apply repeat_spec in Hi. discriminate.
Qed.

(** A step that moves task [i] to a program point other than [InModel]
    and leaves the lock alone keeps the invariant. *)
Lemma goto_invariant (st : state) (i : nat) (p q : pc) :
  lock_held_in_model st ->
  nth_error (tasks st) i = Some p -> p <> InModel -> q <> InModel ->
  lock_held_in_model (mkState (lock st) (update (tasks st) i q)).
Proof.
  intros Inv Hp Hpne Hq j Hj. unfold in_model in *. cbn in *.
  destruct (Nat.eq_dec i j) as [<- | Hne].
  - rewrite (nth_error_update_same _ _ _ _ _ Hp) in Hj. congruence.
  - rewrite nth_error_update_other in Hj by exact Hne. now apply Inv.
Qed.

Lemma step_invariant (K : nat) (st st' : state) (i : nat) (o : outcome) :
  lock_held_in_model st -> step K st i o = Some st' ->
  lock_held_in_model st'.
Proof.
  intros Inv Hstep. unfold step in Hstep.
  destruct (nth_error (tasks st) i) as [p |] eqn:Hp; [| discriminate].
  destruct p.
  - destruct (count running (tasks st) <? K); [| discriminate].
    inversion Hstep; subst. eapply goto_invariant; eauto; discriminate.
  - destruct o; inversion Hstep; subst;
      eapply goto_invariant; eauto; discriminate.
  - destruct o; inversion Hstep; subst;
      eapply goto_invariant; eauto; discriminate.
  - destruct o; inversion Hstep; subst;
      eapply goto_invariant; eauto; discriminate.
  - (* Waiting: the lock is free, so nobody is inside the model *)
    destruct (lock st) as [h |] eqn:Hlock; [discriminate |].
    inversion Hstep; subst. intros j Hj. unfold in_model in *. cbn in *.
    destruct (Nat.eq_dec i j) as [<- | Hne]; [reflexivity |].
    rewrite nth_error_update_other in Hj by exact Hne.
    apply Inv in Hj. congruence.
  - (* InModel: task [i] held the lock, so it was alone *)
    inversion Hstep; subst. intros j Hj. unfold in_model in *. cbn in *.
    destruct (Nat.eq_dec i j) as [<- | Hne].
    + rewrite (nth_error_update_same _ _ _ _ _ Hp) in Hj. discriminate.
    + rewrite nth_error_update_other in Hj by exact Hne.
      pose proof (Inv i Hp) as Hi. pose proof (Inv j Hj) as Hj'.
      congruence.
  - inversion Hstep; subst. eapply goto_invariant; eauto; discriminate.
  - discriminate.
Qed.

Lemma exec_invariant (K : nat) (sch : schedule) (st st' : state) :
  lock_held_in_model st -> exec K st sch = Some st' ->
  lock_held_in_model st'.
Proof.
  revert st. induction sch as [| [i o] sch IH]; intros st Inv Hexec.
  - cbn in Hexec. now inversion Hexec; subst.
  - cbn in Hexec. destruct (step K st i o) as [st1 |] eqn:Hstep;
      [| discriminate].
    eapply IH; [| exact Hexec]. eapply step_invariant; eassumption.
Qed.

Lemma count_update (f : pc -> bool) (l : list pc) (i : nat) (p q : pc) :
  nth_error l i = Some p ->
  count f (update l i q) + (if f p then 1 else 0)
  = count f l + (if f q then 1 else 0).
Proof.
  unfold count. revert i. induction l as [| a l IH]; intros [| i] Hi;
    cbn [nth_error] in Hi; try discriminate.
  - inversion Hi; subst a. cbn [update List.filter].
    destruct (f p), (f q); cbn [length]; lia.
  - cbn [update List.filter]. specialize (IH i Hi).
    destruct (f a); cbn [length]; lia.
Qed.

(** The pool never runs more tasks than it has threads. *)
Lemma step_bound (K : nat) (st st' : state) (i : nat) (o : outcome) :
  count running (tasks st) <= K -> step K st i o = Some st' ->
  count running (tasks st') <= K.
Proof.
  intros Hb Hstep. unfold step in Hstep.
  destruct (nth_error (tasks st) i) as [p |] eqn:Hp; [| discriminate].
  destruct p;
    try (destruct o); try (destruct (lock st));
    try (destruct (Nat.ltb_spec (count running (tasks st)) K));
    try discriminate; inversion Hstep; subst; cbn [tasks];
    match goal with
    | |- count running (update _ _ ?q) <= _ =>
        pose proof (count_update running _ _ _ q Hp) as Hc
    end; cbn [running] in Hc; lia.
Qed.

Lemma pool_never_exceeds_threads (K N : nat) (sch : schedule) (st : state) :
  exec K (init N) sch = Some st -> count running (tasks st) <= K.
Proof.
  assert (H0 : count running (tasks (init N)) <= K).
  { unfold init, count. cbn [tasks]. induction N; cbn; [lia | exact IHN]. }
  revert H0. generalize (init N). revert st.
  induction sch as [| [i o] sch IH]; intros st st0 H0 Hexec; cbn in Hexec.
  - now inversion Hexec; subst.
  - destruct (step K st0 i o) as [st1 |] eqn:Hstep; [| discriminate].
    eapply IH; [| exact Hexec]. eapply step_bound; eassumption.
Qed.

(** Three tasks on two threads can all run to completion. *)
Lemma pool_can_finish :
  exec 2 (init 3)
    [(0, Succeeds); (0, Succeeds); (0, Succeeds); (0, Succeeds);
     (1, Succeeds); (1, Succeeds); (1, Fails);
     (2, Succeeds); (2, Succeeds); (2, Succeeds); (2, Succeeds);
     (0, Succeeds); (0, Succeeds); (2, Succeeds); (2, Fails);
     (0, Succeeds); (2, Succeeds)]
  = Some (mkState None [Finished; Finished; Finished]).
Proof. reflexivity. Qed.

Lemma count_unique (l : list pc) :
  (forall i j, nth_error l i = Some InModel ->
               nth_error l j = Some InModel -> i = j) ->
  count (pc_eqb InModel) l <= 1.
Proof.
  unfold count. induction l as [| p l IH]; intros Huniq;
    [cbn; lia | cbn [List.filter]].
  assert (IHl : length (List.filter (pc_eqb InModel) l) <= 1).
  { apply IH. intros i j Hi Hj.
    assert (E : S i = S j) by (apply Huniq; assumption). congruence. }
  destruct (pc_eqb InModel p) eqn:Ep; [| exact IHl].
  destruct p; try discriminate. cbn [length].
  destruct (List.filter (pc_eqb InModel) l) as [| q rest] eqn:Ef;
    [cbn; lia |].
  exfalso.
  assert (Hq : In q (List.filter (pc_eqb InModel) l)) by (rewrite Ef; now left).
  apply filter_In in Hq. destruct Hq as [Hq Eq].
  destruct q; try discriminate.
  apply In_nth_error in Hq. destruct Hq as [j Hj].
  assert (E : 0 = S j) by (apply Huniq; [reflexivity | exact Hj]).
  discriminate.
Qed.

(** C9.  In every state the pool reaches, under every schedule of [N]
    tasks on [K] threads, a task that is inside [model.transcribe] holds
    the model lock, so at most one task is inside the model at a time.
    Extraction and export are not serialised: two tasks can be exporting
    at once. *)
Theorem model_calls_exclusive (K N : nat) (sch : schedule) (st : state) :
  exec K (init N) sch = Some st ->
  (forall i, in_model st i -> lock st = Some i)
  /\ (forall i j, in_model st i -> in_model st j -> i = j)
  /\ holders st <= 1
  /\ exists (sch2 : schedule) (st2 : state),
       exec 2 (init 3) sch2 = Some st2
       /\ nth_error (tasks st2) 0 = Some Exporting
       /\ nth_error (tasks st2) 1 = Some Exporting.
Proof.
  intros Hexec.
  assert (Inv : lock_held_in_model st).
  { eapply exec_invariant; [apply init_invariant | exact Hexec]. }
  assert (Huniq : forall i j, in_model st i -> in_model st j -> i = j).
  { intros i j Hi Hj. apply Inv in Hi. apply Inv in Hj. congruence. }
  split; [exact Inv |]. split; [exact Huniq |].
  split; [apply count_unique; exact Huniq |].
  exists [(0, Succeeds); (1, Succeeds); (0, Succeeds); (1, Succeeds);
          (0, Succeeds); (1, Succeeds)].
  eexists. split; [reflexivity |]. split; reflexivity.
Qed.

(** Witness for C9: three tasks on two threads; task 0 is inside the
    model while task 1 waits for the lock and task 2 is still queued. *)
Lemma model_calls_exclusive_witness :
  exec 2 (init 3)
    [(0, Succeeds); (0, Succeeds); (0, Succeeds); (0, Succeeds);
     (1, Succeeds); (1, Succeeds); (1, Succeeds); (1, Succeeds);
     (0, Succeeds)]
  = Some (mkState (Some 0) [InModel; Waiting; Queued])
  /\ step 2 (mkState (Some 0) [InModel; Waiting; Queued]) 1 Succeeds = None
  /\ step 2 (mkState (Some 0) [InModel; Waiting; Queued]) 2 Succeeds = None
  /\ holders (mkState (Some 0) [InModel; Waiting; Queued]) <= 1.
Proof.
  split; [reflexivity |]. split; [reflexivity |]. split; [reflexivity |].
  exact (proj1 (proj2 (proj2
    (model_calls_exclusive 2 3
       [(0, Succeeds); (0, Succeeds); (0, Succeeds); (0, Succeeds);
        (1, Succeeds); (1, Succeeds); (1, Succeeds); (1, Succeeds);
        (0, Succeeds)]
       (mkState (Some 0) [InModel; Waiting; Queued]) eq_refl)))).
Defined.

End PoolFacts.

(* ================================================================== *)
(** * Properties of the orchestrator *)
(* ================================================================== *)

(* ------------------------------------------------------------------ *)
(** ** Traces of the coordinating thread *)

Local Arguments cp : simpl never.

Lemma progress_events_app (a b : list event) :
  progress_events (a ++ b) = progress_events a ++ progress_events b.
Proof.
  induction a as [| ev a IH]; cbn; [reflexivity |].
  destruct (progress_of ev); cbn; now rewrite IH.
Qed.

Lemma silent_app (a b : list event) :
  silent (a ++ b) <-> silent a /\ silent b.
Proof. unfold silent. rewrite forallb_app. apply andb_true_iff. Qed.

Lemma unstopped_app (a b : list event) :
  unstopped (a ++ b) <-> unstopped a /\ unstopped b.
Proof. unfold unstopped. rewrite forallb_app. apply andb_true_iff. Qed.

Lemma silent_no_output (tr : list event) :
  silent tr -> List.filter is_output tr = [].
Proof.
  unfold silent. induction tr as [| ev tr IH]; cbn; [reflexivity |].
  intros H. apply andb_true_iff in H. destruct H as [Hev Htr].
  destruct (is_output ev); [discriminate | auto].
Qed.

Lemma stop_observed_not_unstopped (tr : list event) :
  stop_observed tr -> ~ unstopped tr.
Proof.
  intros [ck Hin] Hun. unfold unstopped in Hun.
  rewrite forallb_forall in Hun. apply Hun in Hin. discriminate.
Qed.

(* ------------------------------------------------------------------ *)
(** ** The completion loop when the stop flag stays clear *)

Section Loop.

Variable inp : run_input.
Variable segs : list Segment.
Hypothesis never_set : forall k, is_set inp (AtCompletion k) = false.

Lemma collect_run (segment : Segment) (i : nat) (st : loop_state)
      (tr : list event) :
  nth_error segs i = Some segment ->
  exists st' tr',
    collect inp segment (result_of inp i) st tr = (inr st', tr')
    /\ all_segments st' = all_segments st ++ transcribed inp segs i
    /\ transcription st' = transcription st ++ transcript_line inp segs i
    /\ List.filter is_output tr' = List.filter is_output tr
    /\ progress_events tr' = progress_events tr.
Proof.
  intros Hi. unfold collect, transcribed, transcript_line. rewrite Hi.
  destruct (result_of inp i) as [e | [| c text]].
  - eexists. eexists. split; [reflexivity |].
    rewrite !app_nil_r, filter_app, progress_events_app, !app_nil_r.
    auto.
  - exists st, tr. rewrite !app_nil_r. auto.
  - eexists. eexists. split; [reflexivity |]. cbn. auto.
Qed.

Lemma loop_body_run (k i : nat) (st : loop_state) (tr : list event) :
  i < length segs ->
  exists st' tr',
    loop_body inp segs k i st tr = (inr st', tr')
    /\ all_segments st' = all_segments st ++ transcribed inp segs i
    /\ transcription st' = transcription st ++ transcript_line inp segs i
    /\ List.filter is_output tr' = List.filter is_output tr
    /\ progress_events tr' =
       progress_events tr
         ++ [(progress_percentage (len (all_segments st')) (len segs),
              transcribed_status (len (all_segments st')) (len segs))].
Proof.
  intros Hi. apply nth_error_Some in Hi.
  destruct (nth_error segs i) as [segment |] eqn:Hseg; [| congruence].
  unfold loop_body, check_stop. rewrite never_set, Hseg.
  destruct (collect_run segment i st (tr ++ [StopRead (AtCompletion k) false])
              Hseg) as (st' & tr' & E & Ha & Ht & Hf & Hp).
  exists st'. eexists. unfold bind, emit, ret at 1. cbn. rewrite E.
  split; [reflexivity |].
  rewrite filter_app, progress_events_app, Hf, Hp.
  rewrite filter_app, progress_events_app. cbn. rewrite !app_nil_r.
  auto.
Qed.

Lemma completion_loop_run (order : list nat) (k : nat) (st : loop_state)
      (tr : list event) :
  Forall (fun i => i < length segs) order ->
  exists st' tr',
    completion_loop inp segs k order st tr = (inr st', tr')
    /\ all_segments st' =
       all_segments st ++ flat_map (transcribed inp segs) order
    /\ transcription st' =
       transcription st
         ++ concat (List.map (transcript_line inp segs) order)
    /\ List.filter is_output tr' = List.filter is_output tr
    /\ progress_events tr' =
       progress_events tr
         ++ List.map
              (fun j =>
                 let completed :=
                   len (all_segments st
                          ++ flat_map (transcribed inp segs)
                               (firstn (S j) order)) in
                 (progress_percentage completed (len segs),
                  transcribed_status completed (len segs)))
              (seq 0 (length order)).
Proof.
  revert k st tr. induction order as [| i order IH]; intros k st tr Hall.
  - exists st, tr. cbn. rewrite !app_nil_r. auto.
  - apply Forall_cons_iff in Hall. destruct Hall as [Hi Hall].
    destruct (loop_body_run k i st tr Hi)
      as (st1 & tr1 & E1 & Ha1 & Ht1 & Hf1 & Hp1).
    destruct (IH (S k) st1 tr1 Hall)
      as (st' & tr' & E & Ha & Ht & Hf & Hp).
    exists st', tr'. cbn [completion_loop]. unfold bind at 1.
    rewrite E1, E. split; [reflexivity |].
    split; [| split; [| split]].
    + rewrite Ha, Ha1. cbn [flat_map]. now rewrite app_assoc.
    + rewrite Ht, Ht1. cbn [List.map concat]. now rewrite app_assoc.
    + congruence.
    + rewrite Hp, Hp1. cbn [length seq List.map].
      rewrite <- seq_shift, map_map, <- app_assoc. cbn [app].
      f_equal. f_equal.
      * cbn [firstn flat_map]. rewrite Ha1, app_nil_r. reflexivity.
      * apply map_ext. intros j. cbn zeta.
        rewrite firstn_cons. cbn [flat_map].
        rewrite Ha1, <- app_assoc. reflexivity.
Qed.

End Loop.

(** [int(20 + 80 * completed / total)] in integer arithmetic. *)
Lemma progress_percentage_floor (completed total : Z) :
  (0 <= completed)%Z -> (0 < total)%Z ->
  progress_percentage completed total = (20 + 80 * completed / total)%Z.
Proof.
  intros Hc Ht. unfold progress_percentage, int_of_float.
  destruct total as [| p | p]; try lia.
  cbn [inject_Z Qdiv Qmult Qinv Qplus Qnum Qden].
  rewrite Z.quot_div_nonneg by lia.
  rewrite !Pos.mul_1_l, !Z.mul_1_r.
  rewrite Z.div_add_l by lia. reflexivity.
Qed.

(* ------------------------------------------------------------------ *)
(** ** Cancellation *)

Lemma safe_ret (A : Type) (a : A) : cancel_safe (ret a).
Proof. intros tr Hs Hu. split; assumption. Qed.

Lemma safe_raise (A : Type) (e : exn) : cancel_safe (raise A e).
Proof. intros tr Hs Hu. split; [assumption | now left]. Qed.

Lemma safe_lift (A : Type) (r : exn + A) : cancel_safe (lift r).
Proof. destruct r; [apply safe_raise | apply safe_ret]. Qed.

Lemma safe_emit (ev : event) :
  is_output ev = false -> is_stop_read ev = false -> cancel_safe (emit ev).
Proof.
  intros Ho Hr tr Hs Hu. split; cbn.
  - apply silent_app. split; [assumption |]. unfold silent. cbn.
    now rewrite Ho.
  - apply unstopped_app. split; [assumption |]. unfold unstopped. cbn.
    now rewrite Hr.
Qed.

Lemma safe_bind (A B : Type) (m : M A) (f : A -> M B) :
  cancel_safe m -> (forall a, cancel_safe (f a)) -> cancel_safe (bind m f).
Proof.
  intros Hm Hf tr Hs Hu. unfold bind.
  specialize (Hm tr Hs Hu). destruct (m tr) as [[e | a] tr'].
  - exact Hm.
  - destruct Hm as [Hs' Hu']. now apply Hf.
Qed.

Lemma safe_check_stop (inp : run_input) (ck : checkpoint) :
  cancel_safe (check_stop inp ck).
Proof.
  intros tr Hs Hu. unfold check_stop, bind, emit.
  destruct (is_set inp ck) eqn:E; cbn.
  - split; [| now right].
    apply silent_app. split; [assumption | reflexivity].
  - split.
    + apply silent_app. split; [assumption | reflexivity].
    + apply unstopped_app. split; [assumption | reflexivity].
Qed.

Lemma safe_plan (inp : run_input) : cancel_safe (plan inp).
Proof.
  unfold plan. destruct (diarization inp) as [pipeline_result |].
  - apply safe_bind; [now apply safe_emit |]. intros _.
    apply safe_bind; [apply safe_lift |]. intros turns.
    apply safe_bind; [apply safe_check_stop |]. intros _.
    apply safe_bind; [apply safe_lift |]. intros speaker_segments.
    apply safe_bind; [now apply safe_emit |]. intros _. apply safe_ret.
  - apply safe_bind; [now apply safe_emit |]. intros _.
    apply safe_bind; [apply safe_lift |]. intros speaker_segments.
    apply safe_bind; [now apply safe_emit |]. intros _. apply safe_ret.
Qed.

Lemma safe_collect (inp : run_input) (segment : Segment)
      (r : exn + pystr) (st : loop_state) :
  cancel_safe (collect inp segment r st).
Proof.
  unfold collect. destruct r as [e | [| c text]].
  - apply safe_bind; [now apply safe_emit |]. intros _. apply safe_ret.
  - apply safe_ret.
  - apply safe_ret.
Qed.

Lemma safe_loop_body (inp : run_input) (segs : list Segment) (k i : nat)
      (st : loop_state) :
  cancel_safe (loop_body inp segs k i st).
Proof.
  unfold loop_body.
  apply safe_bind; [apply safe_check_stop |]. intros _.
  destruct (nth_error segs i) as [segment |]; [| apply safe_ret].
  apply safe_bind; [apply safe_collect |]. intros st'.
  apply safe_bind; [now apply safe_emit |]. intros _. apply safe_ret.
Qed.

Lemma safe_completion_loop (inp : run_input) (segs : list Segment)
      (order : list nat) (k : nat) (st : loop_state) :
  cancel_safe (completion_loop inp segs k order st).
Proof.
  revert k st. induction order as [| i order IH]; intros k st; cbn.
  - apply safe_ret.
  - apply safe_bind; [apply safe_loop_body |]. intros st'. apply IH.
Qed.

(** A cancel-safe step followed by a step that ends well ends well. *)
Lemma final_bind (A : Type) (m : M A) (f : A -> M unit) :
  cancel_safe m ->
  (forall a tr, silent tr -> unstopped tr -> final_post (f a tr)) ->
  forall tr, silent tr -> unstopped tr -> final_post (bind m f tr).
Proof.
  intros Hm Hf tr Hs Hu. unfold bind.
  specialize (Hm tr Hs Hu). destruct (m tr) as [[e | a] tr'].
  - destruct Hm as [Hs' [Hu' | He]]; cbn in *.
    + now left.
    + right. split; assumption.
  - destruct Hm as [Hs' Hu']. now apply Hf.
Qed.

Lemma run_body_final (inp : run_input) : final_post (run_body inp []).
Proof.
  unfold run_body.
  apply final_bind; [apply safe_plan | | reflexivity | reflexivity].
  intros segs tr0 Hs0 Hu0.
  apply final_bind; [apply safe_check_stop | | assumption | assumption].
  intros _ tr1 Hs1 Hu1.
  apply final_bind; [now apply safe_emit | | assumption | assumption].
  intros _ tr2 Hs2 Hu2.
  apply final_bind;
    [apply safe_completion_loop | | assumption | assumption].
  intros st tr3 Hs3 Hu3.
  unfold bind, emit, final_post.
  destruct (is_set inp AfterLoop) eqn:E; cbn [fst snd].
  - right. split.
    + repeat (apply silent_app; split); try assumption; reflexivity.
    + rewrite !progress_events_app. cbn [progress_events progress_of].
      rewrite !app_nil_r. apply last_last.
  - left. destruct (srt_var inp); cbn [fst snd];
      repeat (apply unstopped_app; split); try assumption; reflexivity.
Qed.

Lemma handler_quiet (e : exn) :
  silent (handler e) /\ unstopped (handler e).
Proof.
  unfold handler. destruct (pystr_eqb (str_of_exn e) STOPPED);
    split; reflexivity.
Qed.

(** C8.  When the stop flag is read as set at a checkpoint of the run
    (after diarization, before the loop, at a completed task, or after the
    loop), the last progress report of the run is
    [(0, "Transcription stopped.")] and no transcript or subtitle text is
    handed over for display or saving. *)
Theorem cancelled_run_reports_stopped (inp : run_input) :
  stop_observed (transcribe_file inp) ->
  last (progress_events (transcribe_file inp)) (100%Z, [])
  = (0%Z, cp "Transcription stopped.")
  /\ List.filter is_output (transcribe_file inp) = []
  /\ forall ev, In ev (transcribe_file inp) -> is_output ev = false.
Proof.
  intros Hstop.
  assert (Hmain :
    last (progress_events (transcribe_file inp)) (100%Z, [])
    = (0%Z, cp "Transcription stopped.")
    /\ silent (transcribe_file inp)).
  { unfold transcribe_file in *.
    pose proof (run_body_final inp) as Hfinal.
    destruct (run_body inp []) as [r tr]. unfold final_post in Hfinal.
    cbn [fst snd] in Hfinal.
    destruct Hfinal as [Hun | [Hsil Hr]].
    - exfalso. apply stop_observed_not_unstopped in Hstop. apply Hstop.
      apply unstopped_app. split; [| reflexivity].
      destruct r as [e |]; [| exact Hun].
      apply unstopped_app. split; [exact Hun | apply handler_quiet].
    - destruct r as [e | []].
      + subst e. change (handler (Exception STOPPED))
          with [Progress 0 (cp "Transcription stopped.")].
        split.
        * rewrite !progress_events_app. cbn [progress_events progress_of].
          rewrite app_nil_r. apply last_last.
        * repeat (apply silent_app; split); try assumption; reflexivity.
      + split.
        * rewrite progress_events_app. cbn [progress_events progress_of].
          rewrite app_nil_r. exact Hr.
        * apply silent_app. split; [assumption | reflexivity]. }
  destruct Hmain as [Hlast Hsil]. split; [exact Hlast |].
  split; [now apply silent_no_output |].
  intros ev Hin. unfold silent in Hsil. rewrite forallb_forall in Hsil.
  apply Hsil in Hin. now destruct (is_output ev).
Qed.

(** Witness for C8: the flag is found set when the second of three
    futures completes. *)
Lemma cancelled_run_reports_stopped_witness :
  stop_observed
    (transcribe_file
       (example_run true at_second_completion [2; 0; 1]
                    [cp "a"; cp "b"; cp "c"]))
  /\ last (progress_events
             (transcribe_file
                (example_run true at_second_completion [2; 0; 1]
                             [cp "a"; cp "b"; cp "c"])))
          (100%Z, [])
     = (0%Z, cp "Transcription stopped.").
Proof.
  assert (H : stop_observed
                (transcribe_file
                   (example_run true at_second_completion [2; 0; 1]
                                [cp "a"; cp "b"; cp "c"]))).
  { exists (AtCompletion 1). vm_compute. auto 20. }
  split; [exact H |].
  exact (proj1 (cancelled_run_reports_stopped _ H)).
Defined.




(** C2 (amended).  After each completed task the loop reports the
    progress [int(20 + 80 * completed / total)], that is
    [20 + 80 * completed / total] rounded down, where [completed] is the
    number of segments transcribed with a non-empty text so far: a task
    that returned the empty text, or raised, adds no line to the transcript
    and does not advance the count. *)
Theorem progress_counts_transcribed (inp : run_input)
        (segs : list Segment) (tr0 : list event) :
  (forall k, is_set inp (AtCompletion k) = false) ->
  Forall (fun i => i < length segs) (completion inp) ->
  (exists st tr,
      completion_loop inp segs 0 (completion inp) (mkLoop [] []) tr0
      = (inr st, tr)
      /\ progress_events tr =
         progress_events tr0
           ++ List.map
                (fun j =>
                   let completed :=
                     len (flat_map (transcribed inp segs)
                                   (firstn (S j) (completion inp))) in
                   (progress_percentage completed (len segs),
                    transcribed_status completed (len segs)))
                (seq 0 (length (completion inp))))
  /\ (forall i, result_of inp i = inr [] ->
        transcribed inp segs i = [] /\ transcript_line inp segs i = [])
  /\ (forall i e, result_of inp i = inl e ->
        transcribed inp segs i = [] /\ transcript_line inp segs i = [])
  /\ (forall completed total : Z,
        (0 <= completed)%Z -> (0 < total)%Z ->
        progress_percentage completed total
        = (20 + 80 * completed / total)%Z).
Proof.
  intros Hloop Hvalid. split; [| split; [| split]].
  - destruct (completion_loop_run inp segs Hloop (completion inp) 0
                (mkLoop [] []) tr0 Hvalid)
      as (st & tr & E & _ & _ & _ & Hp).
    exists st, tr. split; [exact E |]. exact Hp.
  - intros i Hi. unfold transcribed, transcript_line. rewrite Hi.
    destruct (nth_error segs i); auto.
  - intros i e Hi. unfold transcribed, transcript_line. rewrite Hi.
    destruct (nth_error segs i); auto.
  - apply progress_percentage_floor.
Qed.

(** Witness for C2: three tasks, the first to complete returns no text. *)
Lemma progress_counts_transcribed_witness :
  exists st tr,
    completion_loop
      (example_run false never [1; 0; 2] [cp "a"; []; cp "c"])
      [mkSegment (cp "Speaker 1") 0 60;
       mkSegment (cp "Speaker 1") 60 120;
       mkSegment (cp "Speaker 1") 120 125]
      0 [1; 0; 2] (mkLoop [] []) []
    = (inr st, tr)
    /\ List.map fst (progress_events tr) = [20; 46; 73]%Z.
Proof.
  destruct (progress_counts_transcribed
              (example_run false never [1; 0; 2] [cp "a"; []; cp "c"])
              [mkSegment (cp "Speaker 1") 0 60;
               mkSegment (cp "Speaker 1") 60 120;
               mkSegment (cp "Speaker 1") 120 125]
              [] (fun _ => eq_refl))
    as [(st & tr & E & Hp) _].
  - repeat constructor.
  - exists st, tr. split; [exact E |]. rewrite Hp. vm_compute. reflexivity.
Defined.

(** C2, as stated, fails.  With one 30-second segment the report after
    the only task is 100, not [10 + 80 * 1 / 1 = 90].  With three segments
    of which the first to complete returns no text, the reports are 20, 46
    and 73, not [10 + 80 * k / 3] for [k = 1, 2, 3] (36, 63 and 90): the
    task without text does not advance the report. *)
Lemma progress_starts_at_20_and_skips_empty :
  fixed_grid MAX_CHUNK_DURATION 30 = inr [mkSegment (cp "Speaker 1") 0 30]
  /\ loop_reports
       (mkRun 0 30 None false 4 never [0] (fun _ => inr (cp "a")))
       [mkSegment (cp "Speaker 1") 0 30]
     = [100%Z]
  /\ spec_progress 1 1 = 90%Z
  /\ fixed_grid MAX_CHUNK_DURATION 125 = inr example_segments
  /\ loop_reports
       (example_run false never [1; 0; 2] [cp "a"; []; cp "c"])
       example_segments
     = [20; 46; 73]%Z
  /\ List.map (fun k => spec_progress k 3) [1; 2; 3]%Z = [36; 63; 90]%Z
  /\ List.map fst
       (progress_events
          (transcribe_file
             (example_run false never [1; 0; 2] [cp "a"; []; cp "c"])))
     = [10; 20; 20; 46; 73; 100]%Z.
Proof. repeat split; vm_compute; reflexivity. Qed.

(* ================================================================== *)
(** * Further properties of the program *)
(* ================================================================== *)

(* ------------------------------------------------------------------ *)
(** ** [format_time] against [parse_time] *)

Lemma two_digits (z : Z) :
  (0 <= z < 100)%Z ->
  format_0w 2 z = [Z.to_N (48 + z / 10); Z.to_N (48 + z mod 10)].
Proof.
  intros Hz.
  assert (H : forall k : nat, (k < 100)%nat ->
            format_0w 2 (Z.of_nat k)
            = [Z.to_N (48 + Z.of_nat k / 10);
               Z.to_N (48 + Z.of_nat k mod 10)]).
  { intros k Hk.
    do 100 (destruct k as [| k]; [vm_compute; reflexivity |]). lia. }
  rewrite <- (Z2Nat.id z) by lia. apply H. lia.
Qed.

Lemma uint_digits_ascii (u : Decimal.uint) :
  Forall (fun c => (48 <= c <= 57)%N) (uint_digits u).
Proof. induction u; cbn; constructor; auto; lia. Qed.

Lemma uint_digits_inj (u v : Decimal.uint) :
  uint_digits u = uint_digits v -> u = v.
Proof.
  revert v. induction u; destruct v; cbn; intros H;
    try discriminate; try reflexivity;
    inversion H; f_equal; auto.
Qed.

Lemma digits_of_inj (x y : Z) :
  (0 <= x)%Z -> (0 <= y)%Z -> digits_of x = digits_of y -> x = y.
Proof.
  intros Hx Hy H. unfold digits_of in H.
  apply uint_digits_inj, DecimalN.Unsigned.to_uint_inj in H. lia.
Qed.

Lemma str_of_int_inj (x y : Z) :
  (0 <= x)%Z -> (0 <= y)%Z -> str_of_int x = str_of_int y -> x = y.
Proof.
  intros Hx Hy. unfold str_of_int.
  destruct (Z.ltb_spec x 0); [lia |].
  destruct (Z.ltb_spec y 0); [lia |].
  now apply digits_of_inj.
Qed.

(** A number written with at most two digits is below 100. *)
Lemma short_digits (z : Z) :
  (0 <= z)%Z -> (length (digits_of z) <= 2)%nat -> (z < 100)%Z.
Proof.
  intros Hz Hlen. unfold digits_of in Hlen.
  assert (Hn : (N.of_uint (N.to_uint (Z.abs_N z)) < 100)%N).
  { destruct (N.to_uint (Z.abs_N z)) as [| u | u | u | u | u | u | u | u | u | u];
      cbn in Hlen; try (vm_compute; reflexivity);
      destruct u as [| u | u | u | u | u | u | u | u | u | u];
      cbn in Hlen; try (vm_compute; reflexivity);
      destruct u; cbn in Hlen; try lia; vm_compute; reflexivity. }
  rewrite DecimalN.Unsigned.of_to in Hn. lia.
Qed.

Section ClockFacts.

Variable decimal : N -> option Z.
Hypothesis decimal_ascii :
  forall c, (48 <= c <= 57)%N -> decimal c = Some (Z.of_N c - 48)%Z.
Hypothesis colon_not_decimal : decimal COLON = None.
Hypothesis newline_not_decimal : decimal LF = None.

Lemma ascii_is_decimal (c : N) :
  (48 <= c <= 57)%N -> is_decimal decimal c.
Proof. intros Hc. exists (Z.of_N c - 48)%Z. auto. Qed.

Lemma two_digit_field_value (z : Z) :
  (0 <= z < 100)%Z ->
  field_value decimal (F2 (Z.to_N (48 + z / 10)) (Z.to_N (48 + z mod 10)))
  = z.
Proof.
  intros Hz. unfold field_value. cbn [chars int_digits].
  assert (0 <= z / 10 <= 9)%Z.
  { Z.div_mod_to_equations; lia. }
  pose proof (Z.mod_pos_bound z 10 ltac:(lia)).
  rewrite !decimal_ascii by lia.
  rewrite !Z2N.id by lia.
  pose proof (Z.div_mod z 10 ltac:(lia)). lia.
Qed.

(** The clock string of [n] seconds, for less than 100 hours. *)
Lemma format_time_shape (n : Z) :
  (0 <= n < 360000)%Z ->
  format_time n =
  chars (F2 (Z.to_N (48 + n / 3600 / 10)) (Z.to_N (48 + (n / 3600) mod 10)))
    ++ [COLON]
    ++ chars (F2 (Z.to_N (48 + n mod 3600 / 60 / 10))
                 (Z.to_N (48 + (n mod 3600 / 60) mod 10)))
    ++ [COLON]
    ++ chars (F2 (Z.to_N (48 + n mod 60 / 10))
                 (Z.to_N (48 + (n mod 60) mod 10)))
    ++ [].
Proof.
  intros Hn. unfold format_time. cbn zeta.
  assert (0 <= n / 3600 < 100)%Z.
  { Z.div_mod_to_equations; lia. }
  pose proof (Z.mod_pos_bound n 3600 ltac:(lia)).
  assert (0 <= n mod 3600 / 60 < 60)%Z.
  { Z.div_mod_to_equations; lia. }
  pose proof (Z.mod_pos_bound n 60 ltac:(lia)).
  rewrite !two_digits by lia. reflexivity.
Qed.

(** X1.  [parse_time] reads back what [format_time] writes: for every
    number of seconds below 100 hours, [parse_time(format_time(n)) == n].
    From 100 hours on the hours field has three digits and [parse_time]
    rejects the string. *)
Theorem parse_time_format_time (n : Z) :
  (0 <= n)%Z ->
  ((n < 360000)%Z -> parse_time decimal (format_time n) = inr n)
  /\ ((360000 <= n)%Z ->
      parse_time decimal (format_time n)
      = inl (ValueError (cp "Time must be in [hh:mm:ss] format."))).
Proof.
  intros Hn0. split.
  - intros Hn.
    assert (Hh : (0 <= n / 3600 < 100)%Z).
    { Z.div_mod_to_equations; lia. }
    pose proof (Z.mod_pos_bound n 3600 ltac:(lia)) as Hr.
    assert (Hm : (0 <= n mod 3600 / 60 < 60)%Z).
    { Z.div_mod_to_equations; lia. }
    pose proof (Z.mod_pos_bound n 60 ltac:(lia)) as Hs.
    assert (Hm10 : (0 <= n mod 3600 / 60 / 10 <= 5)%Z).
    { Z.div_mod_to_equations; lia. }
    assert (Hs10 : (0 <= n mod 60 / 10 <= 5)%Z).
    { Z.div_mod_to_equations; lia. }
    assert (Hh10 : (0 <= n / 3600 / 10 <= 9)%Z).
    { Z.div_mod_to_equations; lia. }
    pose proof (Z.mod_pos_bound (n / 3600) 10 ltac:(lia)).
    pose proof (Z.mod_pos_bound (n mod 3600 / 60) 10 ltac:(lia)).
    pose proof (Z.mod_pos_bound (n mod 60) 10 ltac:(lia)).
    assert (Hsum : (n / 3600 * 3600 + (n mod 3600 / 60) * 60 + n mod 60
                    = n)%Z) by (Z.div_mod_to_equations; lia).
    pose proof (parse_time_complete decimal decimal_ascii colon_not_decimal
                  newline_not_decimal (format_time n)
                  (n / 3600)%Z (n mod 3600 / 60)%Z (n mod 60)%Z) as Hc.
    rewrite Hsum in Hc. apply Hc.
    rewrite format_time_shape by lia.
    eexists _, _, _, false. split; [reflexivity |].
    cbn [hours_field sixty_field].
    rewrite !two_digit_field_value by lia.
    repeat split; try reflexivity; try lia;
      apply ascii_is_decimal; lia.
  - intros Hn.
    destruct (parse_time decimal (format_time n)) as [e | v] eqn:E.
    + f_equal. eapply parse_time_error; eassumption.
    + exfalso.
      apply (parse_time_sound decimal decimal_ascii) in E.
      destruct E as (h & m & sec & Hacc & _).
      destruct Hacc as (fh & fm & fs & nl & Hs & Hh & _).
      unfold format_time in Hs. cbn zeta in Hs.
      set (hours := (n / 3600)%Z) in *.
      assert (Hhours : (100 <= hours)%Z).
      { subst hours. Z.div_mod_to_equations; lia. }
      assert (Hlen : (3 <= length (digits_of hours))%nat).
      { destruct (Nat.le_gt_cases (length (digits_of hours)) 2) as [Hle | Hgt];
          [| lia].
        apply short_digits in Hle; lia. }
      assert (Hdig : Forall (fun c => (48 <= c <= 57)%N) (digits_of hours))
        by apply uint_digits_ascii.
      unfold format_0w in Hs at 1. cbn zeta in Hs.
      destruct (Z.ltb_spec hours 0) as [Hneg | _]; [lia |].
      replace (2 - length (digits_of hours))%nat with 0%nat in Hs by lia.
      cbn [repeat app] in Hs.
      destruct (digits_of hours) as [| d1 [| d2 [| d3 ds]]];
        cbn in Hlen; try lia.
      inversion Hdig as [| ? ? H1 Hdig']; subst.
      inversion Hdig' as [| ? ? H2 Hdig'']; subst.
      inversion Hdig'' as [| ? ? H3 _]; subst.
      destruct fh as [a | a b]; cbn in Hs; inversion Hs; subst;
        unfold COLON in *; lia.
Qed.

End ClockFacts.

(** Witness for X1: one hour, one minute and one second. *)
Lemma parse_time_format_time_witness :
  (0 <= 3661)%Z
  /\ format_time 3661 = cp "01:01:01"
  /\ parse_time ascii_decimal (format_time 3661) = inr 3661%Z.
Proof.
  split; [lia |]. split; [vm_compute; reflexivity |].
  apply (parse_time_format_time ascii_decimal ascii_decimal_ascii
           eq_refl eq_refl 3661); lia.
Defined.

(* ------------------------------------------------------------------ *)
(** ** [str.strip] *)

Lemma lstrip_head (s : pystr) :
  match lstrip s with
  | c :: _ => isspace c = false
  | [] => True
  end.
Proof.
  induction s as [| c s IH]; cbn [lstrip]; [exact I |].
  destruct (isspace c) eqn:E; [exact IH | exact E].
Qed.

Lemma lstrip_fixed (s : pystr) :
  match s with
  | c :: _ => isspace c = false
  | [] => True
  end ->
  lstrip s = s.
Proof.
  destruct s as [| c s]; cbn [lstrip]; [reflexivity |].
  intros E. now rewrite E.
Qed.

Lemma lstrip_idem (s : pystr) : lstrip (lstrip s) = lstrip s.
Proof. apply lstrip_fixed, lstrip_head. Qed.

(** [lstrip] removes a prefix. *)
Lemma lstrip_suffix (s : pystr) : exists p, s = p ++ lstrip s.
Proof.
  induction s as [| c s [p IH]]; cbn [lstrip].
  - now exists [].
  - destruct (isspace c).
    + exists (c :: p). cbn. now f_equal.
    + now exists [].
Qed.

(** [rstrip] removes a suffix. *)
Lemma rstrip_prefix (s : pystr) : exists p, s = rstrip s ++ p.
Proof.
  unfold rstrip. destruct (lstrip_suffix (rev s)) as [p Hp].
  exists (rev p). rewrite <- rev_app_distr, <- Hp. now rewrite rev_involutive.
Qed.

Lemma rstrip_idem (s : pystr) : rstrip (rstrip s) = rstrip s.
Proof. unfold rstrip. now rewrite rev_involutive, lstrip_idem. Qed.

Lemma rstrip_last (s a : pystr) (c : N) :
  rstrip s = a ++ [c] -> isspace c = false.
Proof.
  unfold rstrip. intros H.
  apply (f_equal (@rev N)) in H. rewrite rev_involutive, rev_unit in H.
  pose proof (lstrip_head (rev s)) as Hh. now rewrite H in Hh.
Qed.

(** The stripped string neither starts nor ends with a blank. *)
Lemma strip_ends (s : pystr) :
  match strip s with
  | c :: _ => isspace c = false
  | [] => True
  end
  /\ forall a c, strip s = a ++ [c] -> isspace c = false.
Proof.
  unfold strip. split; [| apply rstrip_last].
  destruct (rstrip_prefix (lstrip s)) as [p Hp].
  pose proof (lstrip_head s) as Hh. rewrite Hp in Hh.
  destruct (rstrip (lstrip s)); [exact I | exact Hh].
Qed.

Lemma strip_idem (s : pystr) : strip (strip s) = strip s.
Proof.
  unfold strip at 1.
  rewrite (lstrip_fixed (strip s)) by apply strip_ends.
  unfold strip. apply rstrip_idem.
Qed.

Lemma strip_nil : strip [] = [].
Proof. reflexivity. Qed.

(* ------------------------------------------------------------------ *)
(** ** The time range of a run *)

Section RangeFacts.

Variable decimal : N -> option Z.
Hypothesis decimal_ascii :
  forall c, (48 <= c <= 57)%N -> decimal c = Some (Z.of_N c - 48)%Z.
Hypothesis decimal_value :
  forall c v, decimal c = Some v -> (0 <= v <= 9)%Z.
Hypothesis colon_not_decimal : decimal COLON = None.
Hypothesis newline_not_decimal : decimal LF = None.

(** What [parse_time] returns lies between 0 and 99:59:59. *)
Lemma parse_time_bounds (s : pystr) (n : Z) :
  parse_time decimal s = inr n -> (0 <= n <= 359999)%Z.
Proof.
  intros H.
  apply (parse_time_sound decimal decimal_ascii) in H.
  destruct H as (h & m & sec & Hacc & ->).
  destruct Hacc as (fh & fm & fs & nl & _ & Hh & Hm & Hs & -> & -> & ->).
  pose proof (hours_field_value decimal decimal_value fh Hh).
  pose proof (sixty_field_value decimal decimal_ascii decimal_value fm Hm).
  pose proof (sixty_field_value decimal decimal_ascii decimal_value fs Hs).
  lia.
Qed.

(** X2.  When the range checks at the head of [transcribe_file] pass,
    the range is a non-empty part of the audio: the audio was decoded,
    [0 <= start_sec < end_sec <= audio_length], the start is the parsed
    start field, and the end is the audio length for an empty end field
    and otherwise the parsed end field, cut down to the audio length. *)
Theorem validated_range_in_audio (start_field end_field : pystr)
        (audio : exn + Z) (start_sec : Z) (end_sec : Q) :
  validate_range decimal start_field end_field audio
  = inr (start_sec, end_sec) ->
  exists audio_ms : Z,
    audio = inr audio_ms
    /\ parse_time decimal (strip start_field) = inr start_sec
    /\ (0 <= start_sec <= 359999)%Z
    /\ (inject_Z start_sec < end_sec)%Q
    /\ (end_sec <= inject_Z audio_ms / 1000)%Q
    /\ ((strip end_field = [] /\ end_sec = (inject_Z audio_ms / 1000)%Q)
        \/ exists e : Z,
             parse_time decimal (strip end_field) = inr e
             /\ (start_sec < e)%Z
             /\ end_sec = (if Qle_bool (inject_Z e) (inject_Z audio_ms / 1000)
                           then inject_Z e
                           else (inject_Z audio_ms / 1000)%Q)).
Proof.
  unfold validate_range. cbn zeta.
  destruct (parse_time decimal (strip start_field)) as [e0 | s] eqn:Es;
    [discriminate |].
  pose proof (parse_time_bounds _ _ Es) as Hs.
  destruct (Z.ltb_spec s 0) as [Hneg | _]; [discriminate |].
  destruct audio as [e1 | ms]; [discriminate |].
  set (audio_length := (inject_Z ms / 1000)%Q).
  destruct (strip end_field) as [| c rest] eqn:Ee.
  - destruct (Qle_bool audio_length (inject_Z s)) eqn:Ecmp; [discriminate |].
    intros H; inversion H; subst start_sec end_sec.
    assert (Hlt : ~ (audio_length <= inject_Z s)%Q).
    { intros Hle. apply Qle_bool_iff in Hle. congruence. }
    exists ms. repeat split; auto; try lia.
    + lra.
    + apply Qle_refl.
  - destruct (parse_time decimal (c :: rest)) as [e2 | en] eqn:Een;
      [discriminate |].
    destruct (Z.leb_spec en s) as [Hle | Hgt]; [discriminate |].
    assert (Hq : (inject_Z s < inject_Z en)%Q) by (rewrite <- Zlt_Qlt; lia).
    destruct (Qle_bool (inject_Z en) audio_length) eqn:Eclamp.
    + destruct (Qle_bool audio_length (inject_Z s)) eqn:Ecmp;
        [discriminate |].
      intros H; inversion H; subst start_sec end_sec.
      apply Qle_bool_iff in Eclamp.
      exists ms. repeat split; auto; try lia.
      right. exists en. fold audio_length.
      repeat split; auto.
      destruct (Qle_bool (inject_Z en) audio_length) eqn:E'; [reflexivity |].
      apply Qle_bool_iff in Eclamp. congruence.
    + destruct (Qle_bool audio_length (inject_Z s)) eqn:Ecmp;
        [discriminate |].
      intros H; inversion H; subst start_sec end_sec.
      assert (Hlt : ~ (audio_length <= inject_Z s)%Q).
      { intros Hle. apply Qle_bool_iff in Hle. congruence. }
      exists ms. repeat split; auto; try lia.
      * lra.
      * apply Qle_refl.
      * right. exists en. fold audio_length. rewrite Eclamp.
        repeat split; auto.
Qed.

(** X3.  The test [start_sec < 0] never fires: the only way the range
    checks end with "Start time cannot be negative." is that decoding the
    audio raised an error with that very text. *)
Theorem negative_start_never_reported (start_field end_field : pystr)
        (audio : exn + Z) :
  validate_range decimal start_field end_field audio
  = inl (ValueError (cp "Start time cannot be negative.")) ->
  audio = inl (ValueError (cp "Start time cannot be negative.")).
Proof.
  unfold validate_range. cbn zeta.
  destruct (parse_time decimal (strip start_field)) as [e0 | s] eqn:Es.
  - intros H. apply (parse_time_error decimal decimal_ascii) in Es.
    subst e0. exfalso. revert H. vm_compute. discriminate.
  - pose proof (parse_time_bounds _ _ Es) as Hs.
    destruct (Z.ltb_spec s 0) as [Hneg | _]; [lia |].
    destruct audio as [e1 | ms]; [intros H; now inversion H |].
    destruct (strip end_field) as [| c rest] eqn:Ee.
    + destruct (Qle_bool _ _); intros H; exfalso; revert H;
        [vm_compute |]; discriminate.
    + destruct (parse_time decimal (c :: rest)) as [e2 | en] eqn:Een.
      * intros H. apply (parse_time_error decimal decimal_ascii) in Een.
        subst e2. exfalso. revert H. vm_compute. discriminate.
      * destruct (Z.leb_spec en s) as [Hle | Hgt].
        -- intros H. exfalso. revert H. vm_compute. discriminate.
        -- destruct (Qle_bool (inject_Z en) _);
             destruct (Qle_bool _ (inject_Z s)); intros H;
             exfalso; revert H; try discriminate; vm_compute; discriminate.
Qed.

(** X4.  An entry field is stripped before it is parsed, so blanks
    around the time are ignored and the newline that [parse_time] would
    tolerate at the end never reaches it: a field is accepted exactly when
    its stripped text is three fields separated by colons. *)
Theorem stripped_field_has_no_newline (text : pystr) (n : Z) :
  parse_time decimal (strip text) = inr n <->
  exists fh fm fs : field,
    strip text = chars fh ++ [COLON] ++ chars fm ++ [COLON] ++ chars fs
    /\ hours_field decimal fh /\ sixty_field decimal fm
    /\ sixty_field decimal fs
    /\ n = (field_value decimal fh * 3600 + field_value decimal fm * 60
            + field_value decimal fs)%Z.
Proof.
  split.
  - intros H. apply (parse_time_sound decimal decimal_ascii) in H.
    destruct H as (h & m & sec & Hacc & ->).
    destruct Hacc as (fh & fm & fs & nl & Hs & Hh & Hm & Hsec & -> & -> & ->).
    exists fh, fm, fs. repeat split; auto.
    destruct nl.
    + exfalso.
      destruct (strip_ends text) as [_ Hlast].
      specialize (Hlast (chars fh ++ [COLON] ++ chars fm ++ [COLON]
                           ++ chars fs) LF).
      rewrite Hs in Hlast. rewrite <- !app_assoc in Hlast.
      specialize (Hlast eq_refl). vm_compute in Hlast. discriminate.
    + rewrite Hs. now rewrite app_nil_r.
  - intros (fh & fm & fs & Hs & Hh & Hm & Hsec & ->).
    apply (parse_time_complete decimal decimal_ascii colon_not_decimal
             newline_not_decimal).
    exists fh, fm, fs, false. rewrite Hs, app_nil_r. repeat split; auto.
Qed.

End RangeFacts.

(** Witness for X2: from second 10 to the end of a 90.5-second file. *)
Lemma validated_range_in_audio_witness :
  validate_range ascii_decimal (cp " 0:00:10 ") (cp "0:02:00") (inr 90500%Z)
  = inr (10%Z, (90500 # 1000)%Q)
  /\ (inject_Z 10 < 90500 # 1000)%Q.
Proof.
  assert (E : validate_range ascii_decimal (cp " 0:00:10 ") (cp "0:02:00")
                (inr 90500%Z)
              = inr (10%Z, (inject_Z 90500 / 1000)%Q))
    by (vm_compute; reflexivity).
  destruct (validated_range_in_audio ascii_decimal ascii_decimal_ascii
              ascii_decimal_value _ _ _ _ _ E)
    as (ms & _ & _ & _ & Hlt & _).
  split; [vm_compute; reflexivity | exact Hlt].
Defined.

(** Witness for X3: the audio decoder raises the message itself. *)
Lemma negative_start_never_reported_witness :
  validate_range ascii_decimal (cp "0:00:10") []
    (inl (ValueError (cp "Start time cannot be negative.")))
  = inl (ValueError (cp "Start time cannot be negative."))
  /\ (inl (ValueError (cp "Start time cannot be negative.")) : exn + Z)
     = inl (ValueError (cp "Start time cannot be negative.")).
Proof.
  assert (E : validate_range ascii_decimal (cp "0:00:10") []
                (inl (ValueError (cp "Start time cannot be negative.")))
              = inl (ValueError (cp "Start time cannot be negative.")))
    by (vm_compute; reflexivity).
  split; [exact E |].
  exact (negative_start_never_reported ascii_decimal ascii_decimal_ascii
           ascii_decimal_value _ _ _ E).
Defined.

(** Witness for X4: a field with blanks and a newline around the time. *)
Lemma stripped_field_has_no_newline_witness :
  parse_time ascii_decimal (strip (cp " 1:02:03 " ++ [LF])) = inr 3723%Z
  /\ strip (cp " 1:02:03 " ++ [LF]) = cp "1:02:03".
Proof.
  split; [| vm_compute; reflexivity].
  apply (stripped_field_has_no_newline ascii_decimal ascii_decimal_ascii
           eq_refl eq_refl).
  exists (F1 49), (F2 48 50), (F2 48 51).
  split; [vm_compute; reflexivity |].
  cbn [hours_field sixty_field]. unfold is_decimal.
  repeat split; try lia; eexists; vm_compute; reflexivity.
Defined.

(* ------------------------------------------------------------------ *)
(** ** [transcribe_segment], every path *)

Module TranscriberPaths.
Import Transcriber.

(** Settles one path of [transcribe_segment]: who raised, and what text
    came back. *)
Ltac outcome :=
  split;
  [ intros ex; split;
    [ intros H; try discriminate H; inversion H; subst; intuition congruence
    | intuition congruence ]
  | split;
    [ intros H; try discriminate H; reflexivity
    | split;
      [ intros text H;
        first
          [ discriminate H
          | inversion H; subst text;
            split;
            [ first [apply strip_nil | apply strip_idem]
            | intros Hne; try (now destruct Hne); repeat split; eauto ] ]
      | reflexivity ] ] ].

(** X5.  [transcribe_segment] raises in three cases only: when the stop
    flag is set at entry (it raises "Transcription stopped by user." and
    touches nothing), when creating the temporary file fails, and when
    removing it fails; these two errors are raised outside every [try]
    and leave the function as they are.  An error of slicing, of the
    export or of the model call never leaves it.  A text it returns has
    no blanks at either end, and is non-empty only if slicing, export and
    the model call all succeeded; it is then the stripped text of the
    model's result.  The set of temporary files is left as it was, except
    that a failed export and a failed removal leave the new file
    behind. *)
Theorem transcribe_segment_outcomes (e : env) (segment : Segment)
        (w : world) :
  (forall ex : exn,
      fst (transcribe_segment e segment w) = inl ex <->
      (stop_is_set e = true
       /\ ex = Exception (cp "Transcription stopped by user."))
      \/ (stop_is_set e = false /\ slice_raises e = None
          /\ tempfile_raises e = Some ex)
      \/ (stop_is_set e = false /\ slice_raises e = None
          /\ tempfile_raises e = None /\ export_raises e = None
          /\ remove_raises e = Some ex))
  /\ (stop_is_set e = true -> snd (transcribe_segment e segment w) = w)
  /\ (forall text : pystr,
        fst (transcribe_segment e segment w) = inr text ->
        strip text = text
        /\ (text <> [] ->
            slice_raises e = None /\ export_raises e = None
            /\ exists t, model_result e = inr (Some t) /\ text = strip t))
  /\ files (snd (transcribe_segment e segment w))
     = (if stop_is_set e then files w
        else match slice_raises e, tempfile_raises e with
             | None, None =>
                 match export_raises e, remove_raises e with
                 | None, None => files w
                 | _, _ => fresh (files w) :: files w
                 end
             | _, _ => files w
             end).
Proof.
  pose proof (TranscriberFacts.fresh_not_in (files w)) as Hfresh.
  pose proof (TranscriberFacts.filter_absent _ (files w) Hfresh) as Hfilter.
  unfold transcribe_segment.
  destruct (stop_is_set e); [cbn [fst snd]; outcome |].
  destruct (slice_raises e) as [ex0 |];
    [cbn [fst snd files put]; outcome |].
  destruct (tempfile_raises e) as [ex0 |]; [cbn [fst snd]; outcome |].
  destruct (export_raises e) as [ex0 |];
    [cbn [fst snd files put create_file]; outcome |].
  destruct (model_result e) as [exm | [t |]];
    unfold path_exists, put, create_file, remove_file;
    cbn [fst snd files console existsb List.filter];
    rewrite Nat.eqb_refl; cbn [orb negb];
    destruct (remove_raises e) as [exr |];
    cbn [fst snd files console]; try rewrite Hfilter; outcome.
Qed.

End TranscriberPaths.

(* ------------------------------------------------------------------ *)
(** ** Sizes *)

Lemma int_of_float_nonneg (x : Q) :
  (0 <= x)%Q -> int_of_float x = Qfloor x.
Proof.
  intros Hx. unfold int_of_float, Qfloor. destruct x as [a b]. cbn.
  apply Z.quot_div_nonneg; [| lia].
  unfold Qle in Hx. cbn in Hx. lia.
Qed.

(** The floor is the integer just below. *)
Lemma Qfloor_unique (x : Q) (z : Z) :
  (inject_Z z <= x)%Q -> (x < inject_Z (z + 1))%Q -> Qfloor x = z.
Proof.
  intros Hlo Hhi.
  pose proof (Qfloor_le x) as H1. pose proof (Qlt_floor x) as H2.
  assert (A : (inject_Z z < inject_Z (Qfloor x + 1))%Q) by lra.
  assert (B : (inject_Z (Qfloor x) < inject_Z (z + 1))%Q) by lra.
  rewrite <- Zlt_Qlt in A, B. lia.
Qed.

(** X6.  The number of worker threads is at least one and never more
    than the number of cores of a machine that has at least one: it is
    four fifths of the cores, rounded down, and one for a single core. *)
Theorem num_threads_bounds (num_cores : Z) :
  (1 <= num_threads_of num_cores)%Z
  /\ ((1 <= num_cores)%Z ->
      (num_threads_of num_cores <= num_cores)%Z
      /\ num_threads_of num_cores = Z.max 1 (4 * num_cores / 5)).
Proof.
  unfold num_threads_of. split; [lia |]. intros Hc.
  assert (E : int_of_float (inject_Z num_cores * (8 # 10))
              = (4 * num_cores / 5)%Z).
  { rewrite int_of_float_nonneg.
    - apply Qfloor_unique.
      + assert (H : (5 * (4 * num_cores / 5) <= 4 * num_cores)%Z)
          by (Z.div_mod_to_equations; lia).
        rewrite Zle_Qle, !inject_Z_mult in H.
        change (inject_Z 5) with 5%Q in H. change (inject_Z 4) with 4%Q in H.
        lra.
      + assert (H : (4 * num_cores < 5 * (4 * num_cores / 5 + 1))%Z)
          by (Z.div_mod_to_equations; lia).
        rewrite Zlt_Qlt, !inject_Z_mult in H.
        change (inject_Z 5) with 5%Q in H. change (inject_Z 4) with 4%Q in H.
        lra.
    - assert (H : (0 <= num_cores)%Z) by lia.
      rewrite Zle_Qle in H. change (inject_Z 0) with 0%Q in H. lra. }
  rewrite E. split; [| reflexivity].
  Z.div_mod_to_equations. lia.
Qed.

(** Witness for X6: eight cores give six threads. *)
Lemma num_threads_bounds_witness :
  (1 <= 8)%Z /\ num_threads_of 8 = 6%Z /\ (num_threads_of 8 <= 8)%Z.
Proof.
  split; [lia |]. split; [vm_compute; reflexivity |].
  exact (proj1 (proj2 (num_threads_bounds 8) ltac:(lia))).
Defined.

(** [int(width * percentage / 100)] in integer arithmetic. *)
Lemma fill_width_floor (width percentage : Z) :
  (0 <= width * percentage)%Z ->
  fill_width width percentage = (width * percentage / 100)%Z.
Proof.
  intros H. unfold fill_width, int_of_float.
  cbn [inject_Z Qdiv Qmult Qinv Qnum Qden].
  rewrite Z.quot_div_nonneg by lia.
  rewrite Z.mul_1_r. reflexivity.
Qed.

(** X7.  For a percentage between 0 and 100 the filled part of the
    progress bar lies within the bar, is empty at 0 and full at 100, and
    does not shrink when the percentage grows. *)
Theorem fill_width_within_bar (width p q : Z) :
  (0 <= width)%Z -> (0 <= p <= q)%Z -> (q <= 100)%Z ->
  (0 <= fill_width width p <= fill_width width q)%Z
  /\ (fill_width width q <= width)%Z
  /\ fill_width width 0 = 0%Z
  /\ fill_width width 100 = width.
Proof.
  intros Hw Hp Hq.
  rewrite !fill_width_floor by nia.
  repeat split.
  - apply Z.div_pos; nia.
  - apply Z.div_le_mono; nia.
  - apply Z.div_le_upper_bound; nia.
  - rewrite Z.mul_0_r. reflexivity.
  - apply Z.div_mul. lia.
Qed.

(** Witness for X7: a bar of 400 pixels at 46 and 73 percent. *)
Lemma fill_width_within_bar_witness :
  (0 <= 400)%Z /\ (0 <= 46 <= 73)%Z /\ (73 <= 100)%Z
  /\ fill_width 400 46 = 184%Z /\ fill_width 400 73 = 292%Z
  /\ (0 <= fill_width 400 46 <= fill_width 400 73)%Z.
Proof.
  split; [lia |]. split; [lia |]. split; [lia |].
  split; [vm_compute; reflexivity |]. split; [vm_compute; reflexivity |].
  exact (proj1 (fill_width_within_bar 400 46 73 ltac:(lia) ltac:(lia)
                  ltac:(lia))).
Defined.

(** X8.  The file name shown in the status line is never longer than 50
    characters: a name of at most 50 characters is shown as it is, a longer
    one as its first 47 characters followed by three dots. *)
Theorem shown_filename_fits (filename : pystr) :
  (length (shown_filename filename) <= 50)%nat
  /\ ((length filename <= 50)%nat -> shown_filename filename = filename)
  /\ ((50 < length filename)%nat ->
      length (shown_filename filename) = 50%nat
      /\ firstn 47 (shown_filename filename) = firstn 47 filename
      /\ skipn 47 (shown_filename filename) = cp "...").
Proof.
  unfold shown_filename, len.
  destruct (Z.ltb_spec 50 (Z.of_nat (length filename))) as [Hlong | Hshort].
  - assert (Hlen : length (firstn 47 filename) = 47%nat).
    { rewrite length_firstn. lia. }
    assert (Hdots : length (cp "...") = 3%nat) by reflexivity.
    repeat split.
    + rewrite length_app, Hlen, Hdots. lia.
    + lia.
    + rewrite length_app, Hlen, Hdots. reflexivity.
    + rewrite firstn_app, Hlen, Nat.sub_diag, firstn_firstn. cbn [firstn].
      now rewrite app_nil_r.
    + rewrite skipn_app, Hlen, Nat.sub_diag.
      rewrite skipn_all2 by lia. reflexivity.
  - repeat split; try lia.
Qed.

(* ------------------------------------------------------------------ *)
(** ** The pool always makes progress and always finishes *)

Module PoolProgressFacts.
Import Pool PoolProgress.

Lemma init_holder (N : nat) : holder_in_model (init N).
Proof. intros i Hi. discriminate. Qed.

Lemma step_holder (K : nat) (st st' : state) (i : nat) (o : outcome) :
  holder_in_model st -> lock_held_in_model st ->
  step K st i o = Some st' -> holder_in_model st'.
Proof.
  intros Hold Inv Hstep. unfold step in Hstep.
  destruct (nth_error (tasks st) i) as [p |] eqn:Hp; [| discriminate].
  assert (Hgoto : forall q, p <> InModel ->
            holder_in_model (mkState (lock st) (update (tasks st) i q))).
  { intros q Hpne j Hj. cbn in Hj. apply Hold in Hj.
    unfold in_model in *. cbn.
    destruct (Nat.eq_dec i j) as [<- | Hne]; [congruence |].
    now rewrite PoolFacts.nth_error_update_other. }
  destruct p.
  - destruct (count running (tasks st) <? K); [| discriminate].
    inversion Hstep; subst. apply Hgoto. discriminate.
  - destruct o; inversion Hstep; subst; apply Hgoto; discriminate.
  - destruct o; inversion Hstep; subst; apply Hgoto; discriminate.
  - destruct o; inversion Hstep; subst; apply Hgoto; discriminate.
  - destruct (lock st) as [h |] eqn:Hlock; [discriminate |].
    inversion Hstep; subst. intros j Hj. cbn in Hj. inversion Hj; subst j.
    unfold in_model. cbn.
    eapply PoolFacts.nth_error_update_same; eassumption.
  - inversion Hstep; subst. intros j Hj. discriminate.
  - inversion Hstep; subst. apply Hgoto. discriminate.
  - discriminate.
Qed.

Lemma exec_holder (K : nat) (sch : schedule) (st st' : state) :
  holder_in_model st -> lock_held_in_model st ->
  exec K st sch = Some st' -> holder_in_model st'.
Proof.
  revert st. induction sch as [| [i o] sch IH]; intros st Hold Inv Hexec.
  - cbn in Hexec. now inversion Hexec; subst.
  - cbn in Hexec. destruct (step K st i o) as [st1 |] eqn:Hstep;
      [| discriminate].
    eapply IH; [| | exact Hexec].
    + eapply step_holder; eassumption.
    + eapply PoolFacts.step_invariant; eassumption.
Qed.

Lemma count_positive (f : pc -> bool) (l : list pc) :
  0 < count f l -> exists i p, nth_error l i = Some p /\ f p = true.
Proof.
  unfold count. induction l as [| a l IH]; cbn [List.filter length].
  - lia.
  - destruct (f a) eqn:Ea.
    + intros _. exists 0, a. split; [reflexivity | exact Ea].
    + intros H. destruct (IH H) as (i & p & Hi & Hp).
      exists (S i), p. split; assumption.
Qed.

(** With the lock free, a task that occupies a thread can take its next
    step. *)
Lemma running_can_step (K : nat) (st : state) (i : nat) (p : pc) :
  lock st = None -> nth_error (tasks st) i = Some p -> running p = true ->
  exists st', step K st i Succeeds = Some st'.
Proof.
  intros Hlock Hp Hrun. unfold step. rewrite Hp.
  destruct p; try discriminate; try rewrite Hlock; eauto.
Qed.

(** In a state where the lock is held only by a task inside the model,
    an unfinished pool has a task that can move. *)
Lemma some_task_can_step (K : nat) (st : state) :
  1 <= K -> holder_in_model st -> unfinished st ->
  exists i o st', step K st i o = Some st'.
Proof.
  intros HK Hold (i & p & Hp & Hne).
  destruct (lock st) as [h |] eqn:Hlock.
  - (* the task inside the model can always leave it *)
    specialize (Hold h Hlock). unfold in_model in Hold.
    exists h, Succeeds. unfold step. rewrite Hold. eauto.
  - destruct (running p) eqn:Hrun.
    + destruct (running_can_step K st i p Hlock Hp Hrun) as [st' Hst'].
      exists i, Succeeds, st'. exact Hst'.
    + destruct p; try discriminate; [| congruence].
      (* queued: a thread is free, or a task that occupies one moves *)
      destruct (Nat.ltb_spec (count running (tasks st)) K) as [Hlt | Hge].
      * exists i, Succeeds. unfold step. rewrite Hp.
        apply Nat.ltb_lt in Hlt. rewrite Hlt. eauto.
      * destruct (count_positive running (tasks st)) as (j & q & Hj & Hq);
          [lia |].
        destruct (running_can_step K st j q Hlock Hj Hq) as [st' Hst'].
        exists j, Succeeds, st'. exact Hst'.
Qed.

Lemma reachable_holder (K N : nat) (sch : schedule) (st : state) :
  exec K (init N) sch = Some st -> holder_in_model st.
Proof.
  intros Hexec.
  eapply exec_holder; [apply init_holder | apply PoolFacts.init_invariant |
                       exact Hexec].
Qed.

(** X9.  The pool cannot get stuck: with at least one thread, in every
    state it reaches, as long as some task has not finished, some task
    can take its next step. *)
Theorem pool_never_stuck (K N : nat) (sch : schedule) (st : state) :
  1 <= K ->
  exec K (init N) sch = Some st ->
  unfinished st ->
  exists i o st', step K st i o = Some st'.
Proof.
  intros HK Hexec Hun.
  apply some_task_can_step; [exact HK | | exact Hun].
  eapply reachable_holder; exact Hexec.
Qed.

Lemma pool_never_stuck_witness :
  exists i o st',
    step 2 (mkState (Some 0) [InModel; Waiting; Queued]) i o = Some st'.
Proof.
  apply (pool_never_stuck 2 3
           [(0, Succeeds); (0, Succeeds); (0, Succeeds); (0, Succeeds);
            (0, Succeeds); (1, Succeeds); (1, Succeeds); (1, Succeeds);
            (1, Succeeds)]).
  - lia.
  - reflexivity.
  - exists 2, Queued. split; [reflexivity | discriminate].
Defined.

Lemma work_update (l : list pc) (i : nat) (p q : pc) :
  nth_error l i = Some p ->
  list_sum (List.map remaining (update l i q)) + remaining p
  = list_sum (List.map remaining l) + remaining q.
Proof.
  unfold list_sum.
  revert i. induction l as [| a l IH]; intros [| i] Hi;
    cbn [nth_error] in Hi; try discriminate.
  - inversion Hi; subst a. cbn [update List.map list_sum fold_right]. lia.
  - cbn [update List.map list_sum fold_right]. specialize (IH i Hi). lia.
Qed.

Lemma step_work (K : nat) (st st' : state) (i : nat) (o : outcome) :
  step K st i o = Some st' -> work st' < work st.
Proof.
  unfold step, work. intros Hstep.
  destruct (nth_error (tasks st) i) as [p |] eqn:Hp; [| discriminate].
  assert (Hq : forall q, remaining q < remaining p ->
             list_sum (List.map remaining (update (tasks st) i q))
             < list_sum (List.map remaining (tasks st))).
  { intros q Hlt. pose proof (work_update (tasks st) i p q Hp). lia. }
  destruct p.
  - destruct (count running (tasks st) <? K); [| discriminate].
    inversion Hstep; subst. cbn [tasks]. apply Hq; cbn; lia.
  - destruct o; inversion Hstep; subst; cbn [tasks];
      (apply Hq; cbn; lia).
  - destruct o; inversion Hstep; subst; cbn [tasks];
      (apply Hq; cbn; lia).
  - destruct o; inversion Hstep; subst; cbn [tasks];
      (apply Hq; cbn; lia).
  - destruct (lock st); [discriminate |].
    inversion Hstep; subst. cbn [tasks]. apply Hq; cbn; lia.
  - inversion Hstep; subst. cbn [tasks]. apply Hq; cbn; lia.
  - inversion Hstep; subst. cbn [tasks]. apply Hq; cbn; lia.
  - discriminate.
Qed.

Lemma exec_work (K : nat) (sch : schedule) (st st' : state) :
  exec K st sch = Some st' -> length sch + work st' <= work st.
Proof.
  revert st. induction sch as [| [i o] sch IH]; intros st Hexec.
  - cbn in Hexec. inversion Hexec; subst. cbn [length]. lia.
  - cbn [exec] in Hexec. destruct (step K st i o) as [st1 |] eqn:Hstep;
      [| discriminate].
    apply IH in Hexec. apply step_work in Hstep. cbn [length]. lia.
Qed.

Lemma work_init (N : nat) : work (init N) = 7 * N.
Proof.
  unfold work, init, list_sum. cbn [tasks].
  induction N as [| N IH]; [reflexivity |].
  cbn [repeat List.map list_sum fold_right remaining]. lia.
Qed.

Lemma work_zero (l : list pc) (i : nat) (p : pc) :
  list_sum (List.map remaining l) = 0 -> nth_error l i = Some p ->
  p = Finished.
Proof.
  unfold list_sum.
  revert i. induction l as [| a l IH]; intros [| i] H0 Hi;
    cbn [nth_error] in Hi; try discriminate;
    cbn [List.map list_sum fold_right] in H0.
  - inversion Hi; subst a. destruct p; cbn in H0; try lia. reflexivity.
  - apply (IH i); [lia | exact Hi].
Qed.

Lemma work_positive (st : state) : 0 < work st -> unfinished st.
Proof.
  unfold work, unfinished, list_sum.
  induction (tasks st) as [| a l IHl]; cbn [List.map fold_right].
  - lia.
  - intros Hpos. destruct (remaining a) eqn:Ea.
    + destruct IHl as (i & p & Hi & Hp); [lia |].
      exists (S i), p. split; assumption.
    + exists 0, a. split; [reflexivity |]. intros ->. discriminate.
Qed.

(** X10.  Every run of the pool is finite and can be completed: a run of
    [N] tasks has at most [7 * N] steps, and (with at least one thread)
    from every state it reaches the pool can go on to a state in which
    every task has finished. *)
Theorem pool_can_always_finish (K N : nat) (sch : schedule) (st : state) :
  1 <= K ->
  exec K (init N) sch = Some st ->
  length sch <= 7 * N
  /\ exists sch' st',
       exec K (init N) (sch ++ sch') = Some st'
       /\ forall i p, nth_error (tasks st') i = Some p -> p = Finished.
Proof.
  intros HK Hexec. split.
  { pose proof (exec_work K sch (init N) st Hexec) as H.
    rewrite work_init in H. lia. }
  remember (work st) as w eqn:Hw. revert sch st Hexec Hw.
  induction w as [w IH] using lt_wf_ind. intros sch st Hexec Hw.
  destruct (Nat.eq_dec w 0) as [H0 | Hpos].
  - exists [], st. rewrite app_nil_r. split; [exact Hexec |].
    intros i p Hi. eapply work_zero; [| exact Hi].
    unfold work in Hw. lia.
  - assert (Hun : unfinished st).
    { apply work_positive. lia. }
    destruct (some_task_can_step K st HK
                (reachable_holder K N sch st Hexec) Hun)
      as (i & o & st1 & Hstep).
    assert (Hexec1 : exec K (init N) (sch ++ [(i, o)]) = Some st1).
    { clear - Hexec Hstep. revert Hexec. generalize (init N).
      induction sch as [| [j o'] sch IHs]; intros s0 Hexec.
      - cbn in Hexec. inversion Hexec; subst. cbn. now rewrite Hstep.
      - cbn [app exec] in *. destruct (step K s0 j o'); [| discriminate].
        now apply IHs. }
    pose proof (step_work K st st1 i o Hstep) as Hlt.
    destruct (IH (work st1) ltac:(lia) (sch ++ [(i, o)]) st1 Hexec1 eq_refl)
      as (sch' & st' & Hrun & Hfin).
    exists ((i, o) :: sch'), st'. split; [| exact Hfin].
    rewrite <- app_assoc in Hrun. exact Hrun.
Qed.

Lemma pool_can_always_finish_witness :
  length [(0, Succeeds); (1, Succeeds); (0, Fails)] <= 7 * 2
  /\ exists sch' st',
       exec 2 (init 2) ([(0, Succeeds); (1, Succeeds); (0, Fails)] ++ sch')
       = Some st'
       /\ forall i p, nth_error (tasks st') i = Some p -> p = Finished.
Proof.
  apply (pool_can_always_finish 2 2 [(0, Succeeds); (1, Succeeds); (0, Fails)]
           (mkState None [Finished; AtEntry])).
  - lia.
  - reflexivity.
Defined.

End PoolProgressFacts.

(* ------------------------------------------------------------------ *)
(** ** Console redirection *)

Module ConsoleFacts.
Import Console.

Lemma split_once_none (sep : N) (s : pystr) :
  split_once sep s = None <-> ~ In sep s.
Proof.
  induction s as [| c s IH]; cbn [split_once In].
  - tauto.
  - destruct (N.eqb_spec c sep) as [-> | Hne].
    + split; [discriminate | tauto].
    + destruct (split_once sep s) as [[a b] |].
      * split; [discriminate |]. intros H. exfalso. apply H. right.
        destruct IH as [_ IH]. 
        destruct (in_dec N.eq_dec sep s) as [Hin | Hnin]; [exact Hin |].
        specialize (IH Hnin). discriminate.
      * split; [| reflexivity]. intros _ [Heq | Hin]; [congruence |].
        now apply (proj1 IH).
Qed.

Lemma split_once_some (sep : N) (s before after : pystr) :
  split_once sep s = Some (before, after) ->
  s = before ++ sep :: after /\ ~ In sep before.
Proof.
  revert before. induction s as [| c s IH]; intros before; cbn [split_once].
  - discriminate.
  - destruct (N.eqb_spec c sep) as [-> | Hne].
    + intros H. inversion H; subst. split; [reflexivity | intros []].
    + destruct (split_once sep s) as [[a b] |]; [| discriminate].
      intros H. inversion H; subst.
      destruct (IH a eq_refl) as [-> Hnin].
      split; [reflexivity |]. intros [Heq | Hin]; [congruence | tauto].
Qed.

Lemma split_once_app (sep : N) (before after : pystr) :
  ~ In sep before ->
  split_once sep (before ++ sep :: after) = Some (before, after).
Proof.
  induction before as [| c s IH]; intros Hnin; cbn [app split_once].
  - now rewrite N.eqb_refl.
  - destruct (N.eqb_spec c sep) as [-> | Hne].
    + exfalso. apply Hnin. now left.
    + rewrite IH; [reflexivity |]. intros Hin. apply Hnin. now right.
Qed.

Lemma after_each_cr_free (s : pystr) :
  ~ In CR s -> after_each_cr s = [].
Proof.
  induction s as [| c s IH]; intros Hnin; cbn [after_each_cr];
    [reflexivity |].
  destruct (N.eqb_spec c CR) as [-> | Hne].
  - exfalso. apply Hnin. now left.
  - apply IH. intros Hin. apply Hnin. now right.
Qed.

Lemma after_each_cr_split (line rest : pystr) :
  ~ In CR line ->
  after_each_cr (line ++ CR :: rest) = rest :: after_each_cr rest.
Proof.
  induction line as [| c s IH]; intros Hnin; cbn [app after_each_cr].
  - now rewrite N.eqb_refl.
  - destruct (N.eqb_spec c CR) as [-> | Hne].
    + exfalso. apply Hnin. now left.
    + apply IH. intros Hin. apply Hnin. now right.
Qed.

Lemma after_last_cr_free (s : pystr) : ~ In CR s -> after_last_cr s = s.
Proof.
  intros H. unfold after_last_cr. now rewrite after_each_cr_free.
Qed.

Lemma last_cons (A : Type) (l : list A) (a d : A) :
  last (a :: l) d = last l a.
Proof.
  revert a d. induction l as [| b l IH]; intros a d; [reflexivity |].
  change (last (a :: b :: l) d) with (last (b :: l) d).
  rewrite (IH b d), (IH b a). reflexivity.
Qed.

Lemma after_last_cr_split (line rest : pystr) :
  ~ In CR line ->
  after_last_cr (line ++ CR :: rest) = after_last_cr rest.
Proof.
  intros H. unfold after_last_cr. rewrite after_each_cr_split by exact H.
  apply last_cons.
Qed.

Lemma appended_app (q1 q2 : list item) :
  appended (q1 ++ q2) = appended q1 ++ appended q2.
Proof.
  unfold appended. now rewrite filter_app, map_app, concat_app.
Qed.


Lemma after_last_cr_no_cr (s : pystr) : ~ In CR (after_last_cr s).
Proof.
  remember (length s) as n eqn:Hn. revert s Hn.
  induction n as [n IH] using lt_wf_ind. intros s Hn.
  destruct (split_once CR s) as [[line rest] |] eqn:Hs.
  - apply split_once_some in Hs. destruct Hs as [-> Hline].
    rewrite after_last_cr_split by exact Hline.
    apply (IH (length rest)); [| reflexivity].
    subst n. rewrite length_app. cbn [length]. lia.
  - apply split_once_none in Hs. now rewrite after_last_cr_free.
Qed.

Lemma split_lines_no_lf (s : pystr) :
  ~ In LF s -> split_lines s = ([], s).
Proof.
  induction s as [| c s IH]; intros Hnin; cbn [split_lines];
    [reflexivity |].
  rewrite IH by (intros Hin; apply Hnin; now right).
  destruct (N.eqb_spec c LF) as [-> | Hne]; [| reflexivity].
  exfalso. apply Hnin. now left.
Qed.

Lemma split_lines_line (line rest : pystr) :
  ~ In LF line ->
  split_lines (line ++ LF :: rest)
  = ((line ++ [LF]) :: fst (split_lines rest), snd (split_lines rest)).
Proof.
  induction line as [| c s IH]; intros Hnin; cbn [app split_lines].
  - destruct (split_lines rest) as [ls p]. now rewrite N.eqb_refl.
  - rewrite IH by (intros Hin; apply Hnin; now right).
    destruct (N.eqb_spec c LF) as [-> | Hne]; [| reflexivity].
    exfalso. apply Hnin. now left.
Qed.

(** The lines of a text put together give the text back, and the
    unfinished line holds no newline. *)
Lemma split_lines_concat (s : pystr) :
  concat (complete_lines s) ++ unfinished_line s = s
  /\ ~ In LF (unfinished_line s).
Proof.
  unfold complete_lines, unfinished_line.
  induction s as [| c s [IH1 IH2]]; cbn [split_lines].
  - split; [reflexivity | intros []].
  - destruct (split_lines s) as [ls p]. cbn [fst snd] in *.
    destruct (N.eqb_spec c LF) as [-> | Hne]; cbn [fst snd concat app].
    + split; [now rewrite IH1 | exact IH2].
    + destruct ls as [| l ls]; cbn [fst snd concat app] in *.
      * split; [now rewrite <- IH1 |].
        intros [Heq | Hin]; [congruence | tauto].
      * split; [now rewrite <- IH1 | exact IH2].
Qed.

Lemma unfinished_line_incl (s : pystr) (c : N) :
  In c (unfinished_line s) -> In c s.
Proof.
  intros Hin. rewrite <- (proj1 (split_lines_concat s)).
  apply in_or_app. now right.
Qed.

(** The loop of [write], for a buffer no longer than the fuel. *)
Lemma write_loop_closed (fuel : nat) (buf : pystr) (q : list item) :
  length buf <= fuel ->
  write_loop fuel buf q
  = (unfinished_line (after_last_cr buf),
     q ++ List.map Overwrite (after_each_cr buf)
       ++ List.map Append (complete_lines (after_last_cr buf))).
Proof.
  unfold complete_lines, unfinished_line.
  revert buf q. induction fuel as [| fuel IH]; intros buf q Hlen.
  - destruct buf; [| cbn in Hlen; lia]. cbn. now rewrite app_nil_r.
  - cbn [write_loop].
    destruct (split_once CR buf) as [[line rest] |] eqn:Hcr.
    + apply split_once_some in Hcr. destruct Hcr as [-> Hline].
      rewrite length_app in Hlen. cbn [length] in Hlen.
      rewrite IH by lia.
      rewrite after_last_cr_split, after_each_cr_split by exact Hline.
      cbn [List.map]. rewrite <- app_assoc. reflexivity.
    + apply split_once_none in Hcr.
      rewrite after_last_cr_free, after_each_cr_free by exact Hcr.
      cbn [List.map app].
      destruct (split_once LF buf) as [[line rest] |] eqn:Hlf.
      * apply split_once_some in Hlf. destruct Hlf as [-> Hline].
        rewrite length_app in Hlen. cbn [length] in Hlen.
        assert (Hrest : ~ In CR rest).
        { intros Hin. apply Hcr. apply in_or_app. right. now right. }
        rewrite IH by lia.
        rewrite after_last_cr_free, after_each_cr_free by exact Hrest.
        rewrite split_lines_line by exact Hline.
        cbn [List.map app fst snd]. rewrite <- app_assoc. reflexivity.
      * apply split_once_none in Hlf. rewrite split_lines_no_lf by exact Hlf.
        cbn. now rewrite app_nil_r.
Qed.

(** X11.  What [write] puts on the queue: for the old buffer followed by
    the message, one overwrite item per carriage return, holding the text
    after it, then one append item per complete line of the text after
    the last carriage return; the unfinished line stays in the buffer. *)
Theorem write_posts_overwrites_then_lines (message : pystr)
        (r : redirector) :
  write message r
  = mkRedirector
      (unfinished_line (after_last_cr (buffer r ++ message)))
      (queue r
       ++ List.map Overwrite (after_each_cr (buffer r ++ message))
       ++ List.map Append
            (complete_lines (after_last_cr (buffer r ++ message)))).
Proof.
  unfold write. rewrite write_loop_closed by lia. reflexivity.
Qed.

Lemma appended_overwrites (l : list pystr) :
  appended (List.map Overwrite l) = [].
Proof.
  unfold appended. induction l as [| a l IH]; [reflexivity | exact IH].
Qed.

Lemma appended_appends (l : list pystr) :
  appended (List.map Append l) = concat l.
Proof.
  unfold appended. induction l as [| a l IH]; [reflexivity |].
  cbn [List.map List.filter is_append content_of concat].
  now rewrite IH.
Qed.

Lemma write_buffer (message : pystr) (r : redirector) :
  buffer (write message r)
  = unfinished_line (after_last_cr (buffer r ++ message)).
Proof.
  unfold write. rewrite write_loop_closed by lia. reflexivity.
Qed.

Lemma write_appended (message : pystr) (r : redirector) :
  appended (queue (write message r)) ++ buffer (write message r)
  = appended (queue r) ++ after_last_cr (buffer r ++ message).
Proof.
  unfold write. rewrite write_loop_closed by lia. cbn [queue buffer].
  rewrite !appended_app, appended_overwrites, appended_appends.
  cbn [app]. rewrite <- app_assoc.
  now rewrite (proj1 (split_lines_concat _)).
Qed.

(** X12.  After [write] the buffer holds neither a carriage return nor a
    newline.  After a following [flush] the buffer is empty, and the text
    appended to the console is the text appended before, followed by what
    came after the last carriage return of the old buffer and the
    message: the text before a carriage return is never appended, the
    text after the last one is neither lost nor repeated. *)
Theorem write_flush_appends_text_after_last_cr (message : pystr)
        (r : redirector) :
  (forall c, In c (buffer (write message r)) -> c <> CR /\ c <> LF)
  /\ buffer (flush (write message r)) = []
  /\ appended (queue (flush (write message r)))
     = appended (queue r) ++ after_last_cr (buffer r ++ message).
Proof.
  split; [| split].
  - intros c Hin. rewrite write_buffer in Hin. split; intros ->.
    + apply unfinished_line_incl in Hin.
      exact (after_last_cr_no_cr _ Hin).
    + exact (proj2 (split_lines_concat _) Hin).
  - unfold flush. destruct (buffer (write message r)) eqn:Hb;
      [exact Hb | reflexivity].
  - rewrite <- write_appended. unfold flush.
    destruct (buffer (write message r)) as [| c b] eqn:Hb.
    + now rewrite app_nil_r.
    + cbn [queue]. rewrite appended_app. f_equal.
      unfold appended. cbn. now rewrite app_nil_r.
Qed.

Lemma split_lines_app (s t : pystr) :
  split_lines (s ++ t)
  = (complete_lines s ++ complete_lines (unfinished_line s ++ t),
     unfinished_line (unfinished_line s ++ t)).
Proof.
  unfold complete_lines, unfinished_line.
  induction s as [| c s IH]; cbn [app split_lines].
  - cbn [fst snd app]. now destruct (split_lines t).
  - rewrite IH. destruct (split_lines s) as [ls p]. cbn [fst snd].
    destruct (N.eqb_spec c LF) as [-> | Hne]; cbn [fst snd app];
      [reflexivity |].
    destruct ls as [| l ls]; cbn [fst snd app]; [| reflexivity].
    cbn [split_lines]. destruct (split_lines (p ++ t)) as [ls' p'].
    cbn [fst snd]. destruct (N.eqb_spec c LF) as [-> | _]; [congruence |].
    now destruct ls'.
Qed.

(** X13.  Without carriage returns, a text written in two pieces leaves
    the redirector as the text written at once does. *)
Theorem write_in_pieces (m1 m2 : pystr) (r : redirector) :
  ~ In CR (buffer r ++ m1 ++ m2) ->
  write m2 (write m1 r) = write (m1 ++ m2) r.
Proof.
  intros Hcr.
  assert (H1 : ~ In CR (buffer r ++ m1)).
  { intros Hin. apply Hcr. rewrite app_assoc. apply in_or_app. now left. }
  assert (H2 : ~ In CR m2).
  { intros Hin. apply Hcr. rewrite app_assoc. apply in_or_app. now right. }
  assert (H3 : ~ In CR (unfinished_line (buffer r ++ m1) ++ m2)).
  { intros Hin. apply in_app_or in Hin. destruct Hin as [Hin | Hin];
      [| tauto]. apply unfinished_line_incl in Hin. tauto. }
  unfold write at 2. rewrite write_loop_closed by lia.
  unfold write at 1. cbn [buffer queue]. rewrite write_loop_closed by lia.
  unfold write. rewrite write_loop_closed by lia.
  rewrite (after_last_cr_free _ H1), (after_each_cr_free _ H1).
  rewrite (after_last_cr_free _ H3), (after_each_cr_free _ H3).
  rewrite (after_last_cr_free _ Hcr), (after_each_cr_free _ Hcr).
  cbn [List.map app].
  rewrite (app_assoc (buffer r) m1 m2).
  assert (Hc : complete_lines ((buffer r ++ m1) ++ m2)
               = complete_lines (buffer r ++ m1)
                 ++ complete_lines (unfinished_line (buffer r ++ m1) ++ m2)).
  { unfold complete_lines at 1. now rewrite split_lines_app. }
  assert (Hu : unfinished_line ((buffer r ++ m1) ++ m2)
               = unfinished_line (unfinished_line (buffer r ++ m1) ++ m2)).
  { unfold unfinished_line at 1. now rewrite split_lines_app. }
  rewrite Hc, Hu, map_app, <- app_assoc. reflexivity.
Qed.

Lemma write_in_pieces_witness :
  write (cp "d" ++ LF :: cp "e")
    (write (cp "ab" ++ LF :: cp "c") (mkRedirector (cp "x") []))
  = write ((cp "ab" ++ LF :: cp "c") ++ cp "d" ++ LF :: cp "e")
      (mkRedirector (cp "x") []).
Proof.
  apply (write_in_pieces (cp "ab" ++ LF :: cp "c") (cp "d" ++ LF :: cp "e")
           (mkRedirector (cp "x") [])).
  vm_compute. intros H.
  repeat (destruct H as [H | H]; [discriminate H |]). exact H.
Defined.

End ConsoleFacts.

(* ------------------------------------------------------------------ *)
(** ** Speaker labels *)

Lemma pystr_eqb_eq (a b : pystr) : pystr_eqb a b = true <-> a = b.
Proof.
  revert b. induction a as [| x a IH]; intros [| y b]; cbn [pystr_eqb];
    try (split; [discriminate | discriminate]); [tauto |].
  rewrite andb_true_iff, N.eqb_eq, IH. split.
  - intros [-> ->]. reflexivity.
  - intros H. inversion H. tauto.
Qed.

Lemma pystr_eqb_refl (a : pystr) : pystr_eqb a a = true.
Proof. now apply pystr_eqb_eq. Qed.

Lemma pystr_eqb_neq (a b : pystr) : a <> b -> pystr_eqb a b = false.
Proof.
  intros H. destruct (pystr_eqb a b) eqn:E; [| reflexivity].
  apply pystr_eqb_eq in E. contradiction.
Qed.

Lemma existsb_label (k : pystr) (l : list pystr) :
  existsb (pystr_eqb k) l = true <-> In k l.
Proof.
  rewrite existsb_exists. split.
  - intros (x & Hx & E). apply pystr_eqb_eq in E. now subst.
  - intros H. exists k. split; [exact H | apply pystr_eqb_refl].
Qed.

Lemma index_of_some (k : pystr) (l : list pystr) :
  In k l -> exists i, index_of k l = Some i /\ (i < length l)%nat.
Proof.
  induction l as [| a l IH]; intros Hin; [destruct Hin |].
  cbn [index_of length]. destruct (pystr_eqb a k) eqn:E.
  - exists 0%nat. split; [reflexivity | lia].
  - destruct Hin as [-> | Hin]; [now rewrite pystr_eqb_refl in E |].
    destruct (IH Hin) as (i & -> & Hi). exists (S i). split; [reflexivity | lia].
Qed.

Lemma index_of_none (k : pystr) (l : list pystr) :
  ~ In k l -> index_of k l = None.
Proof.
  induction l as [| a l IH]; intros Hnin; [reflexivity |].
  cbn [index_of]. rewrite pystr_eqb_neq by (intros ->; apply Hnin; now left).
  rewrite IH; [reflexivity |]. intros Hin. apply Hnin. now right.
Qed.

Lemma index_of_app (k : pystr) (l more : list pystr) (i : nat) :
  index_of k l = Some i -> index_of k (l ++ more) = Some i.
Proof.
  revert i. induction l as [| a l IH]; intros i; cbn [index_of app];
    [discriminate |].
  destruct (pystr_eqb a k); [trivial |].
  destruct (index_of k l) as [j |]; [| discriminate].
  intros H. now rewrite (IH j eq_refl).
Qed.

Lemma index_of_new (k : pystr) (l : list pystr) :
  ~ In k l -> index_of k (l ++ [k]) = Some (length l).
Proof.
  induction l as [| a l IH]; intros Hnin; cbn [index_of app length].
  - now rewrite pystr_eqb_refl.
  - rewrite pystr_eqb_neq by (intros ->; apply Hnin; now left).
    rewrite IH; [reflexivity |]. intros Hin. apply Hnin. now right.
Qed.

Lemma index_of_inj (a b : pystr) (l : list pystr) (i : nat) :
  index_of a l = Some i -> index_of b l = Some i -> a = b.
Proof.
  revert i. induction l as [| c l IH]; intros i; cbn [index_of];
    [discriminate |].
  destruct (pystr_eqb c a) eqn:Ea, (pystr_eqb c b) eqn:Eb.
  - apply pystr_eqb_eq in Ea, Eb. congruence.
  - destruct (index_of b l); intros H1 H2; congruence.
  - destruct (index_of a l); intros H1 H2; congruence.
  - destruct (index_of a l) as [ia |], (index_of b l) as [ib |];
      try discriminate.
    intros H1 H2. apply (IH ia); congruence.
Qed.

Lemma display_label_app (seen more : list pystr) (raw : pystr) :
  In raw seen -> display_label (seen ++ more) raw = display_label seen raw.
Proof.
  intros Hin. unfold display_label.
  destruct (index_of_some raw seen Hin) as (i & Hi & _).
  now rewrite (index_of_app _ _ more _ Hi), Hi.
Qed.

(** Display labels tell the raw labels of a list apart. *)
Lemma display_label_inj (seen : list pystr) (a b : pystr) :
  In a seen -> In b seen ->
  display_label seen a = display_label seen b -> a = b.
Proof.
  intros Ha Hb. unfold display_label.
  destruct (index_of_some a seen Ha) as (i & Hi & _).
  destruct (index_of_some b seen Hb) as (j & Hj & _).
  rewrite Hi, Hj. intros H. apply app_inv_head in H.
  apply str_of_int_inj in H; [| lia | lia].
  assert (i = j) by lia. subst j. eapply index_of_inj; eassumption.
Qed.

Lemma first_seen_extends (seen : list pystr) (turns : list Turn) :
  exists more, first_seen seen turns = seen ++ more.
Proof.
  revert seen. induction turns as [| t rest IH]; intros seen;
    cbn [first_seen].
  - exists []. now rewrite app_nil_r.
  - destruct (existsb (pystr_eqb (turn_label t)) seen); [apply IH |].
    destruct (IH (seen ++ [turn_label t])) as [more ->].
    exists (turn_label t :: more). now rewrite <- app_assoc.
Qed.

Lemma first_seen_has (seen : list pystr) (turns : list Turn) (t : Turn) :
  In t turns -> In (turn_label t) (first_seen seen turns).
Proof.
  revert seen. induction turns as [| u rest IH]; intros seen Hin;
    [destruct Hin |].
  cbn [first_seen]. destruct Hin as [-> | Hin].
  - destruct (existsb (pystr_eqb (turn_label t)) seen) eqn:E.
    + apply existsb_label in E.
      destruct (first_seen_extends seen rest) as [more ->].
      apply in_or_app. now left.
    + destruct (first_seen_extends (seen ++ [turn_label t]) rest)
        as [more ->].
      apply in_or_app. left. apply in_or_app. right. now left.
  - destruct (existsb (pystr_eqb (turn_label u)) seen); now apply IH.
Qed.

Lemma map_get_labels (f : pystr -> pystr) (seen : list pystr) (k : pystr) :
  map_get (List.map (fun raw => (raw, f raw)) seen) k
  = if existsb (pystr_eqb k) seen then Some (f k) else None.
Proof.
  induction seen as [| a seen IH]; [reflexivity |].
  cbn [List.map map_get existsb].
  destruct (pystr_eqb a k) eqn:E.
  - apply pystr_eqb_eq in E. subst a. now rewrite pystr_eqb_refl.
  - rewrite pystr_eqb_neq; [exact IH |].
    intros ->. now rewrite pystr_eqb_refl in E.
Qed.

(** One turn of the labelling loop keeps its invariant. *)
Lemma label_step_ok (st : label_state) (seen : list pystr) (t : Turn) :
  labels_ok st seen ->
  let seen' := if existsb (pystr_eqb (turn_label t)) seen then seen
               else seen ++ [turn_label t] in
  labels_ok (label_step st t) seen'
  /\ ls_segments (label_step st t)
     = ls_segments st
       ++ [mkSegment (display_label seen' (turn_label t))
                     (turn_start t) (turn_end t)].
Proof.
  intros (Hnd & Hmap & Hcount). unfold label_step.
  assert (Hg : map_get (ls_map st) (turn_label t)
               = if existsb (pystr_eqb (turn_label t)) seen
                 then Some (display_label seen (turn_label t)) else None).
  { rewrite Hmap. apply map_get_labels. }
  rewrite Hg.
  destruct (existsb (pystr_eqb (turn_label t)) seen) eqn:E; cbn zeta.
  - rewrite Hg. cbn [ls_segments].
    split; [| reflexivity]. now repeat split.
  - assert (Hnin : ~ In (turn_label t) seen).
    { intros Hin. apply existsb_label in Hin. congruence. }
    assert (Hnew : cp "Speaker " ++ str_of_int (ls_count st)
                   = display_label (seen ++ [turn_label t]) (turn_label t)).
    { unfold display_label. rewrite index_of_new by exact Hnin.
      now rewrite Hcount. }
    assert (Hmap' : ls_map st ++ [(turn_label t,
                                   cp "Speaker " ++ str_of_int (ls_count st))]
                    = List.map (fun raw =>
                          (raw, display_label (seen ++ [turn_label t]) raw))
                        (seen ++ [turn_label t])).
    { rewrite map_app, Hmap, Hnew. cbn [List.map]. f_equal.
      apply map_ext_in. intros raw Hin.
      now rewrite display_label_app. }
    assert (E' : existsb (pystr_eqb (turn_label t)) (seen ++ [turn_label t])
                 = true).
    { apply existsb_label. apply in_or_app. right. now left. }
    rewrite Hmap', map_get_labels, E'. cbn [ls_segments].
    split; [| reflexivity].
    repeat split; cbn [ls_map ls_count].
    + apply NoDup_app; [exact Hnd | repeat constructor; intros [] | ].
      intros x Hx [<- | []]. contradiction.
    + rewrite Hcount, length_app. cbn [length]. lia.
Qed.

(** The labelling loop, from a state that satisfies its invariant. *)
Lemma label_loop (turns : list Turn) (st : label_state)
      (seen : list pystr) :
  labels_ok st seen ->
  ls_segments (fold_left label_step turns st)
  = ls_segments st
    ++ List.map (fun t => mkSegment
                            (display_label (first_seen seen turns)
                                           (turn_label t))
                            (turn_start t) (turn_end t)) turns.
Proof.
  revert st seen. induction turns as [| t rest IH]; intros st seen Hok.
  - cbn. now rewrite app_nil_r.
  - cbn [fold_left List.map first_seen].
    destruct (label_step_ok st seen t Hok) as [Hok' Hsegs].
    cbn zeta in Hok', Hsegs.
    assert (Hin : In (turn_label t)
                     (if existsb (pystr_eqb (turn_label t)) seen then seen
                      else seen ++ [turn_label t])).
    { destruct (existsb (pystr_eqb (turn_label t)) seen) eqn:E.
      - now apply existsb_label.
      - apply in_or_app. right. now left. }
    rewrite (IH _ _ Hok'), Hsegs, <- app_assoc. cbn [app].
    destruct (existsb (pystr_eqb (turn_label t)) seen);
      match goal with
      | |- context [first_seen ?s rest] =>
          destruct (first_seen_extends s rest) as [more ->]
      end; now rewrite (display_label_app _ more (turn_label t) Hin).
Qed.

(** X14.  Speaker labels number the speakers in order of first
    appearance: every turn becomes one segment with the turn's times,
    labelled "Speaker n" where n counts from one the place of the turn's
    speaker among the speakers in the order in which they first occur. *)
Theorem label_turns_by_first_appearance (turns : list Turn) :
  label_turns turns
  = List.map (fun t => mkSegment
                         (display_label (first_seen [] turns) (turn_label t))
                         (turn_start t) (turn_end t)) turns.
Proof.
  unfold label_turns. rewrite (label_loop turns _ []); [reflexivity |].
  repeat split. constructor.
Qed.

(** X15.  Two turns get the same display label exactly when diarization
    gave them the same speaker, and every segment keeps the times of its
    turn. *)
Theorem label_turns_tell_speakers_apart (turns : list Turn) (i j : nat)
        (ti tj : Turn) :
  nth_error turns i = Some ti ->
  nth_error turns j = Some tj ->
  exists si sj,
    nth_error (label_turns turns) i = Some si
    /\ nth_error (label_turns turns) j = Some sj
    /\ seg_start si = turn_start ti /\ seg_end si = turn_end ti
    /\ (speaker si = speaker sj <-> turn_label ti = turn_label tj).
Proof.
  intros Hi Hj. unfold label_turns.
  rewrite (label_loop turns _ []) by (repeat split; constructor).
  cbn [ls_segments app]. rewrite !nth_error_map, Hi, Hj. cbn [option_map].
  eexists. eexists. split; [reflexivity |]. split; [reflexivity |].
  cbn [seg_start seg_end speaker].
  split; [reflexivity |]. split; [reflexivity |]. split.
  - apply display_label_inj; apply first_seen_has;
      eapply nth_error_In; eassumption.
  - now intros ->.
Qed.

Lemma label_turns_tell_speakers_apart_witness :
  exists si sj,
    nth_error (label_turns [mkTurn (cp "B") 0 1; mkTurn (cp "A") 1 2;
                            mkTurn (cp "B") 2 3]) 0 = Some si
    /\ nth_error (label_turns [mkTurn (cp "B") 0 1; mkTurn (cp "A") 1 2;
                               mkTurn (cp "B") 2 3]) 2 = Some sj
    /\ seg_start si = 0%Q /\ seg_end si = 1%Q
    /\ (speaker si = speaker sj <-> cp "B" = cp "B").
Proof.
  exact (label_turns_tell_speakers_apart
           [mkTurn (cp "B") 0 1; mkTurn (cp "A") 1 2; mkTurn (cp "B") 2 3]
           0 2 (mkTurn (cp "B") 0 1) (mkTurn (cp "B") 2 3) eq_refl eq_refl).
Defined.

(* ------------------------------------------------------------------ *)
(** ** What a run reports *)

Lemma progress_values_app (a b : list event) :
  progress_values (a ++ b) = progress_values a ++ progress_values b.
Proof.
  unfold progress_values. now rewrite progress_events_app, map_app.
Qed.

Lemma sorted_snoc (l : list Z) (x : Z) :
  Sorted Z.le l -> Forall (fun p => p <= x)%Z l -> Sorted Z.le (l ++ [x]).
Proof.
  induction l as [| a l IH]; intros Hs Hall; cbn [app].
  - repeat constructor.
  - apply Sorted_inv in Hs. destruct Hs as [Hs Hd].
    apply Forall_cons_iff in Hall. destruct Hall as [Ha Hall].
    constructor; [now apply IH |].
    destruct l as [| b l]; cbn [app]; constructor; [exact Ha |].
    now inversion Hd.
Qed.

Lemma progress_percentage_zero (total : Z) :
  (0 <= total)%Z -> progress_percentage 0 total = 20%Z.
Proof.
  intros Ht. destruct (Z.eq_dec total 0) as [-> | Hne]; [reflexivity |].
  rewrite progress_percentage_floor by lia. reflexivity.
Qed.

Lemma progress_percentage_mono (c c' total : Z) :
  (0 <= c <= c')%Z -> (0 < total)%Z ->
  (20 <= progress_percentage c total <= progress_percentage c' total)%Z.
Proof.
  intros Hc Ht. rewrite !progress_percentage_floor by lia.
  assert (0 <= 80 * c / total)%Z by (apply Z.div_pos; lia).
  assert (80 * c / total <= 80 * c' / total)%Z
    by (apply Z.div_le_mono; lia).
  lia.
Qed.

Lemma progress_percentage_top (c total : Z) :
  (0 <= c <= total)%Z -> (progress_percentage c total <= 100)%Z.
Proof.
  intros Hc. destruct (Z.eq_dec total 0) as [-> | Hne].
  - assert (c = 0%Z) by lia. subst c. now vm_compute.
  - rewrite progress_percentage_floor by lia.
    assert (80 * c / total <= 80)%Z; [| lia].
    apply Z.div_le_upper_bound; lia.
Qed.

Lemma len_nonneg (A : Type) (l : list A) : (0 <= len l)%Z.
Proof. unfold len. lia. Qed.

Lemma len_snoc (A : Type) (l : list A) (a : A) :
  len (l ++ [a]) = (len l + 1)%Z.
Proof. unfold len. rewrite length_app. cbn [length]. lia. Qed.

(** A step that adds no progress report keeps the invariant. *)
Lemma reports_quiet (total : Z) (k : nat) (st : loop_state)
      (tr more : list event) :
  progress_values more = [] ->
  reports_ok total k st tr -> reports_ok total (S k) st (tr ++ more).
Proof.
  intros Hq (Hlen & Hs & Hall). unfold reports_ok.
  rewrite progress_values_app, Hq, app_nil_r.
  repeat split; [lia | exact Hs | exact Hall].
Qed.

(** Reporting the percentage of a number of results that did not go
    down keeps the invariant. *)
Lemma reports_next (total : Z) (k : nat) (st st' : loop_state)
      (tr more : list event) (status : pystr) :
  (0 < total)%Z ->
  progress_values more = [] ->
  (len (all_segments st) <= len (all_segments st')
   <= len (all_segments st) + 1)%Z ->
  reports_ok total k st tr ->
  reports_ok total (S k) st'
    ((tr ++ more)
       ++ [Progress (progress_percentage (len (all_segments st')) total)
                    status]).
Proof.
  intros Ht Hq Hst (Hlen & Hs & Hall). unfold reports_ok.
  rewrite !progress_values_app, Hq, app_nil_r.
  change (progress_values [Progress _ status])
    with [progress_percentage (len (all_segments st')) total].
  pose proof (progress_percentage_mono (len (all_segments st))
                (len (all_segments st')) total
                (conj (len_nonneg _ (all_segments st)) (proj1 Hst)) Ht) as Hm.
  repeat split.
  - lia.
  - apply sorted_snoc; [exact Hs |].
    eapply Forall_impl; [| exact Hall]. cbn beta. intros p Hp. lia.
  - apply Forall_app. split.
    + eapply Forall_impl; [| exact Hall]. cbn beta. intros p Hp. lia.
    + repeat constructor; lia.
Qed.

Lemma loop_body_reports (inp : run_input) (segs : list Segment)
      (k i : nat) (st : loop_state) (tr : list event) :
  reports_ok (len segs) k st tr ->
  exists st',
    reports_ok (len segs) (S k) st' (snd (loop_body inp segs k i st tr))
    /\ forall s, fst (loop_body inp segs k i st tr) = inr s -> s = st'.
Proof.
  intros Hok. unfold loop_body, check_stop, bind, emit.
  destruct (is_set inp (AtCompletion k)).
  { exists st. cbn [raise fst snd]. split; [| discriminate].
    now apply reports_quiet. }
  cbn [ret]. destruct (nth_error segs i) as [segment |] eqn:Hseg.
  2:{ exists st. cbn [ret fst snd]. split; [| congruence].
      now apply reports_quiet. }
  assert (Ht : (0 < len segs)%Z).
  { unfold len. destruct segs; [destruct i; discriminate | cbn; lia]. }
  unfold collect. destruct (result_of inp i) as [e | [| c text]].
  - exists st. unfold bind, emit, ret. cbn [fst snd].
    split; [| congruence].
    rewrite <- (app_assoc tr).
    apply (reports_next _ _ st); [exact Ht | reflexivity | lia | exact Hok].
  - exists st. unfold ret. cbn [fst snd]. split; [| congruence].
    apply (reports_next _ _ st); [exact Ht | reflexivity | lia | exact Hok].
  - eexists. unfold ret. cbn [fst snd]. split; [| intros s H; now inversion H].
    apply (reports_next _ _ st); [exact Ht | reflexivity | | exact Hok].
    cbn [all_segments]. rewrite len_snoc. lia.
Qed.

Lemma completion_loop_reports (inp : run_input) (segs : list Segment)
      (order : list nat) (k : nat) (st : loop_state) (tr : list event) :
  reports_ok (len segs) k st tr ->
  exists st',
    reports_ok (len segs) (k + length order) st'
      (snd (completion_loop inp segs k order st tr))
    /\ forall s,
         fst (completion_loop inp segs k order st tr) = inr s -> s = st'.
Proof.
  revert k st tr. induction order as [| i order IH]; intros k st tr Hok.
  - exists st. cbn. rewrite Nat.add_0_r. split; [exact Hok | congruence].
  - cbn [completion_loop length]. unfold bind.
    destruct (loop_body_reports inp segs k i st tr Hok) as (st1 & Hok1 & Hst1).
    destruct (loop_body inp segs k i st tr) as [[e | s1] tr1].
    + exists st1. cbn [fst snd] in *. split; [| intros s H; discriminate H].
      destruct Hok1 as (Hl & Hs & Hall). repeat split; [lia | easy | easy].
    + cbn [fst snd] in *. rewrite (Hst1 s1 eq_refl).
      replace (k + S (length order)) with (S k + length order) by lia.
      now apply IH.
Qed.

Lemma handler_progress (e : exn) : progress_values (handler e) = [0%Z].
Proof.
  unfold handler. now destruct (pystr_eqb (str_of_exn e) STOPPED).
Qed.

(** Planning reports 10 percent, once, whether it returns or raises. *)
Lemma plan_progress (inp : run_input) :
  progress_values (snd (plan inp [])) = [10%Z].
Proof.
  unfold plan, check_stop, bind, emit, lift.
  destruct (diarization inp) as [[e | turns] |]; cbn [app].
  - reflexivity.
  - cbn [ret]. destruct (is_set inp AfterDiarization); [reflexivity |].
    cbn [ret]. destruct (combine_segments _ _); reflexivity.
  - destruct (fixed_grid _ _); reflexivity.
Qed.

(** X16.  The progress a run reports never goes back before its last
    report: the percentages reported up to the last one never decrease
    and lie between 10 and 100, and the last one is 100 (the run
    completed) or 0 (it was stopped or failed). *)
Theorem progress_never_goes_back (inp : run_input) :
  well_scheduled inp ->
  exists vs final,
    progress_values (transcribe_file inp) = vs ++ [final]
    /\ Sorted Z.le vs
    /\ Forall (fun p => 10 <= p <= 100)%Z vs
    /\ (final = 0%Z \/ final = 100%Z).
Proof.
  intros Hsched. unfold transcribe_file, run_body.
  unfold bind at 1. pose proof (plan_progress inp) as Hplan.
  destruct (plan inp []) as [[e | segs] tr0] eqn:Eplan; cbn [snd] in Hplan.
  { exists [10%Z], 0%Z.
    rewrite !progress_values_app, Hplan, handler_progress.
    repeat split; [repeat constructor | repeat constructor; lia | now left]. }
  pose proof (Hsched segs tr0 Eplan) as Hperm.
  apply Permutation_length in Hperm. rewrite length_seq in Hperm.
  unfold check_stop at 1. unfold bind at 1. unfold bind at 1.
  unfold emit at 1. destruct (is_set inp BeforeLoop).
  { exists [10%Z], 0%Z. cbn [raise].
    rewrite !progress_values_app, Hplan, handler_progress.
    repeat split; [repeat constructor | repeat constructor; lia | now left]. }
  cbn [ret]. unfold bind at 1. unfold emit at 1. unfold bind at 1.
  match goal with
  | |- context [completion_loop inp segs 0 (completion inp) ?s ?t] =>
      destruct (completion_loop_reports inp segs (completion inp) 0 s t)
        as (st' & (Hlen & Hsorted & Hall) & Hst');
      [| destruct (completion_loop inp segs 0 (completion inp) s t)
           as [[e | s1] tr1] eqn:Eloop]
  end.
  { unfold reports_ok. rewrite !progress_values_app, Hplan.
    cbn [all_segments progress_values progress_events List.map progress_of
         fst app].
    rewrite progress_percentage_zero by apply len_nonneg.
    repeat split; [cbn; lia | repeat constructor; lia |
                   repeat constructor; lia]. }
  all: cbn [fst snd] in Hlen, Hsorted, Hall, Hst'.
  all: assert (Htop : (progress_percentage (len (all_segments st')) (len segs)
                       <= 100)%Z)
         by (apply progress_percentage_top; split;
             [apply len_nonneg | unfold len in *; lia]).
  all: assert (Hbound : Forall (fun p => 10 <= p <= 100)%Z
                          (progress_values tr1))
         by (eapply Forall_impl; [| exact Hall]; cbn beta; intros p Hp; lia).
  - exists (progress_values tr1), 0%Z.
    rewrite !progress_values_app, handler_progress.
    cbn [progress_values progress_events List.map progress_of].
    rewrite app_nil_r. repeat split; [exact Hsorted | exact Hbound | now left].
  - unfold bind at 1. unfold emit at 1.
    destruct (is_set inp AfterLoop).
    + exists (progress_values tr1), 0%Z.
      unfold bind, emit. rewrite !progress_values_app.
      cbn [progress_values progress_events List.map progress_of fst app].
      rewrite !app_nil_r.
      repeat split; [exact Hsorted | exact Hbound | now left].
    + exists (progress_values tr1), 100%Z.
      unfold bind at 1. unfold emit at 1.
      destruct (srt_var inp); unfold bind, emit;
        rewrite !progress_values_app;
        cbn [progress_values progress_events List.map progress_of fst app];
        rewrite !app_nil_r;
        (repeat split; [exact Hsorted | exact Hbound | now right]).
Qed.

Lemma progress_never_goes_back_witness :
  exists vs final,
    progress_values
      (transcribe_file (example_run false never [2; 0; 1]
                          [cp "a"; []; cp "c"]))
    = vs ++ [final]
    /\ Sorted Z.le vs
    /\ Forall (fun p => 10 <= p <= 100)%Z vs
    /\ (final = 0%Z \/ final = 100%Z).
Proof.
  apply (progress_never_goes_back
           (example_run false never [2; 0; 1] [cp "a"; []; cp "c"])).
  intros segs tr0 H. vm_compute in H. inversion H; subst.
  cbn [length seq example_run completion].
  eapply perm_trans; [apply perm_swap | apply perm_skip, perm_swap].
Defined.

(* ------------------------------------------------------------------ *)
(** ** When the error box is shown *)

Lemma boxless_app (a b : list event) :
  boxless (a ++ b) <-> boxless a /\ boxless b.
Proof.
  unfold boxless. rewrite existsb_app, orb_false_iff. tauto.
Qed.

Lemma stops_ret (A : Type) (a : A) : stops_only (ret a).
Proof. intros tr H. now split. Qed.

Lemma stops_emit (ev : event) :
  is_error_box ev = false -> stops_only (emit ev).
Proof.
  intros Hev tr H. split; [| exact I]. cbn.
  apply boxless_app. split; [exact H |]. unfold boxless. cbn.
  now rewrite Hev.
Qed.

Lemma stops_bind (A B : Type) (m : M A) (f : A -> M B) :
  stops_only m -> (forall a, stops_only (f a)) -> stops_only (bind m f).
Proof.
  intros Hm Hf tr H. unfold bind. specialize (Hm tr H).
  destruct (m tr) as [[e | a] tr']; [exact Hm |].
  apply Hf. exact (proj1 Hm).
Qed.

Lemma stops_check_stop (inp : run_input) (ck : checkpoint) :
  stops_only (check_stop inp ck).
Proof.
  intros tr H. unfold check_stop, bind, emit.
  destruct (is_set inp ck); cbn; (split; [| reflexivity || exact I]);
    apply boxless_app; (split; [exact H | reflexivity]).
Qed.

Lemma stops_collect (inp : run_input) (segment : Segment)
      (r : exn + pystr) (st : loop_state) :
  stops_only (collect inp segment r st).
Proof.
  unfold collect. destruct r as [e | [| c text]].
  - apply stops_bind; [now apply stops_emit |]. intros _. apply stops_ret.
  - apply stops_ret.
  - apply stops_ret.
Qed.

Lemma stops_loop_body (inp : run_input) (segs : list Segment) (k i : nat)
      (st : loop_state) :
  stops_only (loop_body inp segs k i st).
Proof.
  unfold loop_body.
  apply stops_bind; [apply stops_check_stop |]. intros _.
  destruct (nth_error segs i) as [segment |]; [| apply stops_ret].
  apply stops_bind; [apply stops_collect |]. intros st'.
  apply stops_bind; [now apply stops_emit |]. intros _. apply stops_ret.
Qed.

Lemma stops_completion_loop (inp : run_input) (segs : list Segment)
      (order : list nat) (k : nat) (st : loop_state) :
  stops_only (completion_loop inp segs k order st).
Proof.
  revert k st. induction order as [| i order IH]; intros k st; cbn.
  - apply stops_ret.
  - apply stops_bind; [apply stops_loop_body |]. intros st'. apply IH.
Qed.

(** Planning shows no error box. *)
Lemma plan_boxless (inp : run_input) : boxless (snd (plan inp [])).
Proof.
  unfold plan, check_stop, bind, emit, lift.
  destruct (diarization inp) as [[e | turns] |]; cbn [app].
  - reflexivity.
  - cbn [ret]. destruct (is_set inp AfterDiarization); [reflexivity |].
    cbn [ret]. destruct (combine_segments _ _); reflexivity.
  - destruct (fixed_grid _ _); reflexivity.
Qed.

Lemma handler_box (e : exn) :
  existsb is_error_box (handler e)
  = negb (pystr_eqb (str_of_exn e) STOPPED).
Proof.
  unfold handler. now destruct (pystr_eqb (str_of_exn e) STOPPED).
Qed.

(** X17.  The error box is shown exactly when planning fails with an
    error other than the cancellation: a diarization or chunking error.
    Nothing a worker task does, and no cancellation, brings it up. *)
Theorem error_box_only_when_planning_fails (inp : run_input) :
  existsb is_error_box (transcribe_file inp) = true
  <-> exists e tr0,
        plan inp [] = (inl e, tr0) /\ str_of_exn e <> STOPPED.
Proof.
  unfold transcribe_file, run_body. unfold bind at 1.
  pose proof (plan_boxless inp) as Hplan.
  destruct (plan inp []) as [[e | segs] tr0]; cbn [snd] in Hplan.
  - rewrite !existsb_app, Hplan, handler_box. cbn [existsb is_error_box orb].
    rewrite orb_false_r. split.
    + intros H. exists e, tr0. split; [reflexivity |].
      intros Heq. rewrite Heq in H.
      assert (E : pystr_eqb STOPPED STOPPED = true) by now vm_compute.
      rewrite E in H. discriminate.
    + intros (e' & tr' & Heq & Hne). inversion Heq; subst e' tr'.
      destruct (pystr_eqb (str_of_exn e) STOPPED) eqn:E; [| reflexivity].
      exfalso. apply Hne. now apply pystr_eqb_eq.
  - split; [| intros (e' & tr' & Heq & _); discriminate].
    match goal with
    | |- context [bind (check_stop inp BeforeLoop) ?f tr0] =>
        assert (Hrest : stops_only (bind (check_stop inp BeforeLoop) f));
        [| specialize (Hrest tr0 Hplan);
           destruct (bind (check_stop inp BeforeLoop) f tr0)
             as [[e | u] tr1]]
    end.
    { apply stops_bind; [apply stops_check_stop |]. intros _.
      apply stops_bind; [now apply stops_emit |]. intros _.
      apply stops_bind; [apply stops_completion_loop |]. intros st.
      apply stops_bind; [now apply stops_emit |]. intros _.
      destruct (is_set inp AfterLoop).
      - apply stops_bind; [now apply stops_emit |]. intros _.
        now apply stops_emit.
      - apply stops_bind; [now apply stops_emit |]. intros _.
        destruct (srt_var inp).
        + apply stops_bind; [now apply stops_emit |]. intros _.
          now apply stops_emit.
        + now apply stops_emit. }
    + cbn [fst snd] in Hrest. destruct Hrest as [Hbox ->].
      rewrite !existsb_app, Hbox, handler_box.
      assert (E : pystr_eqb (str_of_exn (Exception STOPPED)) STOPPED = true)
        by now vm_compute.
      rewrite E. discriminate.
    + cbn [fst snd] in Hrest. destruct Hrest as [Hbox _].
      rewrite !existsb_app, Hbox. discriminate.
Qed.

(* ------------------------------------------------------------------ *)
(** ** Rounding to a float *)

Lemma pow2_pos (e : Z) : (0 < pow2 e)%Q.
Proof. unfold pow2. now apply Qpower_0_lt. Qed.

Lemma pow2_add (a b : Z) : (pow2 (a + b) == pow2 a * pow2 b)%Q.
Proof. unfold pow2. apply Qpower_plus. discriminate. Qed.

Lemma pow2_int (k : Z) : (0 <= k)%Z -> (pow2 k == inject_Z (2 ^ k))%Q.
Proof.
  intros Hk. unfold pow2. rewrite Zpower_Qpower by exact Hk. reflexivity.
Qed.

Lemma pow2_lt_inv (a b : Z) : (pow2 a < pow2 b)%Q -> (a < b)%Z.
Proof.
  intros H. unfold pow2 in H.
  apply (Qpower_lt_compat_l_inv 2); [exact H | reflexivity].
Qed.

Lemma Zlt_of_Q (a b : Z) : (inject_Z a < inject_Z b)%Q -> (a < b)%Z.
Proof. intros H. now rewrite Zlt_Qlt. Qed.

Lemma Zle_of_Q (a b : Z) : (inject_Z a <= inject_Z b)%Q -> (a <= b)%Z.
Proof. intros H. now rewrite Zle_Qle. Qed.

(** [ilog2 x] is not above the logarithm of [x]. *)
Lemma ilog2_below (x : Q) : (0 < x)%Q -> (pow2 (ilog2 x) <= x)%Q.
Proof.
  intros Hx. unfold ilog2.
  destruct (Qle_bool (pow2 (Z.log2 (Qnum x) - Z.log2 (Z.pos (Qden x)))) x)
    eqn:E; [now apply Qle_bool_iff |].
  destruct x as [p q]. cbn [Qnum Qden].
  assert (Hp : (0 < p)%Z).
  { unfold Qlt in Hx. cbn in Hx. lia. }
  pose proof (Z.log2_nonneg p) as Hlp.
  pose proof (Z.log2_nonneg (Z.pos q)) as Hlq.
  destruct (Z.log2_spec p Hp) as [Hp1 _].
  destruct (Z.log2_spec (Z.pos q) ltac:(lia)) as [_ Hq2].
  replace (Z.log2 p - Z.log2 (Z.pos q) - 1)%Z
    with (Z.log2 p + - (Z.log2 (Z.pos q) + 1))%Z by lia.
  rewrite pow2_add. unfold pow2 at 2. rewrite Qpower_opp.
  fold (pow2 (Z.log2 (Z.pos q) + 1)).
  rewrite !pow2_int by lia.
  assert (H2 : (0 < 2 ^ (Z.log2 (Z.pos q) + 1))%Z)
    by (apply Z.pow_pos_nonneg; lia).
  apply Qle_shift_div_r.
  - rewrite Zlt_Qlt in H2. exact H2.
  - replace (Z.succ (Z.log2 (Z.pos q))) with (Z.log2 (Z.pos q) + 1)%Z
      in Hq2 by lia.
    unfold Qle. cbn [Qnum Qden Qmult inject_Z].
    rewrite !Z.mul_1_r, Pos.mul_1_r. nia.
Qed.

Lemma round_half_even_le (t : Q) (N : Z) :
  (t <= inject_Z N)%Q -> (round_half_even t <= N)%Z.
Proof.
  intros Ht. unfold round_half_even.
  pose proof (Qfloor_le t) as Hf.
  assert (H0 : (Qfloor t <= N)%Z) by (apply Zle_of_Q; lra).
  assert (H1 : (0 < t - inject_Z (Qfloor t))%Q -> (Qfloor t + 1 <= N)%Z).
  { intros Hpos. assert (Qfloor t < N)%Z; [apply Zlt_of_Q; lra | lia]. }
  destruct (Qcompare_spec (t - inject_Z (Qfloor t)) (1 # 2)) as [E | E | E].
  - destruct (Z.even (Qfloor t)); [exact H0 | apply H1; lra].
  - exact H0.
  - apply H1. lra.
Qed.

Lemma round_half_even_below_half (t : Q) (N : Z) :
  (t < inject_Z N - (1 # 2))%Q -> (round_half_even t <= N - 1)%Z.
Proof.
  intros Ht. unfold round_half_even.
  pose proof (Qfloor_le t) as Hf.
  assert (H0 : (Qfloor t <= N - 1)%Z).
  { assert (Qfloor t < N)%Z; [apply Zlt_of_Q; lra | lia]. }
  assert (H1 : ((1 # 2) <= t - inject_Z (Qfloor t))%Q ->
               (Qfloor t + 1 <= N - 1)%Z).
  { intros Hpos. assert (Qfloor t + 1 < N)%Z; [| lia].
    apply Zlt_of_Q. rewrite inject_Z_plus. change (inject_Z 1) with 1%Q.
    lra. }
  destruct (Qcompare_spec (t - inject_Z (Qfloor t)) (1 # 2)) as [E | E | E].
  - destruct (Z.even (Qfloor t)); [exact H0 | apply H1; lra].
  - exact H0.
  - apply H1. lra.
Qed.

Lemma round_half_even_nonneg (t : Q) :
  (0 <= t)%Q -> (0 <= round_half_even t)%Z.
Proof.
  intros Ht. unfold round_half_even.
  assert (H0 : (0 <= Qfloor t)%Z).
  { change 0%Z with (Qfloor 0). now apply Qfloor_resp_le. }
  destruct (t - inject_Z (Qfloor t) ?= 1 # 2)%Q;
    [destruct (Z.even (Qfloor t)) | |]; lia.
Qed.

(** The exponent used for [x] is at most [g] when [x] is below
    [2^(g+53)]. *)
Lemma exponent_le (x : Q) (g : Z) :
  (0 < x)%Q -> (-1074 <= g)%Z -> (x < pow2 (g + 53))%Q ->
  (Z.max (ilog2 x - 52) (-1074) <= g)%Z.
Proof.
  intros Hx Hg Hlt. pose proof (ilog2_below x Hx) as Hl.
  assert (ilog2 x < g + 53)%Z; [| lia].
  apply pow2_lt_inv. lra.
Qed.

Lemma pow2_split (e g : Z) :
  (e <= g)%Z -> (pow2 g == inject_Z (2 ^ (g - e)) * pow2 e)%Q.
Proof.
  intros H. replace g with ((g - e) + e)%Z at 1 by lia.
  rewrite pow2_add, pow2_int by lia. reflexivity.
Qed.

(** Rounding does not step over a float: a positive number that is not
    above the float [M * 2^g] is rounded to a number not above it. *)
Lemma round_pos_le (x : Q) (M g : Z) :
  (0 < x)%Q -> (-1074 <= g)%Z -> (x < pow2 (g + 53))%Q ->
  (x <= inject_Z M * pow2 g)%Q ->
  (round_pos x <= inject_Z M * pow2 g)%Q.
Proof.
  intros Hx Hg Hlt Hle. unfold round_pos.
  pose proof (exponent_le x g Hx Hg Hlt) as He.
  set (e := Z.max (ilog2 x - 52) (-1074)) in *.
  pose proof (pow2_pos e) as Hpe.
  rewrite (pow2_split e g He) in Hle |- *.
  rewrite Qmult_assoc, <- inject_Z_mult in Hle |- *.
  apply Qmult_le_compat_r; [| lra].
  rewrite <- Zle_Qle. apply round_half_even_le.
  apply Qle_shift_div_r; [exact Hpe | exact Hle].
Qed.

(** A positive number that is more than half a step below the float
    [N * 2^g] is rounded to a number below it. *)
Lemma round_pos_lt (x : Q) (N g : Z) :
  (0 < x)%Q -> (-1074 <= g)%Z -> (x < pow2 (g + 53))%Q ->
  (x < (inject_Z N - (1 # 2)) * pow2 g)%Q ->
  (round_pos x < inject_Z N * pow2 g)%Q.
Proof.
  intros Hx Hg Hlt Hle. unfold round_pos.
  pose proof (exponent_le x g Hx Hg Hlt) as He.
  set (e := Z.max (ilog2 x - 52) (-1074)) in *.
  pose proof (pow2_pos e) as Hpe.
  assert (Hk : (1 <= 2 ^ (g - e))%Z).
  { assert (0 < 2 ^ (g - e))%Z by (apply Z.pow_pos_nonneg; lia). lia. }
  rewrite (pow2_split e g He) in Hle |- *.
  rewrite Qmult_assoc in Hle |- *.
  rewrite <- inject_Z_mult.
  apply Qmult_lt_compat_r; [exact Hpe |].
  rewrite <- Zlt_Qlt.
  assert (round_half_even (x / pow2 e) <= N * 2 ^ (g - e) - 1)%Z; [| lia].
  apply round_half_even_below_half.
  apply Qlt_shift_div_r; [exact Hpe |].
  rewrite inject_Z_mult.
  rewrite Zle_Qle in Hk. change (inject_Z 1) with 1%Q in Hk.
  eapply Qlt_le_trans; [exact Hle |].
  apply Qmult_le_compat_r; [| lra].
  set (k := inject_Z (2 ^ (g - e))) in *. nra.
Qed.

Lemma round_pos_nonneg (x : Q) : (0 < x)%Q -> (0 <= round_pos x)%Q.
Proof.
  intros Hx. unfold round_pos.
  set (e := Z.max (ilog2 x - 52) (-1074)).
  pose proof (pow2_pos e) as Hpe.
  apply Qmult_le_0_compat; [| lra].
  change 0%Q with (inject_Z 0). rewrite <- Zle_Qle.
  apply round_half_even_nonneg.
  apply Qle_shift_div_l; [exact Hpe | lra].
Qed.

Lemma round_double_zero (x : Q) : (x == 0)%Q -> round_double x = 0%Q.
Proof.
  intros H. unfold round_double. apply Qeq_alt in H. now rewrite H.
Qed.

Lemma round_double_pos (x : Q) : (0 < x)%Q -> round_double x = round_pos x.
Proof.
  intros H. unfold round_double. apply Qgt_alt in H. now rewrite H.
Qed.

Lemma round_double_nonneg (x : Q) : (0 <= x)%Q -> (0 <= round_double x)%Q.
Proof.
  intros H. destruct (Qlt_le_dec 0 x) as [Hpos | Hle].
  - rewrite round_double_pos by exact Hpos. now apply round_pos_nonneg.
  - rewrite round_double_zero by lra. apply Qle_refl.
Qed.

Lemma round_double_le (x : Q) (M g : Z) :
  (0 <= x)%Q -> (-1074 <= g)%Z -> (x < pow2 (g + 53))%Q ->
  (x <= inject_Z M * pow2 g)%Q ->
  (round_double x <= inject_Z M * pow2 g)%Q.
Proof.
  intros H Hg Hlt Hle. destruct (Qlt_le_dec 0 x) as [Hpos | Hz].
  - rewrite round_double_pos by exact Hpos. now apply round_pos_le.
  - rewrite round_double_zero by lra. lra.
Qed.

Lemma round_double_lt (x : Q) (N g : Z) :
  (0 <= x)%Q -> (-1074 <= g)%Z -> (x < pow2 (g + 53))%Q ->
  (x < (inject_Z N - (1 # 2)) * pow2 g)%Q ->
  (round_double x < inject_Z N * pow2 g)%Q.
Proof.
  intros H Hg Hlt Hle. destruct (Qlt_le_dec 0 x) as [Hpos | Hz].
  - rewrite round_double_pos by exact Hpos. now apply round_pos_lt.
  - rewrite round_double_zero by lra.
    pose proof (pow2_pos g) as Hpg.
    assert ((1 # 2) * pow2 g > 0)%Q by lra. lra.
Qed.

(** The part of a float after its whole seconds is at most
    [1 - 2^-53]. *)
Lemma double_fraction (s : Q) :
  (0 <= s)%Q -> is_double s ->
  (s - inject_Z (Qfloor s) <= inject_Z (2 ^ 53 - 1) * pow2 (-53))%Q.
Proof.
  intros Hs (m & e & Hm & He & Hv).
  pose proof (Qfloor_le s) as Hlo. pose proof (Qlt_floor s) as Hhi.
  rewrite inject_Z_plus in Hhi. change (inject_Z 1) with 1%Q in Hhi.
  assert (Hc : (pow2 (-53) == 1 # 9007199254740992)%Q) by reflexivity.
  change (2 ^ 53 - 1)%Z with 9007199254740991%Z.
  destruct (Z.le_gt_cases (-53) e) as [Hbig | Hsmall].
  - rewrite (pow2_split (-53) e Hbig), Qmult_assoc, <- inject_Z_mult in Hv.
    set (K := (m * 2 ^ (e - -53))%Z) in Hv.
    assert (HJ : (K - Qfloor s * 9007199254740992 < 9007199254740992)%Z).
    { apply Zlt_of_Q. unfold Z.sub.
      rewrite inject_Z_plus, inject_Z_opp, inject_Z_mult.
      change (inject_Z 9007199254740992) with 9007199254740992%Q.
      rewrite Hc in Hv. lra. }
    assert (HJ' : (K - Qfloor s * 9007199254740992 <= 9007199254740991)%Z)
      by lia.
    rewrite Zle_Qle in HJ'. unfold Z.sub in HJ'.
    rewrite inject_Z_plus, inject_Z_opp, inject_Z_mult in HJ'.
    change (inject_Z 9007199254740992) with 9007199254740992%Q in HJ'.
    change (inject_Z 9007199254740991) with 9007199254740991%Q in HJ' |- *.
    rewrite Hc in Hv |- *. lra.
  - assert (Hm0 : (0 <= m)%Z).
    { destruct (Z.le_gt_cases 0 m) as [H | H]; [exact H | exfalso].
      pose proof (pow2_pos e) as Hpe.
      assert (Hneg : (inject_Z m <= -1)%Q).
      { change (-1)%Q with (inject_Z (-1)). rewrite <- Zle_Qle. lia. }
      assert (inject_Z m * pow2 e < 0)%Q by nra. lra. }
    assert (Hpe : (pow2 e <= pow2 (-54))%Q).
    { unfold pow2. apply Qpower_le_compat_l; [lia | discriminate]. }
    assert (Hc' : (pow2 (-54) == 1 # 18014398509481984)%Q) by reflexivity.
    assert (Hm1 : (inject_Z m <= 9007199254740991)%Q).
    { change 9007199254740991%Q with (inject_Z 9007199254740991).
      rewrite <- Zle_Qle. lia. }
    assert (Hm2 : (0 <= inject_Z m)%Q).
    { change 0%Q with (inject_Z 0). now rewrite <- Zle_Qle. }
    pose proof (pow2_pos e) as Hpos.
    assert (Hf : (0 <= inject_Z (Qfloor s))%Q).
    { change 0%Q with (inject_Z 0). rewrite <- Zle_Qle.
      change 0%Z with (Qfloor 0). now apply Qfloor_resp_le. }
    assert (Hhalf : (s <= 1 # 2)%Q).
    { rewrite Hv. rewrite Hc' in Hpe. nra. }
    change (inject_Z 9007199254740991) with 9007199254740991%Q.
    rewrite Hc. lra.
Qed.

(* ------------------------------------------------------------------ *)
(** ** Subtitle timestamps *)

Lemma int_of_float_int (z : Z) : int_of_float (inject_Z z) = z.
Proof. unfold int_of_float. cbn. apply Z.quot_1_r. Qed.

Lemma Qfloor_bounds (x : Q) :
  (inject_Z (Qfloor x) <= x)%Q /\ (x < inject_Z (Qfloor x) + 1)%Q.
Proof.
  split; [apply Qfloor_le |].
  pose proof (Qlt_floor x) as H. rewrite inject_Z_plus in H. exact H.
Qed.

(** Floor division by a positive integer: [x // m] is the floor of [x]
    divided by [m]. *)
Lemma Qfloor_div (x : Q) (m : Z) :
  (0 < m)%Z -> Qfloor (x / inject_Z m) = (Qfloor x / m)%Z.
Proof.
  intros Hm. destruct (Qfloor_bounds x) as [Hlo Hhi].
  assert (Hm' : (0 < inject_Z m)%Q)
    by (rewrite Zlt_Qlt in Hm; exact Hm).
  assert (H1 : (m * (Qfloor x / m) <= Qfloor x)%Z)
    by (Z.div_mod_to_equations; lia).
  assert (H2 : (Qfloor x + 1 <= (Qfloor x / m + 1) * m)%Z)
    by (Z.div_mod_to_equations; nia).
  rewrite Zle_Qle in H1, H2.
  rewrite inject_Z_mult in H1. rewrite inject_Z_mult, !inject_Z_plus in H2.
  change (inject_Z 1) with 1%Q in H2.
  apply Qfloor_unique.
  - apply Qle_shift_div_l; [exact Hm' |]. lra.
  - apply Qlt_shift_div_r; [exact Hm' |].
    rewrite inject_Z_plus. change (inject_Z 1) with 1%Q. lra.
Qed.

Lemma Qfloor_sub (x y : Q) (k : Z) :
  (y == inject_Z k)%Q -> Qfloor (x - y) = (Qfloor x - k)%Z.
Proof.
  intros Hy. destruct (Qfloor_bounds x) as [Hlo Hhi].
  apply Qfloor_unique.
  - unfold Z.sub. rewrite inject_Z_plus, inject_Z_opp. lra.
  - unfold Z.sub. rewrite !inject_Z_plus, inject_Z_opp.
    change (inject_Z 1) with 1%Q. lra.
Qed.

(** The milliseconds [format_timestamp] prints for a time that is not
    negative: the part after the whole seconds, computed and then
    multiplied by 1000 in floats, cut to an integer. *)
Lemma timestamp_millis (seconds : Q) :
  (0 <= seconds)%Q ->
  int_of_float (fmul (fsub seconds (inject_Z (int_of_float seconds))) 1000)
  = Qfloor (fmul (fsub seconds (inject_Z (Qfloor seconds))) 1000)
  /\ (0 <= fsub seconds (inject_Z (Qfloor seconds)))%Q.
Proof.
  intros Hpos. destruct (Qfloor_bounds seconds) as [Hlo Hhi].
  rewrite (int_of_float_nonneg seconds Hpos).
  assert (Hy : (0 <= fsub seconds (inject_Z (Qfloor seconds)))%Q).
  { unfold fsub. apply round_double_nonneg. lra. }
  split; [| exact Hy].
  apply int_of_float_nonneg. unfold fmul. apply round_double_nonneg.
  nra.
Qed.

(** X18.  A subtitle timestamp of a time that is not negative is the
    clock time of its whole seconds, as [format_time] writes it, then a
    comma and the milliseconds in three digits.  The milliseconds are the
    float product of 1000 and the float difference between the time and
    its whole seconds, cut to an integer; they are not negative, at most
    999 when the time is a float, and 0 for a whole number of seconds.
    For the float 0.29 the product rounds up to 290 and the timestamp ends
    in [,290]. *)
Theorem format_timestamp_clock (seconds : Q) :
  (0 <= seconds)%Q ->
  format_timestamp seconds
  = format_time (Qfloor seconds) ++ [44%N]
      ++ format_0w 3
           (Qfloor (fmul (fsub seconds (inject_Z (Qfloor seconds))) 1000))
  /\ (0 <= Qfloor (fmul (fsub seconds (inject_Z (Qfloor seconds))) 1000))%Z
  /\ (is_double seconds ->
      (Qfloor (fmul (fsub seconds (inject_Z (Qfloor seconds))) 1000)
       <= 999)%Z)
  /\ ((seconds == inject_Z (Qfloor seconds))%Q ->
      Qfloor (fmul (fsub seconds (inject_Z (Qfloor seconds))) 1000) = 0%Z)
  /\ format_timestamp (5224175567749775 # 18014398509481984)
     = cp "00:00:00,290".
Proof.
  intros Hpos. destruct (Qfloor_bounds seconds) as [Hlo Hhi].
  destruct (timestamp_millis seconds Hpos) as [Hmillis Hy].
  assert (Hn : (0 <= Qfloor seconds)%Z).
  { change 0%Z with (Qfloor 0). now apply Qfloor_resp_le. }
  split; [| split; [| split; [| split]]].
  - unfold format_timestamp, format_time, floordiv, fmod.
    rewrite Hmillis.
    rewrite !int_of_float_int.
    change 3600%Q with (inject_Z 3600). change 60%Q with (inject_Z 60).
    rewrite (Qfloor_div seconds 3600) by lia.
    rewrite (Qfloor_div seconds 60) by lia.
    rewrite (Qfloor_div _ 60) by lia.
    rewrite (Qfloor_sub seconds _ (3600 * (Qfloor seconds / 3600)))
      by (rewrite inject_Z_mult; reflexivity).
    assert (E60 : (Qfloor seconds - 60 * (Qfloor seconds / 60)
                   = Qfloor seconds mod 60)%Z)
      by (Z.div_mod_to_equations; lia).
    assert (E3600 : (Qfloor seconds - 3600 * (Qfloor seconds / 3600)
                     = Qfloor seconds mod 3600)%Z)
      by (Z.div_mod_to_equations; lia).
    rewrite E3600.
    rewrite int_of_float_nonneg.
    + rewrite (Qfloor_sub seconds _ (60 * (Qfloor seconds / 60)))
        by (rewrite inject_Z_mult; reflexivity).
      rewrite E60. now rewrite <- !app_assoc.
    + assert (H : (60 * (Qfloor seconds / 60) <= Qfloor seconds)%Z)
        by (Z.div_mod_to_equations; lia).
      rewrite Zle_Qle, inject_Z_mult in H. lra.
  - change 0%Z with (Qfloor 0). apply Qfloor_resp_le.
    unfold fmul. apply round_double_nonneg. nra.
  - intros Hd.
    pose proof (double_fraction seconds Hpos Hd) as Hfrac.
    assert (Hc : (pow2 (-53) == 1 # 9007199254740992)%Q) by reflexivity.
    assert (Hy1 : (fsub seconds (inject_Z (Qfloor seconds))
                   <= inject_Z (2 ^ 53 - 1) * pow2 (-53))%Q).
    { unfold fsub. apply round_double_le; [lra | lia | | exact Hfrac].
      change (pow2 (-53 + 53)) with 1%Q. lra. }
    set (y := fsub seconds (inject_Z (Qfloor seconds))) in *.
    change (inject_Z (2 ^ 53 - 1)) with 9007199254740991%Q in Hy1.
    rewrite Hc in Hy1.
    assert (Hz : (fmul y 1000
                  < inject_Z (1000 * 2 ^ 43) * pow2 (-43))%Q).
    { unfold fmul. apply round_double_lt; [nra | lia | |].
      - assert (E : (pow2 (-43 + 53) == 1024)%Q) by reflexivity.
        rewrite E. lra.
      - assert (E : ((inject_Z (1000 * 2 ^ 43) - (1 # 2)) * pow2 (-43)
                     == 1000 - (1 # 17592186044416))%Q) by reflexivity.
        rewrite E. lra. }
    assert (E : (inject_Z (1000 * 2 ^ 43) * pow2 (-43) == 1000)%Q)
      by reflexivity.
    rewrite E in Hz.
    pose proof (Qfloor_le (fmul y 1000)) as Hfl.
    assert (Qfloor (fmul y 1000) < 1000)%Z; [| lia].
    apply Zlt_of_Q. change (inject_Z 1000) with 1000%Q. lra.
  - intros Hwhole. unfold fsub, fmul.
    rewrite (round_double_zero (seconds - inject_Z (Qfloor seconds)))
      by lra.
    reflexivity.
  - vm_compute. reflexivity.
Qed.

(** Witness for X18: 65.25 seconds. *)
Lemma format_timestamp_clock_witness :
  format_timestamp (6525 # 100)
  = format_time (Qfloor (6525 # 100)) ++ [44%N]
      ++ format_0w 3
           (Qfloor (fmul (fsub (6525 # 100)
                                (inject_Z (Qfloor (6525 # 100)))) 1000))
  /\ format_timestamp (6525 # 100) = cp "00:01:05,250"
  /\ is_double (6525 # 100)
  /\ (Qfloor (fmul (fsub (6525 # 100)
                         (inject_Z (Qfloor (6525 # 100)))) 1000)
      <= 999)%Z.
Proof.
  assert (Hd : is_double (6525 # 100)).
  { exists 261%Z, (-2)%Z. split; [reflexivity |]. split; [lia | reflexivity]. }
  assert (Hpos : (0 <= 6525 # 100)%Q) by (unfold Qle; cbn; lia).
  split; [apply (format_timestamp_clock (6525 # 100) Hpos) |].
  split; [vm_compute; reflexivity |].
  split; [exact Hd |].
  exact (proj1 (proj2 (proj2
           (format_timestamp_clock (6525 # 100) Hpos))) Hd).
Defined.

(* ------------------------------------------------------------------ *)
(** ** What a merged chunk keeps of its turns *)

Lemma merge_members_ends (mcd : Q) (rest : list Segment) (cur : Segment)
      (members : list Segment) :
  (exists m more,
      members = m :: more /\ speaker cur = speaker m
      /\ seg_start cur = seg_start m /\ seg_end cur = seg_end (last more m)) ->
  forall c ms, In (c, ms) (merge_members mcd cur members rest) ->
    exists m more,
      ms = m :: more /\ speaker c = speaker m
      /\ seg_start c = seg_start m /\ seg_end c = seg_end (last more m).
Proof.
  revert cur members. induction rest as [| t rest IH];
    intros cur members Hcur c ms Hin.
  - cbn in Hin. destruct Hin as [E | []]. now inversion E; subst.
  - cbn [merge_members] in Hin.
    destruct (Qle_bool (fsub (seg_end t) (seg_start cur)) mcd).
    + eapply IH; [| exact Hin].
      destruct Hcur as (m & more & -> & Hsp & Hst & _).
      exists m, (more ++ [t]). cbn [speaker seg_start seg_end].
      repeat split; try assumption. now rewrite last_last.
    + destruct Hin as [E | Hin]; [now inversion E; subst |].
      eapply IH; [| exact Hin].
      exists t, []. repeat split.
Qed.

(** X19.  Merging looks at times only: a chunk carries the speaker label
    and the start of the first turn merged into it and the end of the
    last one, whatever the speakers of the turns in between. *)
Theorem chunk_labelled_by_first_turn (mcd : Q) (turns chunks : list Segment) :
  combine_segments mcd turns = inr chunks ->
  chunks = List.map fst (combine_members mcd turns)
  /\ concat (List.map snd (combine_members mcd turns)) = turns
  /\ forall c ms, In (c, ms) (combine_members mcd turns) ->
       exists m more,
         ms = m :: more /\ speaker c = speaker m
         /\ seg_start c = seg_start m
         /\ seg_end c = seg_end (last more m).
Proof.
  intros Hc. destruct turns as [| first rest]; [discriminate |].
  rewrite combine_members_erase in Hc. inversion Hc; subst chunks.
  split; [reflexivity |]. split.
  - unfold combine_members. rewrite segment_eta.
    apply merge_members_partition.
  - intros c ms Hin. unfold combine_members in Hin.
    eapply merge_members_ends; [| exact Hin].
    exists first, []. repeat split.
Qed.

(** Witness for X19: a turn of a second speaker merged into the chunk of
    the first. *)
Lemma chunk_labelled_by_first_turn_witness :
  [mkSegment (cp "Speaker 1") 0 50]
  = List.map fst
      (combine_members 60 [mkSegment (cp "Speaker 1") 0 20;
                           mkSegment (cp "Speaker 2") 20 50])
  /\ concat (List.map snd
               (combine_members 60 [mkSegment (cp "Speaker 1") 0 20;
                                    mkSegment (cp "Speaker 2") 20 50]))
     = [mkSegment (cp "Speaker 1") 0 20; mkSegment (cp "Speaker 2") 20 50]
  /\ forall c ms,
       In (c, ms)
          (combine_members 60 [mkSegment (cp "Speaker 1") 0 20;
                               mkSegment (cp "Speaker 2") 20 50]) ->
       exists m more,
         ms = m :: more /\ speaker c = speaker m
         /\ seg_start c = seg_start m
         /\ seg_end c = seg_end (last more m).
Proof.
  apply (chunk_labelled_by_first_turn 60
           [mkSegment (cp "Speaker 1") 0 20; mkSegment (cp "Speaker 2") 20 50]
           [mkSegment (cp "Speaker 1") 0 50]).
  reflexivity.
Defined.

(** X20.  Every turn is a member of exactly one chunk, in order.  A chunk
    made of two or more turns passed the cap test: its duration as the
    program computes it, the float difference of its end and its start,
    is at most [max_chunk_duration]; a chunk whose computed duration
    exceeds the cap is a single turn, and is that turn.  When the turns
    are ordered by start and their ends are non-decreasing as well (no
    turn ends before an earlier one), every turn lies inside a chunk. *)
Theorem merging_covers_and_caps (mcd : Q) (turns : list Segment) :
  turns <> [] ->
  exists chunks : list Segment,
    combine_segments mcd turns = inr chunks
    /\ chunks = List.map fst (combine_members mcd turns)
    /\ concat (List.map snd (combine_members mcd turns)) = turns
    /\ (forall c ms, In (c, ms) (combine_members mcd turns) ->
          ms <> []
          /\ ((2 <= length ms)%nat ->
              (fsub (seg_end c) (seg_start c) <= mcd)%Q)
          /\ ((mcd < fsub (seg_end c) (seg_start c))%Q -> ms = [c]))
    /\ (start_ordered turns -> end_ordered turns ->
        forall t, In t turns ->
          (exists c, In c chunks /\ within t c)
          /\ forall x, inside x t -> exists c, In c chunks /\ inside x c).
Proof.
  destruct turns as [| first rest]; [congruence |]. intros _.
  exists (List.map fst (combine_members mcd (first :: rest))).
  split; [apply combine_members_erase |]. split; [reflexivity |].
  split; [| split].
  - unfold combine_members. rewrite segment_eta.
    apply merge_members_partition.
  - intros c ms Hin. unfold combine_members in Hin.
    rewrite segment_eta in Hin.
    assert (Hok : chunk_ok mcd c ms).
    { eapply merge_members_ok; [| exact Hin].
      repeat split.
      - discriminate.
      - intros t E. now inversion E.
      - cbn. lia. }
    destruct Hok as (Hne & Hone & Hcap).
    split; [exact Hne |]. split; [exact Hcap |].
    intros Hlong. destruct ms as [| m ms]; [congruence |].
    destruct ms as [| m' ms].
    + now rewrite (Hone m eq_refl).
    + exfalso. assert (Hle : (fsub (seg_end c) (seg_start c) <= mcd)%Q).
      { apply Hcap. cbn. lia. }
      lra.
  - intros Hs He t Ht.
    assert (Hw : exists c,
               In c (List.map fst (combine_members mcd (first :: rest)))
               /\ within t c).
    { eapply combine_segments_within; try eassumption.
      apply combine_members_erase. }
    split; [exact Hw |].
    intros x [Hx1 Hx2]. destruct Hw as (c & Hc & Hw1 & Hw2).
    exists c. split; [exact Hc |]. unfold inside. split; lra.
Qed.

(** Witness for X20: three consecutive turns; the first two merge, the
    third would exceed the cap and opens a new chunk. *)
Lemma merging_covers_and_caps_witness :
  exists chunks : list Segment,
    combine_segments MAX_CHUNK_DURATION
      [mkSegment (cp "Speaker 1") 0 10; mkSegment (cp "Speaker 2") 10 50;
       mkSegment (cp "Speaker 1") 50 100]
    = inr chunks
    /\ chunks = [mkSegment (cp "Speaker 1") 0 50;
                 mkSegment (cp "Speaker 1") 50 100]
    /\ forall t,
         In t [mkSegment (cp "Speaker 1") 0 10;
               mkSegment (cp "Speaker 2") 10 50;
               mkSegment (cp "Speaker 1") 50 100] ->
         exists c, In c chunks /\ within t c.
Proof.
  destruct (merging_covers_and_caps MAX_CHUNK_DURATION
              [mkSegment (cp "Speaker 1") 0 10;
               mkSegment (cp "Speaker 2") 10 50;
               mkSegment (cp "Speaker 1") 50 100])
    as (chunks & E & Hc & _ & _ & Hcov); [discriminate |].
  exists chunks. split; [exact E |].
  split; [rewrite Hc; vm_compute; reflexivity |].
  intros t Ht. apply Hcov; [| | exact Ht].
  - repeat constructor; vm_compute; discriminate.
  - repeat constructor; vm_compute; discriminate.
Defined.
